(** * Stenciled geodesic block: stencils, moments and reconstruction matrices

    A shallow embedding of [src/geodesic/stenciled_block.cc] (class
    [StenciledBlock<verts_per_face>] of the SPECTRUM suite) and the
    properties of its construction pipeline.

    Conventions of the embedding

    - C++ [int] values are integers of [Z]; no arithmetic of the file comes
      near the range where signed overflow (undefined in C++) would matter.
    - The arrays of the base class [GridBlock] (topology tables, vertex
      coordinates, masks) and the per-face and per-edge arrays of the block
      are index functions [Z -> A] with pointwise update: position [i] of the
      function is element [i] of the array.  The loops of the file only
      visit positions below [n_faces_withghost] and [n_edges_withghost].
    - A zone list [stencil_zonelist[pface][stencil]] is [None] when no array
      was allocated and [Some l] for an allocated [int] array, [l] having the
      allocated length.
    - [double] is kept abstract in the class [DoubleOps], with two
      instances: [binary64] (IEEE 754 binary64, the arithmetic the program
      runs) and [exact] (the real numbers).
    - What lives in headers that are not part of the sources (the bit mask
      macros, [n_stencils], [InList], the [GeoVector] operators) is modelled
      after the specification; the spherical kernels, [acos] and the LU
      factorisation of Eigen are parameters (class [Kernels]); the constants
      and tables of the base class ([square_fill], [MaxFaceJ], [ff_local],
      the mask bits, ...) are the fields of the record [GridBlock].
    - A block carries the history [calls] of the methods that have been
      entered.  The history is not part of the C++ object and no method reads
      it; it is there to state in which order the phases run. *)

From Stdlib Require Import ZArith Lia Bool List.
From Stdlib Require Import Reals Lra FunctionalExtensionality.
From Stdlib Require Import PrimFloat.
From stdpp Require Import base list.

#[local] Open Scope Z_scope.

(* ===================================================================== *)
(** * Arithmetic of [double]                                             *)
(* ===================================================================== *)

Class DoubleOps (double : Type) := {
  d_zero : double;
  d_one : double;
  d_add : double -> double -> double;
  d_sub : double -> double -> double;
  d_mul : double -> double -> double;
  d_div : double -> double -> double
}.

Declare Scope double_scope.
Delimit Scope double_scope with D.
Infix "+" := d_add : double_scope.
Infix "-" := d_sub : double_scope.
Infix "*" := d_mul : double_scope.
Infix "/" := d_div : double_scope.

(** IEEE 754 binary64 with round to nearest even: the C++ [double]. *)
#[export] Instance binary64 : DoubleOps float := {
  d_zero := PrimFloat.zero;
  d_one := PrimFloat.one;
  d_add := PrimFloat.add;
  d_sub := PrimFloat.sub;
  d_mul := PrimFloat.mul;
  d_div := PrimFloat.div
}.

(** Exact real arithmetic. *)
#[export] Instance exact : DoubleOps R := {
  d_zero := 0%R;
  d_one := 1%R;
  d_add := Rplus;
  d_sub := Rminus;
  d_mul := Rmult;
  d_div := Rdiv
}.

(* ===================================================================== *)
(** * [GeoVector]                                                        *)
(* ===================================================================== *)

Section GeoVector.
Context {double : Type} `{DoubleOps double}.

Record GeoVector := mkGeoVector { gv_x : double; gv_y : double; gv_z : double }.

Definition gv_zeros : GeoVector := mkGeoVector d_zero d_zero d_zero.

(** [v[col]]: component access, [col] in 0..2. *)
Definition gv_at (v : GeoVector) (col : Z) : double :=
  if col =? 0 then gv_x v else if col =? 1 then gv_y v else gv_z v.

(** Modelled from the spec: the [GeoVector] operators of
    [common/vectors.hh], which is not among the sources.  [v * a] scales by
    a number, [v / a] divides by a number, [v + w] adds and [v * w] is the
    scalar product ([dot(v1, v2)] of the specification), all of them
    componentwise. *)
Definition gv_scale (v : GeoVector) (a : double) : GeoVector :=
  mkGeoVector (gv_x v * a)%D (gv_y v * a)%D (gv_z v * a)%D.

Definition gv_over (v : GeoVector) (a : double) : GeoVector :=
  mkGeoVector (gv_x v / a)%D (gv_y v / a)%D (gv_z v / a)%D.

Definition gv_plus (v w : GeoVector) : GeoVector :=
  mkGeoVector (gv_x v + gv_x w)%D (gv_y v + gv_y w)%D (gv_z v + gv_z w)%D.

Definition gv_dot (v w : GeoVector) : double :=
  (gv_x v * gv_x w + gv_y v * gv_y w + gv_z v * gv_z w)%D.
End GeoVector.

Arguments GeoVector double : clear implicits.

(** A dense matrix of Eigen ([Eigen::MatrixXd]): its dimensions and its
    coefficients. *)
Record MatrixXd (double : Type) := mkMatrix {
  m_rows : Z;
  m_cols : Z;
  m_coef : Z -> Z -> double
}.
Arguments mkMatrix {double}.
Arguments m_rows {double}.
Arguments m_cols {double}.
Arguments m_coef {double}.

(** The numerical routines the file calls and does not define: the
    spherical kernels, [acos] of the C library and the partially pivoted LU
    factorisation of Eigen. *)
Class Kernels (double : Type) := {
  SphTriArea : GeoVector double -> GeoVector double -> GeoVector double -> double;
  SphTriCenter : GeoVector double -> GeoVector double -> GeoVector double -> GeoVector double;
  acos : double -> double;
  PartialPivLU : Type;
  lu_empty : PartialPivLU;
  lu_compute : MatrixXd double -> PartialPivLU
}.

(* ===================================================================== *)
(** * Bit masks                                                          *)
(* ===================================================================== *)

(** Modelled from the spec: the mask macros of the geodesic headers, which
    are not among the sources.  [BITS_RAISED(x, bits)] tests that all of
    [bits] are set in [x], [RAISE_BITS] sets them, [LOWER_BITS] clears them. *)
Definition BITS_RAISED (x bits : Z) : bool := Z.land x bits =? bits.
Definition RAISE_BITS (x bits : Z) : Z := Z.lor x bits.
Definition LOWER_BITS (x bits : Z) : Z := Z.land x (Z.lnot bits).

(* ===================================================================== *)
(** * Arrays and loops                                                   *)
(* ===================================================================== *)

(** [a[i] = v] on an array seen as an index function. *)
Definition upd {A : Type} (a : Z -> A) (i : Z) (v : A) : Z -> A :=
  fun k => if k =? i then v else a k.

(** [a[i][j] = v] on a two-dimensional array. *)
Definition upd2 {A : Type} (a : Z -> Z -> A) (i j : Z) (v : A) : Z -> Z -> A :=
  fun k l => if (k =? i) && (l =? j) then v else a k l.

(** [n] iterations of a counting loop that starts at [i]. *)
Fixpoint iterate {S : Type} (n : nat) (i : Z) (body : Z -> S -> S) (s : S) : S :=
  match n with
  | O => s
  | Datatypes.S n' => iterate n' (i + 1) body (body i s)
  end.

(** [for (i = lo; i < hi; i++) body] *)
Definition for_lt {S : Type} (lo hi : Z) (body : Z -> S -> S) (s : S) : S :=
  iterate (Z.to_nat (hi - lo)) lo body s.

(** [for (i = lo; i <= hi; i++) body] *)
Definition for_le {S : Type} (lo hi : Z) (body : Z -> S -> S) (s : S) : S :=
  iterate (Z.to_nat (hi - lo + 1)) lo body s.

(** The C++ remainder [a % b] truncates towards zero. *)
Definition c_rem (a b : Z) : Z := Z.rem a b.

(** Modelled from the spec: [InList(n, list, val)] of the geodesic headers,
    not among the sources: the position of [val] among the first [n] entries
    of [list], and -1 when it is not found. *)
Fixpoint InList_from (n : nat) (i : Z) (l : Z -> Z) (val : Z) : Z :=
  match n with
  | O => -1
  | Datatypes.S n' => if l i =? val then i else InList_from n' (i + 1) l val
  end.

Definition InList (n : Z) (l : Z -> Z) (val : Z) : Z :=
  InList_from (Z.to_nat n) 0 l val.

(* ===================================================================== *)
(** * The block                                                          *)
(* ===================================================================== *)

(** The template parameter [verts_per_face].  The class is instantiated for
    3 and for 4 only (the two explicit instantiations that close the file). *)
Inductive polygon : Type := triangle | quadrilateral.

(** The methods whose invocations are recorded, in the order they happen,
    in the [calls] history of a block. *)
Inductive call : Type :=
| call_GridBlock_SetDimensions
| call_GridBlock_AssociateMesh
| call_MarkStenciledArea
| call_BuildAllStencils
| call_ComputeMoments
| call_ComputeOneMatrix (pface stencil : Z).

Section Block.
Context {double : Type} {ops : DoubleOps double} {kern : Kernels double}.

(** What the methods of the file read from the base class
    [GridBlock<verts_per_face>] and from the global configuration, none of
    which they modify ([face_mask], which they do modify, is in
    [StenciledBlock] below).  The tables and the coordinates are those the
    base class holds once the mesh is associated; of the two methods of the
    base class only the effect on [face_mask] is kept. *)
Record GridBlock := {
  shape : polygon;
  n_faces_withghost : Z;
  n_edges_withghost : Z;
  total_length : Z;
  ghost_width : Z;
  square_fill : Z;
  face_index_sector : Z -> Z -> Z;
  MaxFaceJ : Z * Z -> Z -> Z -> Z;
  MaxVertJ : Z -> Z -> Z;
  edge_mask : Z -> Z;
  fv_local : Z -> Z -> Z;
  ev_local : Z -> Z -> Z;
  ff_local : Z -> Z -> Z;
  block_vert_cart : Z -> GeoVector double;
  drp_ratio : double;
  GEOELM_NEXI : Z;
  GEOELM_STEN : Z;
  (** what the base class methods do to [face_mask] *)
  GridBlock_SetDimensions : (Z -> Z) -> Z -> Z;
  GridBlock_AssociateMesh : (Z -> Z) -> Z -> Z
}.

Definition verts_per_face (g : GridBlock) : Z :=
  match shape g with triangle => 3 | quadrilateral => 4 end.

(** Modelled from the spec: [n_stencils] of [stenciled_block.hh], which is
    not among the sources: one central stencil and two per face side. *)
Definition n_stencils (g : GridBlock) : Z := 2 * verts_per_face g + 1.

(** The storage the block owns, [face_mask] of the base class, and the
    history of calls. *)
Record StenciledBlock := mkBlock {
  face_mask : Z -> Z;
  face_area : Z -> double;
  face_cmass : Z -> GeoVector double;
  edge_length : Z -> double;
  zones_per_stencil : Z -> Z;
  stencil_zonelist : Z -> Z -> option (list Z);
  geom_matr_At : Z -> Z -> MatrixXd double;
  geom_matr_LU : Z -> Z -> PartialPivLU;
  calls : list call
}.

Definition set_face_mask (v : Z -> Z) (b : StenciledBlock) : StenciledBlock :=
  mkBlock v (face_area b) (face_cmass b) (edge_length b) (zones_per_stencil b)
          (stencil_zonelist b) (geom_matr_At b) (geom_matr_LU b) (calls b).
Definition set_face_area (v : Z -> double) (b : StenciledBlock) : StenciledBlock :=
  mkBlock (face_mask b) v (face_cmass b) (edge_length b) (zones_per_stencil b)
          (stencil_zonelist b) (geom_matr_At b) (geom_matr_LU b) (calls b).
Definition set_face_cmass (v : Z -> GeoVector double) (b : StenciledBlock) : StenciledBlock :=
  mkBlock (face_mask b) (face_area b) v (edge_length b) (zones_per_stencil b)
          (stencil_zonelist b) (geom_matr_At b) (geom_matr_LU b) (calls b).
Definition set_edge_length (v : Z -> double) (b : StenciledBlock) : StenciledBlock :=
  mkBlock (face_mask b) (face_area b) (face_cmass b) v (zones_per_stencil b)
          (stencil_zonelist b) (geom_matr_At b) (geom_matr_LU b) (calls b).
Definition set_zones_per_stencil (v : Z -> Z) (b : StenciledBlock) : StenciledBlock :=
  mkBlock (face_mask b) (face_area b) (face_cmass b) (edge_length b) v
          (stencil_zonelist b) (geom_matr_At b) (geom_matr_LU b) (calls b).
Definition set_stencil_zonelist (v : Z -> Z -> option (list Z)) (b : StenciledBlock)
  : StenciledBlock :=
  mkBlock (face_mask b) (face_area b) (face_cmass b) (edge_length b) (zones_per_stencil b)
          v (geom_matr_At b) (geom_matr_LU b) (calls b).
Definition set_geom_matr_At (v : Z -> Z -> MatrixXd double) (b : StenciledBlock)
  : StenciledBlock :=
  mkBlock (face_mask b) (face_area b) (face_cmass b) (edge_length b) (zones_per_stencil b)
          (stencil_zonelist b) v (geom_matr_LU b) (calls b).
Definition set_geom_matr_LU (v : Z -> Z -> PartialPivLU) (b : StenciledBlock)
  : StenciledBlock :=
  mkBlock (face_mask b) (face_area b) (face_cmass b) (edge_length b) (zones_per_stencil b)
          (stencil_zonelist b) (geom_matr_At b) v (calls b).

(** Entering a method appends it to the history. *)
Definition enter (c : call) (b : StenciledBlock) : StenciledBlock :=
  mkBlock (face_mask b) (face_area b) (face_cmass b) (edge_length b) (zones_per_stencil b)
          (stencil_zonelist b) (geom_matr_At b) (geom_matr_LU b) (calls b ++ [c]).

Variable g : GridBlock.

(* ------------------------------------------------------------------- *)
(** ** [ComputeMoments]                                                *)
(* ------------------------------------------------------------------- *)

(** One pass of the loop over the faces.  The two branches on
    [verts_per_face] are the [if] / [else if] of the source. *)
Definition ComputeMoments_face (face : Z) (b : StenciledBlock) : StenciledBlock :=
  if BITS_RAISED (face_mask b face) (GEOELM_NEXI g) then
    let b1 := set_face_area (upd (face_area b) face d_zero) b in
    set_face_cmass (upd (face_cmass b1) face gv_zeros) b1
  else
    let v := fun k => block_vert_cart g (fv_local g face k) in
    let '(area1, area2, cm1, cm2) :=
      match shape g with
      | triangle =>
          (SphTriArea (v 0) (v 1) (v 2), d_zero,
           SphTriCenter (v 0) (v 1) (v 2), gv_zeros)
      | quadrilateral =>
          (SphTriArea (v 0) (v 1) (v 2), SphTriArea (v 2) (v 3) (v 0),
           SphTriCenter (v 0) (v 1) (v 2), SphTriCenter (v 2) (v 3) (v 0))
      end in
    let b1 := set_face_area (upd (face_area b) face (area1 + area2)%D) b in
    set_face_cmass
      (upd (face_cmass b1) face
           (gv_over (gv_plus (gv_scale cm1 area1) (gv_scale cm2 area2))
                    (face_area b1 face))) b1.

(** One pass of the loop over the edges. *)
Definition ComputeMoments_edge (edge : Z) (b : StenciledBlock) : StenciledBlock :=
  if BITS_RAISED (edge_mask g edge) (GEOELM_NEXI g) then
    set_edge_length
      (upd (edge_length b) edge
           (acos (gv_dot (block_vert_cart g (ev_local g edge 0))
                         (block_vert_cart g (ev_local g edge 1))))) b
  else b.

Definition ComputeMoments (b : StenciledBlock) : StenciledBlock :=
  let b := enter call_ComputeMoments b in
  let b := for_lt 0 (n_faces_withghost g) ComputeMoments_face b in
  for_lt 0 (n_edges_withghost g) ComputeMoments_edge b.

(* ------------------------------------------------------------------- *)
(** ** [MarkStenciledArea]                                             *)
(* ------------------------------------------------------------------- *)

Definition raise_STEN (face : Z) (b : StenciledBlock) : StenciledBlock :=
  set_face_mask (upd (face_mask b) face (RAISE_BITS (face_mask b face) (GEOELM_STEN g))) b.

Definition lower_STEN (face : Z) (b : StenciledBlock) : StenciledBlock :=
  set_face_mask (upd (face_mask b) face (LOWER_BITS (face_mask b face) (GEOELM_STEN g))) b.

Definition imax : Z := total_length g - ghost_width g.

(** Mark the interior + one layer of faces *)
Definition mark_base_vert : Z * Z :=
  (square_fill g * (ghost_width g - 1), ghost_width g - 1).

Definition mark_jmax (i : Z) : Z :=
  MaxFaceJ g mark_base_vert (total_length g - square_fill g * ghost_width g + 1) i.

Definition mark_interior (b : StenciledBlock) : StenciledBlock :=
  for_le (square_fill g * ghost_width g) imax
    (fun i b =>
       for_le (square_fill g * (ghost_width g - 1)) (mark_jmax i)
         (fun j b => raise_STEN (face_index_sector g i j) b) b) b.

(** Clip the small triangles at the SE corner. *)
Definition SE_base_vert : Z * Z :=
  (total_length g - ghost_width g - 1, ghost_width g - 1).

Definition clip_SE (b : StenciledBlock) : StenciledBlock :=
  for_le (imax - 1) imax
    (fun i b =>
       for_le (square_fill g * (ghost_width g - 1)) (MaxFaceJ g SE_base_vert 2 i)
         (fun j b => lower_STEN (face_index_sector g i j) b) b) b.

(** Clip the small triangles at the N corner. *)
Definition N_base_vert : Z * Z :=
  (total_length g - ghost_width g - 1,
   MaxVertJ g (total_length g) (total_length g - ghost_width g - 1) - ghost_width g + 1).

Definition clip_N (b : StenciledBlock) : StenciledBlock :=
  for_le (imax - 1) imax
    (fun i b =>
       for_le (MaxFaceJ g N_base_vert 2 (imax - 1)) (MaxFaceJ g N_base_vert 2 i)
         (fun j b => lower_STEN (face_index_sector g i j) b) b) b.

Definition MarkStenciledArea (b : StenciledBlock) : StenciledBlock :=
  let b := enter call_MarkStenciledArea b in
  let b := mark_interior b in
  if verts_per_face g =? 3 then clip_N (clip_SE b) else b.

(* ------------------------------------------------------------------- *)
(** ** [BuildAllStencils]                                              *)
(* ------------------------------------------------------------------- *)

(** The content of a freshly allocated [int] array is indeterminate. *)
Variable fresh_int : Z.

(** [stencil_zonelist[pface][stencil] = new int[len]] *)
Definition zl_alloc (pface stencil len : Z) (b : StenciledBlock) : StenciledBlock :=
  set_stencil_zonelist
    (upd2 (stencil_zonelist b) pface stencil (Some (replicate (Z.to_nat len) fresh_int))) b.

(** [stencil_zonelist[pface][stencil][k] = v] *)
Definition zl_write (pface stencil k v : Z) (b : StenciledBlock) : StenciledBlock :=
  set_stencil_zonelist
    (upd2 (stencil_zonelist b) pface stencil
          ((fun l : list Z => <[Z.to_nat k := v]> l) <$> stencil_zonelist b pface stencil)) b.

(** [stencil_zonelist[pface][stencil][k]] as a value *)
Definition zl_read (b : StenciledBlock) (pface stencil k : Z) : Z :=
  match stencil_zonelist b pface stencil with
  | Some l => default 0 (l !! Z.to_nat k)
  | None => 0
  end.

(** Central *)
Definition central_stencil (pface : Z) (b : StenciledBlock) : StenciledBlock :=
  let vpf := verts_per_face g in
  let b :=
    for_lt 0 vpf
      (fun ic b =>
         let face := ff_local g pface ic in
         let b := zl_write pface 0 (2 * ic) face b in
         zl_write pface 0 (2 * ic + 1) 0 b) b in
  let b := zl_write pface 0 (2 * vpf) pface b in
  let b := zl_write pface 0 (2 * vpf + 1) (-1) b in
  let b := zl_write pface 0 (2 * vpf + 2) pface b in
  zl_write pface 0 (2 * vpf + 3) 1 b.

(** [stencil_zonelist[pface][stencil][k] =
     stencil_zonelist[pface][stencil + verts_per_face][k] = v] *)
Definition zl_write_pair (pface stencil k v : Z) (b : StenciledBlock) : StenciledBlock :=
  zl_write pface stencil k v (zl_write pface (stencil + verts_per_face g) k v b).

(** Directional: one pass of the loop over [stencil] *)
Definition directional_stencil (pface stencil : Z) (b : StenciledBlock) : StenciledBlock :=
  let vpf := verts_per_face g in
  let nface := ff_local g pface (stencil - 1) in
  let b := zl_write_pair pface stencil 0 nface b in
  let b := zl_write_pair pface stencil 1 0 b in
  let ic := InList vpf (ff_local g nface) pface in
  let face := ff_local g nface (c_rem (ic + 1) vpf) in
  let b := zl_write_pair pface stencil 2 face b in
  let b := zl_write_pair pface stencil 3 0 b in
  let face := ff_local g nface (c_rem (ic + 4 - square_fill g) vpf) in
  let b := zl_write_pair pface stencil 4 face b in
  let b := zl_write_pair pface stencil 5 0 b in
  let b := zl_write_pair pface stencil 6 nface b in
  let b := zl_write pface stencil 7 (-1) b in
  zl_write pface (stencil + vpf) 7 1 b.

(** The zone lists of one principal face *)
Definition stencils_of_face (pface : Z) (b : StenciledBlock) : StenciledBlock :=
  let b := central_stencil pface b in
  for_le 1 (verts_per_face g) (directional_stencil pface) b.

Definition BuildAllStencils (b : StenciledBlock) : StenciledBlock :=
  let b := enter call_BuildAllStencils b in
  let b := set_zones_per_stencil (upd (zones_per_stencil b) 0 (verts_per_face g + 2)) b in
  let b :=
    for_lt 1 (n_stencils g)
      (fun stencil b => set_zones_per_stencil (upd (zones_per_stencil b) stencil 4) b) b in
  (* Storage for stencilsets *)
  let b := set_stencil_zonelist (fun _ _ => None) b in
  let b :=
    for_lt 0 (n_faces_withghost g)
      (fun pface b =>
         if BITS_RAISED (face_mask b pface) (GEOELM_STEN g) then
           for_lt 0 (n_stencils g)
             (fun stencil b => zl_alloc pface stencil (2 * zones_per_stencil b stencil) b) b
         else b) b in
  (* Calculate the zone lists *)
  for_lt 0 (n_faces_withghost g)
    (fun pface b =>
       if BITS_RAISED (face_mask b pface) (GEOELM_STEN g) then stencils_of_face pface b
       else b) b.

(* ------------------------------------------------------------------- *)
(** ** [ComputeOneMatrix]                                              *)
(* ------------------------------------------------------------------- *)

(** [a(row, col) = v] *)
Definition m_set (a : MatrixXd double) (row col : Z) (v : double) : MatrixXd double :=
  mkMatrix (m_rows a) (m_cols a) (upd2 (m_coef a) row col v).

(** [a.resize(rows, cols)]: the coefficients are indeterminate afterwards;
    they are all assigned before they are read. *)
Definition m_resize (rows cols : Z) : MatrixXd double :=
  mkMatrix rows cols (fun _ _ => d_zero).

Definition m_transpose (a : MatrixXd double) : MatrixXd double :=
  mkMatrix (m_cols a) (m_rows a) (fun i j => m_coef a j i).

Definition m_mul (a c : MatrixXd double) : MatrixXd double :=
  mkMatrix (m_rows a) (m_cols c)
    (fun i j =>
       for_lt 0 (m_cols a) (fun k acc => (acc + m_coef a i k * m_coef c k j)%D) d_zero).

(** The [switch] on the plane of a zone *)
Definition rp_factor (plane : Z) : double :=
  if plane =? -1 then (d_one + drp_ratio g)%D
  else if plane =? 1 then (d_one / (d_one + drp_ratio g))%D
  else d_one.

(** One row of the geometry matrix *)
Definition geom_row (b : StenciledBlock) (pface stencil row : Z) (a : MatrixXd double)
  : MatrixXd double :=
  let face := zl_read b pface stencil (2 * row) in
  let rp := rp_factor (zl_read b pface stencil (2 * row + 1)) in
  for_lt 0 3
    (fun col a =>
       m_set a row col
         (rp * gv_at (face_cmass b face) col - gv_at (face_cmass b pface) col)%D) a.

(** Generate the geometry matrix.  Each row corresponds to one zone in the
    stencil. *)
Definition geom_matr_A (b : StenciledBlock) (pface stencil : Z) : MatrixXd double :=
  for_lt 0 (zones_per_stencil b stencil) (geom_row b pface stencil)
    (m_resize (zones_per_stencil b stencil) 3).

Definition ComputeOneMatrix (pface stencil : Z) (b : StenciledBlock) : StenciledBlock :=
  let b := enter (call_ComputeOneMatrix pface stencil) b in
  let A := geom_matr_A b pface stencil in
  (* Compute AT, ATA, and the LU decomposition *)
  let b := set_geom_matr_At (upd2 (geom_matr_At b) pface stencil (m_transpose A)) b in
  let AtA := m_mul (geom_matr_At b pface stencil) A in
  set_geom_matr_LU (upd2 (geom_matr_LU b) pface stencil (lu_compute AtA)) b.

(* ------------------------------------------------------------------- *)
(** ** [SetDimensions], the constructor and [AssociateMesh]            *)
(* ------------------------------------------------------------------- *)

(** The three arrays allocated first have indeterminate contents: the
    functions of [b] stand for them as they are. *)
Definition SetDimensions (construct : bool) (b : StenciledBlock) : StenciledBlock :=
  let b :=
    if construct then b
    else set_face_mask (GridBlock_SetDimensions g (face_mask b))
                       (enter call_GridBlock_SetDimensions b) in
  let b := MarkStenciledArea b in
  let b := set_stencil_zonelist (fun _ _ => None) b in
  let b := set_geom_matr_At (fun _ _ => m_resize 0 0) b in
  set_geom_matr_LU (fun _ _ => lu_empty) b.

(** The constructor, after the constructor of the base class has run *)
Definition StenciledBlock_ctor (b : StenciledBlock) : StenciledBlock :=
  SetDimensions true b.

Definition AssociateMesh (b : StenciledBlock) : StenciledBlock :=
  let b :=
    set_face_mask (GridBlock_AssociateMesh g (face_mask b))
                  (enter call_GridBlock_AssociateMesh b) in
  let b := BuildAllStencils b in
  let b := ComputeMoments b in
  for_lt 0 (n_faces_withghost g)
    (fun pface b =>
       if BITS_RAISED (face_mask b pface) (GEOELM_STEN g) then
         for_lt 0 (n_stencils g) (fun stencil b => ComputeOneMatrix pface stencil b) b
       else b) b.

End Block.

Arguments GridBlock double : clear implicits.
Arguments StenciledBlock double {kern}.

(* ===================================================================== *)
(** * Auxiliary definitions for the statements                           *)
(* ===================================================================== *)

(** The block [g] with other vertex tables and vertex coordinates. *)
Definition with_vertices {double : Type} (g : GridBlock double)
    (fv : Z -> Z -> Z) (vc : Z -> GeoVector double) : GridBlock double :=
  {| shape := shape g;
     n_faces_withghost := n_faces_withghost g;
     n_edges_withghost := n_edges_withghost g;
     total_length := total_length g;
     ghost_width := ghost_width g;
     square_fill := square_fill g;
     face_index_sector := face_index_sector g;
     MaxFaceJ := MaxFaceJ g;
     MaxVertJ := MaxVertJ g;
     edge_mask := edge_mask g;
     fv_local := fv;
     ev_local := ev_local g;
     ff_local := ff_local g;
     block_vert_cart := vc;
     drp_ratio := drp_ratio g;
     GEOELM_NEXI := GEOELM_NEXI g;
     GEOELM_STEN := GEOELM_STEN g;
     GridBlock_SetDimensions := GridBlock_SetDimensions g;
     GridBlock_AssociateMesh := GridBlock_AssociateMesh g |}.

(** The vertices of a face and the two spherical triangles [ComputeMoments]
    measures on it: vertices 0-1-2, and vertices 2-3-0 of a quadrilateral
    (nothing on a triangle). *)
Section FaceTriangles.
Context {double : Type} {ops : DoubleOps double} {kern : Kernels double}.
Variable g : GridBlock double.

Definition face_vertex (face k : Z) : GeoVector double :=
  block_vert_cart g (fv_local g face k).

Definition sub_area1 (face : Z) : double :=
  SphTriArea (face_vertex face 0) (face_vertex face 1) (face_vertex face 2).

Definition sub_area2 (face : Z) : double :=
  match shape g with
  | triangle => d_zero
  | quadrilateral => SphTriArea (face_vertex face 2) (face_vertex face 3) (face_vertex face 0)
  end.

Definition sub_center1 (face : Z) : GeoVector double :=
  SphTriCenter (face_vertex face 0) (face_vertex face 1) (face_vertex face 2).

Definition sub_center2 (face : Z) : GeoVector double :=
  match shape g with
  | triangle => gv_zeros
  | quadrilateral => SphTriCenter (face_vertex face 2) (face_vertex face 3) (face_vertex face 0)
  end.

(** The arc between the two vertices of an edge *)
Definition edge_arc (edge : Z) : double :=
  acos (gv_dot (block_vert_cart g (ev_local g edge 0)) (block_vert_cart g (ev_local g edge 1))).
End FaceTriangles.

(* ===================================================================== *)
(** * Kernels in exact arithmetic                                        *)
(* ===================================================================== *)

Definition gv_cross (v w : GeoVector R) : GeoVector R :=
  mkGeoVector (gv_y v * gv_z w - gv_z v * gv_y w)%R
              (gv_z v * gv_x w - gv_x v * gv_z w)%R
              (gv_x v * gv_y w - gv_y v * gv_x w)%R.

(** Modelled from the spec: [SphTriArea], which is not among the sources,
    "the spherical-triangle area via a standard spherical-excess formula";
    here the excess [E] of the triangle of three unit vectors in the form
    [tan (E / 2) = |v1 . (v2 x v3)| / (1 + v1.v2 + v2.v3 + v3.v1)]. *)
Definition SphTriArea_excess (v1 v2 v3 : GeoVector R) : R :=
  (2 * atan (Rabs (gv_dot v1 (gv_cross v2 v3))
             / (1 + gv_dot v1 v2 + gv_dot v2 v3 + gv_dot v3 v1)))%R.

(** Modelled from the spec: [SphTriCenter], which is not among the sources,
    the centroid "as a normalized or unnormalized combination" that "need not
    lie on the sphere"; here the mean of the three vertices. *)
Definition SphTriCenter_mean (v1 v2 v3 : GeoVector R) : GeoVector R :=
  gv_over (gv_plus (gv_plus v1 v2) v3) 3%R.

(** The factorisation is represented by the matrix it factorises. *)
#[export] Instance exact_kernels : Kernels R := {
  SphTriArea := SphTriArea_excess;
  SphTriCenter := SphTriCenter_mean;
  acos := Ratan.acos;
  PartialPivLU := MatrixXd R;
  lu_empty := mkMatrix 0 0 (fun _ _ => 0%R);
  lu_compute := fun m => m
}.

(* ===================================================================== *)
(** * Small blocks on which the statements are evaluated                 *)
(* ===================================================================== *)

(** A triangular block of ten faces around face 0, whose neighbours are the
    faces 1, 2 and 3.  Face 9 does not exist.  Face 0 spans an octant of the
    sphere; the three vertices of face 1 coincide.  Edge 0 exists, edge 1
    does not.  The mask bits are examples. *)
Definition tri_block {double : Type} (vc : Z -> GeoVector double) (r : double)
  : GridBlock double :=
  {| shape := triangle;
     n_faces_withghost := 10;
     n_edges_withghost := 2;
     total_length := 6;
     ghost_width := 1;
     square_fill := 2;
     face_index_sector := fun i j => 2 * i + j - 4;
     MaxFaceJ := fun bv len i => i - fst bv + snd bv;
     MaxVertJ := fun len i => i;
     edge_mask := fun edge => match edge with 1 => 8 | _ => 0 end;
     fv_local := fun face k =>
       match face, k with
       | 0, 0 => 0 | 0, 1 => 1 | 0, 2 => 2
       | 1, 0 => 3 | 1, 1 => 4 | 1, 2 => 5
       | _, _ => 0
       end;
     ev_local := fun edge k =>
       match edge, k with
       | 0, 0 => 0 | 0, 1 => 1
       | 1, 0 => 1 | 1, 1 => 2
       | _, _ => 0
       end;
     ff_local := fun face k =>
       match face, k with
       | 0, 0 => 1 | 0, 1 => 2 | 0, 2 => 3
       | 1, 0 => 0 | 1, 1 => 4 | 1, 2 => 5
       | 2, 0 => 6 | 2, 1 => 0 | 2, 2 => 7
       | 3, 0 => 8 | 3, 1 => 9 | 3, 2 => 0
       | _, _ => -1
       end;
     block_vert_cart := vc;
     drp_ratio := r;
     GEOELM_NEXI := 8;
     GEOELM_STEN := 16;
     GridBlock_SetDimensions := fun m => m;
     GridBlock_AssociateMesh := fun m => m |}.

(** A quadrilateral block of one face, with the vertices 0, 1, 2 and 3. *)
Definition quad_block {double : Type} (vc : Z -> GeoVector double) (r : double)
  : GridBlock double :=
  {| shape := quadrilateral;
     n_faces_withghost := 1;
     n_edges_withghost := 0;
     total_length := 3;
     ghost_width := 1;
     square_fill := 1;
     face_index_sector := fun i j => 0;
     MaxFaceJ := fun bv len i => 0;
     MaxVertJ := fun len i => i;
     edge_mask := fun edge => 0;
     fv_local := fun face k => k;
     ev_local := fun edge k => k;
     ff_local := fun face k => -1;
     block_vert_cart := vc;
     drp_ratio := r;
     GEOELM_NEXI := 8;
     GEOELM_STEN := 16;
     GridBlock_SetDimensions := fun m => m;
     GridBlock_AssociateMesh := fun m => m |}.

(** Unit vectors along the axes for the vertices 0, 1 and 2; every other
    vertex sits on the first axis. *)
Definition axes : Z -> GeoVector R :=
  fun k =>
    match k with
    | 1 => mkGeoVector 0%R 1%R 0%R
    | 2 => mkGeoVector 0%R 0%R 1%R
    | _ => mkGeoVector 1%R 0%R 0%R
    end.

Definition tri_exact : GridBlock R := tri_block axes (/ 2)%R.
Definition quad_exact : GridBlock R := quad_block axes (/ 2)%R.

(** The triangular block in binary64, with [drp_ratio] 17/32. *)
Definition tri_binary64 : GridBlock float :=
  tri_block (fun _ => mkGeoVector 1%float 0%float 0%float) 0.53125%float.

(** Storage before any method has run: the given mask, the arrays filled
    with [stale], no zone list, empty history. *)
Definition raw_storage {double : Type} {kern : Kernels double}
    (mask : Z -> Z) (stale : double) : StenciledBlock double :=
  {| face_mask := mask;
     face_area := fun _ => stale;
     face_cmass := fun _ => mkGeoVector stale stale stale;
     edge_length := fun _ => stale;
     zones_per_stencil := fun _ => 0;
     stencil_zonelist := fun _ _ => None;
     geom_matr_At := fun _ _ => mkMatrix 0 0 (fun _ _ => stale);
     geom_matr_LU := fun _ _ => lu_empty;
     calls := [] |}.

(** Face 0 is in the stenciled area, face 9 does not exist. *)
Definition tri_mask : Z -> Z :=
  fun face => match face with 0 => 16 | 9 => 8 | _ => 0 end.

Definition tri_storage : StenciledBlock R := raw_storage tri_mask 7%R.
Definition quad_storage : StenciledBlock R := raw_storage (fun _ => 0) 7%R.

(** ** The index regions of [MarkStenciledArea] *)

(** [p] holds somewhere among [n] consecutive integers from [i] on. *)
Fixpoint any_from (n : nat) (i : Z) (p : Z -> bool) : bool :=
  match n with
  | O => false
  | Datatypes.S n' => p i || any_from n' (i + 1) p
  end.

(** [p] holds somewhere in [lo .. hi]. *)
Definition any_le (lo hi : Z) (p : Z -> bool) : bool :=
  any_from (Z.to_nat (hi - lo + 1)) lo p.

Section Regions.
Context {double : Type}.
Variable g : GridBlock double.

(** [face] is one of the faces the marking pass visits. *)
Definition in_marked_region (face : Z) : bool :=
  any_le (square_fill g * ghost_width g) (imax g)
    (fun i =>
       any_le (square_fill g * (ghost_width g - 1)) (mark_jmax g i)
         (fun j => face_index_sector g i j =? face)).

(** [face] is one of the faces of the wedge at the SE corner. *)
Definition in_SE_wedge (face : Z) : bool :=
  any_le (imax g - 1) (imax g)
    (fun i =>
       any_le (square_fill g * (ghost_width g - 1)) (MaxFaceJ g (SE_base_vert g) 2 i)
         (fun j => face_index_sector g i j =? face)).

(** [face] is one of the faces of the wedge at the N corner. *)
Definition in_N_wedge (face : Z) : bool :=
  any_le (imax g - 1) (imax g)
    (fun i =>
       any_le (MaxFaceJ g (N_base_vert g) 2 (imax g - 1)) (MaxFaceJ g (N_base_vert g) 2 i)
         (fun j => face_index_sector g i j =? face)).
End Regions.

(** ** The zone lists, as lists *)

Section ZoneLists.
Context {double : Type}.
Variable g : GridBlock double.

(** The face across side [s] (counted from 0) of [pface] *)
Definition across (pface s : Z) : Z := ff_local g pface s.

(** The position of [pface] in the neighbour list of the face across side [s] *)
Definition position_across (pface s : Z) : Z :=
  InList (verts_per_face g) (ff_local g (across pface s)) pface.

(** The two neighbours of the face across side [s] that the directional
    stencils take *)
Definition flank1 (pface s : Z) : Z :=
  ff_local g (across pface s) (c_rem (position_across pface s + 1) (verts_per_face g)).

Definition flank2 (pface s : Z) : Z :=
  ff_local g (across pface s)
    (c_rem (position_across pface s + 4 - square_fill g) (verts_per_face g)).

(** The neighbours of [pface], from side [ic] on, each followed by plane 0 *)
Fixpoint neighbour_zones (n : nat) (pface ic : Z) : list Z :=
  match n with
  | O => []
  | Datatypes.S n' => ff_local g pface ic :: 0 :: neighbour_zones n' pface (ic + 1)
  end.

Definition central_zones (pface : Z) : list Z :=
  neighbour_zones (Z.to_nat (verts_per_face g)) pface 0 ++ [pface; -1; pface; 1].

Definition directional_zones (pface s plane : Z) : list Z :=
  [across pface s; 0; flank1 pface s; 0; flank2 pface s; 0; across pface s; plane].

(** The zone list of stencil [stencil] of [pface] *)
Definition zones_of (pface stencil : Z) : list Z :=
  if stencil =? 0 then central_zones pface
  else if stencil <=? verts_per_face g then directional_zones pface (stencil - 1) (-1)
  else directional_zones pface (stencil - verts_per_face g - 1) 1.

(** Zone [k] of a zone list: its face and its plane *)
Definition zone (l : list Z) (k : nat) : option (Z * Z) :=
  match l !! (2 * k)%nat, l !! (2 * k + 1)%nat with
  | Some face, Some plane => Some (face, plane)
  | _, _ => None
  end.
End ZoneLists.

(** [pface] is in the stenciled area: [GEOELM_STEN] is raised in its mask. *)
Definition eligible {double : Type} {kern : Kernels double}
    (g : GridBlock double) (b : StenciledBlock double) (pface : Z) : Prop :=
  BITS_RAISED (face_mask b pface) (GEOELM_STEN g) = true.

(** The second flanking neighbour as the specification words it: the
    neighbour of the face across side [s] at the offset
    [(p + verts_per_face - (verts_per_face == 4 ? 1 : 0)) mod verts_per_face]. *)
Definition flank2_as_specified {double : Type} (g : GridBlock double) (pface s : Z) : Z :=
  ff_local g (across g pface s)
    (c_rem (position_across g pface s + verts_per_face g
            - (if verts_per_face g =? 4 then 1 else 0))
           (verts_per_face g)).

(** ** Histories of calls *)

Definition is_matrix_call (c : call) : bool :=
  match c with call_ComputeOneMatrix _ _ => true | _ => false end.

Definition call_eqb (c d : call) : bool :=
  match c, d with
  | call_GridBlock_SetDimensions, call_GridBlock_SetDimensions => true
  | call_GridBlock_AssociateMesh, call_GridBlock_AssociateMesh => true
  | call_MarkStenciledArea, call_MarkStenciledArea => true
  | call_BuildAllStencils, call_BuildAllStencils => true
  | call_ComputeMoments, call_ComputeMoments => true
  | call_ComputeOneMatrix p s, call_ComputeOneMatrix q t => (p =? q) && (s =? t)
  | _, _ => false
  end.

(** The position of the first occurrence of [c] in a history *)
Fixpoint first_call (c : call) (l : list call) : option nat :=
  match l with
  | [] => None
  | d :: l' => if call_eqb c d then Some O else option_map Datatypes.S (first_call c l')
  end.

(** [c] is called, and [d] is not called before [c] has been called. *)
Definition called_before (c d : call) (l : list call) : bool :=
  match first_call c l, first_call d l with
  | Some i, Some j => (i <? j)%nat
  | Some _, None => true
  | None, _ => false
  end.

(** What a block keeps through the matrix builds: [b'] has the masks, the
    zone counts, the zone lists and the centres of mass of [b]. *)
Definition same_geometry {double : Type} {kern : Kernels double}
    (b b' : StenciledBlock double) : Prop :=
  face_mask b' = face_mask b /\
  zones_per_stencil b' = zones_per_stencil b /\
  stencil_zonelist b' = stencil_zonelist b /\
  face_cmass b' = face_cmass b.

(* ===================================================================== *)
(** * [FreeStorage] and [DrawStencil]                                    *)
(* ===================================================================== *)

(** The type [int] has 32 bits: its values are [INT_MIN .. INT_MAX]. *)
Definition INT_MIN : Z := -2147483648.
Definition INT_MAX : Z := 2147483647.

(** [x + y] on [int]: the sum when it is a value of the type; a sum out of
    range wraps around modulo [2 ^ 32], as the two's complement addition of
    the machine does. *)
Definition int_add (x y : Z) : Z :=
  (x + y - INT_MIN) mod 4294967296 + INT_MIN.

Section OtherMethods.
Context {double : Type} {kern : Kernels double}.
Variable g : GridBlock double.

(** Free up stencils: the loop of [FreeStorage] (and so of the destructor)
    over the zone lists, as the slots [(pface, stencil)] whose pointer it
    hands to [delete[]], in the order it does. *)
Definition FreeStorage_deletes (b : StenciledBlock double) : list (Z * Z) :=
  for_lt 0 (n_faces_withghost g)
    (fun pface freed =>
       if BITS_RAISED (face_mask b pface) (GEOELM_STEN g) then
         for_lt 0 (n_stencils g) (fun stencil freed => freed ++ [(pface, stencil)]) freed
       else freed) [].

(** [DrawStencil] (compiled under [GEO_DEBUG]): the calls of
    [GridBlock::DrawZone] it makes, each with its shell [k1], its face and
    the two angles.  The shell index [k] is an [int] of the caller and
    [k1 = k + plane] is an addition of [int]. *)
Definition DrawStencil (b : StenciledBlock double) (k pface stencil : Z)
    (rot_z rot_x : double) : list (Z * Z * double * double) :=
  for_lt 0 (zones_per_stencil b stencil)
    (fun row drawn =>
       let k1 := int_add k (zl_read b pface stencil (2 * row + 1)) in
       let face := zl_read b pface stencil (2 * row) in
       drawn ++ [(k1, face, rot_z, rot_x)]) [].
End OtherMethods.

(** ** More vocabulary for the statements *)

(** The slot [(pface, stencil)] is one for which [BuildAllStencils] allocates
    a zone list and [AssociateMesh] builds a matrix. *)
Definition stencil_slot {double : Type} (g : GridBlock double) (mask : Z -> Z)
    (pface stencil : Z) : bool :=
  (0 <=? pface) && (pface <? n_faces_withghost g)
  && BITS_RAISED (mask pface) (GEOELM_STEN g)
  && (0 <=? stencil) && (stencil <? n_stencils g).

(** The faces from which [MarkStenciledArea] removes the mark. *)
Definition in_clipped_wedges {double : Type} (g : GridBlock double) (face : Z) : bool :=
  (verts_per_face g =? 3) && (in_SE_wedge g face || in_N_wedge g face).

(** The normal-equations matrix [ComputeOneMatrix] hands to the LU
    factorisation. *)
Definition geom_matr_AtA {double : Type} {ops : DoubleOps double} {kern : Kernels double}
    (g : GridBlock double) (b : StenciledBlock double) (pface stencil : Z)
  : MatrixXd double :=
  m_mul (m_transpose (geom_matr_A g b pface stencil)) (geom_matr_A g b pface stencil).

(* ===================================================================== *)
(** * Properties                                                         *)
(* ===================================================================== *)

(** ** Loops *)

Lemma iterate_inv {S : Type} (P : Z -> S -> Prop) (body : Z -> S -> S) :
  forall (n : nat) (lo : Z) (s : S),
    P lo s ->
    (forall i s', lo <= i < lo + Z.of_nat n -> P i s' -> P (i + 1) (body i s')) ->
    P (lo + Z.of_nat n) (iterate n lo body s).
Proof.
  induction n as [|n IH]; intros lo s H0 Hstep.
  - simpl. rewrite Z.add_0_r. exact H0.
  - cbn [iterate].
    assert (lo + Z.of_nat (Datatypes.S n) = (lo + 1) + Z.of_nat n) as -> by lia.
    apply IH.
    + apply Hstep; [lia | exact H0].
    + intros i s' Hi HP. apply Hstep; [lia | exact HP].
Qed.

Lemma for_lt_inv {S : Type} (P : Z -> S -> Prop) (body : Z -> S -> S) (lo hi : Z) (s : S) :
  lo <= hi ->
  P lo s ->
  (forall i s', lo <= i < hi -> P i s' -> P (i + 1) (body i s')) ->
  P hi (for_lt lo hi body s).
Proof.
  intros Hle H0 Hstep. unfold for_lt.
  assert (hi = lo + Z.of_nat (Z.to_nat (hi - lo))) as Hhi by lia.
  rewrite Hhi at 1.
  apply iterate_inv; [exact H0 |].
  intros i s' Hi. apply Hstep. lia.
Qed.

(** A loop leaves alone whatever each of its passes leaves alone. *)
Lemma iterate_frame {S A : Type} (f : S -> A) (body : Z -> S -> S) :
  (forall i s, f (body i s) = f s) ->
  forall n lo s, f (iterate n lo body s) = f s.
Proof.
  intros Hb. induction n as [|n IH]; intros lo s; [reflexivity |].
  cbn [iterate]. now rewrite IH, Hb.
Qed.

Lemma for_lt_frame {S A : Type} (f : S -> A) (body : Z -> S -> S) (lo hi : Z) (s : S) :
  (forall i s', f (body i s') = f s') -> f (for_lt lo hi body s) = f s.
Proof. intros Hb. apply iterate_frame, Hb. Qed.

Lemma for_le_frame {S A : Type} (f : S -> A) (body : Z -> S -> S) (lo hi : Z) (s : S) :
  (forall i s', f (body i s') = f s') -> f (for_le lo hi body s) = f s.
Proof. intros Hb. apply iterate_frame, Hb. Qed.

Lemma for_lt_empty {S : Type} (body : Z -> S -> S) (lo hi : Z) (s : S) :
  hi <= lo -> for_lt lo hi body s = s.
Proof. intros Hle. unfold for_lt. now assert (Z.to_nat (hi - lo) = 0%nat) as -> by lia. Qed.

Lemma upd_same {A : Type} (a : Z -> A) (i : Z) (v : A) : upd a i v i = v.
Proof. unfold upd. now rewrite Z.eqb_refl. Qed.

Lemma upd_other {A : Type} (a : Z -> A) (i k : Z) (v : A) : k <> i -> upd a i v k = a k.
Proof. intros Hne. unfold upd. now destruct (Z.eqb_spec k i). Qed.

Lemma upd2_same {A : Type} (a : Z -> Z -> A) (i j : Z) (v : A) : upd2 a i j v i j = v.
Proof. unfold upd2. now rewrite !Z.eqb_refl. Qed.

Lemma upd2_other {A : Type} (a : Z -> Z -> A) (i j k l : Z) (v : A) :
  k <> i \/ l <> j -> upd2 a i j v k l = a k l.
Proof.
  intros Hne. unfold upd2.
  destruct (Z.eqb_spec k i), (Z.eqb_spec l j); simpl; try reflexivity. lia.
Qed.

(** ** [ComputeMoments] *)

Section Moments.
Context {double : Type} {ops : DoubleOps double} {kern : Kernels double}.
Variable g : GridBlock double.

Lemma ComputeMoments_face_mask (face : Z) (b : StenciledBlock double) :
  face_mask (ComputeMoments_face g face b) = face_mask b.
Proof.
  unfold ComputeMoments_face.
  destruct (BITS_RAISED _ _); [reflexivity |].
  destruct (shape g); reflexivity.
Qed.

Lemma ComputeMoments_face_other (face k : Z) (b : StenciledBlock double) :
  k <> face ->
  face_area (ComputeMoments_face g face b) k = face_area b k /\
  face_cmass (ComputeMoments_face g face b) k = face_cmass b k.
Proof.
  intros Hne. unfold ComputeMoments_face.
  destruct (BITS_RAISED _ _); [| destruct (shape g)]; cbn; now rewrite !upd_other.
Qed.

(** What a pass writes at its own face is a function of the mask. *)
Lemma ComputeMoments_face_self (face : Z) (b b' : StenciledBlock double) :
  face_mask b = face_mask b' ->
  face_area (ComputeMoments_face g face b) face
  = face_area (ComputeMoments_face g face b') face /\
  face_cmass (ComputeMoments_face g face b) face
  = face_cmass (ComputeMoments_face g face b') face.
Proof.
  intros Hm. unfold ComputeMoments_face. rewrite Hm.
  destruct (BITS_RAISED _ _); [| destruct (shape g)]; cbn; now rewrite !upd_same.
Qed.

Lemma ComputeMoments_edge_faces (edge : Z) (b : StenciledBlock double) :
  face_area (ComputeMoments_edge g edge b) = face_area b /\
  face_cmass (ComputeMoments_edge g edge b) = face_cmass b /\
  face_mask (ComputeMoments_edge g edge b) = face_mask b.
Proof. unfold ComputeMoments_edge. now destruct (BITS_RAISED _ _). Qed.

(** After the loop over the faces, every face of the block holds what its
    own pass computes. *)
Lemma ComputeMoments_face_loop (b : StenciledBlock double) (hi : Z) :
  0 <= hi ->
  let b' := for_lt 0 hi (ComputeMoments_face g) b in
  face_mask b' = face_mask b /\
  (forall face, 0 <= face < hi ->
     face_area b' face = face_area (ComputeMoments_face g face b) face /\
     face_cmass b' face = face_cmass (ComputeMoments_face g face b) face) /\
  (forall face, hi <= face \/ face < 0 ->
     face_area b' face = face_area b face /\ face_cmass b' face = face_cmass b face).
Proof.
  intros Hhi.
  apply (for_lt_inv
    (fun i s =>
       face_mask s = face_mask b /\
       (forall face, 0 <= face < i ->
          face_area s face = face_area (ComputeMoments_face g face b) face /\
          face_cmass s face = face_cmass (ComputeMoments_face g face b) face) /\
       (forall face, i <= face \/ face < 0 ->
          face_area s face = face_area b face /\ face_cmass s face = face_cmass b face)));
    [exact Hhi | |].
  - split; [reflexivity |]. split; intros face Hf; [lia | now split].
  - intros i s Hi (Hm & Hdone & Hrest).
    split; [now rewrite ComputeMoments_face_mask |].
    split; intros face Hf.
    + destruct (Z.eq_dec face i) as [-> | Hne].
      * apply (ComputeMoments_face_self i s b Hm).
      * destruct (ComputeMoments_face_other i face s Hne) as [-> ->].
        apply Hdone. lia.
    + destruct (ComputeMoments_face_other i face s ltac:(lia)) as [-> ->].
      apply Hrest. lia.
Qed.

End Moments.

Section MomentsResults.
Context {double : Type} {ops : DoubleOps double} {kern : Kernels double}.

(** What [ComputeMoments] leaves at a face of the block is what the pass of
    that face computes from the initial state. *)
Lemma ComputeMoments_at_face (g : GridBlock double) (b : StenciledBlock double) (face : Z) :
  0 <= face < n_faces_withghost g ->
  face_area (ComputeMoments g b) face = face_area (ComputeMoments_face g face b) face /\
  face_cmass (ComputeMoments g b) face = face_cmass (ComputeMoments_face g face b) face.
Proof.
  intros Hf. unfold ComputeMoments.
  set (b1 := for_lt 0 (n_faces_withghost g) (ComputeMoments_face g)
                    (enter call_ComputeMoments b)).
  assert (face_area (for_lt 0 (n_edges_withghost g) (ComputeMoments_edge g) b1) = face_area b1)
    as -> by (apply for_lt_frame; intros; apply ComputeMoments_edge_faces).
  assert (face_cmass (for_lt 0 (n_edges_withghost g) (ComputeMoments_edge g) b1) = face_cmass b1)
    as -> by (apply for_lt_frame; intros; apply ComputeMoments_edge_faces).
  destruct (ComputeMoments_face_loop g (enter call_ComputeMoments b) (n_faces_withghost g)
              ltac:(lia)) as (_ & Hin & _).
  destruct (Hin face Hf) as [Ha Hc]. fold b1 in Ha, Hc. rewrite Ha, Hc.
  apply ComputeMoments_face_self. reflexivity.
Qed.

(** C7.  For a face of the block on which [GEOELM_NEXI] is raised (the face
    does not exist), [ComputeMoments] stores the area 0 and the zero vector as
    centre of mass.  [ComputeMoments] is a total function, with no error
    result, and the stored values are the same whatever the vertex table
    [fv] and the vertex coordinates [vc] of the block are. *)
Theorem C7_nonexistent_face_defaults
    (g : GridBlock double) (b : StenciledBlock double) (face : Z) :
  0 <= face < n_faces_withghost g ->
  BITS_RAISED (face_mask b face) (GEOELM_NEXI g) = true ->
  forall (fv : Z -> Z -> Z) (vc : Z -> GeoVector double),
    face_area (ComputeMoments (with_vertices g fv vc) b) face = d_zero /\
    face_cmass (ComputeMoments (with_vertices g fv vc) b) face = gv_zeros.
Proof.
  intros Hf Hn fv vc.
  destruct (ComputeMoments_at_face (with_vertices g fv vc) b face Hf) as [-> ->].
  unfold ComputeMoments_face. cbn [GEOELM_NEXI with_vertices].
  rewrite Hn. cbn. now rewrite !upd_same.
Qed.

(** The value the pass of an existing face stores. *)
Lemma ComputeMoments_existing_face
    (g : GridBlock double) (b : StenciledBlock double) (face : Z) :
  0 <= face < n_faces_withghost g ->
  BITS_RAISED (face_mask b face) (GEOELM_NEXI g) = false ->
  face_area (ComputeMoments g b) face = (sub_area1 g face + sub_area2 g face)%D /\
  face_cmass (ComputeMoments g b) face
  = gv_over (gv_plus (gv_scale (sub_center1 g face) (sub_area1 g face))
                     (gv_scale (sub_center2 g face) (sub_area2 g face)))
            (sub_area1 g face + sub_area2 g face)%D.
Proof.
  intros Hf Hn.
  destruct (ComputeMoments_at_face g b face Hf) as [-> ->].
  unfold ComputeMoments_face, sub_area1, sub_area2, sub_center1, sub_center2, face_vertex.
  rewrite Hn. destruct (shape g); cbn; now rewrite !upd_same.
Qed.

(** C8.  On a quadrilateral block ([verts_per_face] is 4), the area stored
    for an existing face is the sum of the areas of the spherical triangles
    on its vertices 0-1-2 and 2-3-0, and the centre of mass stored is the
    mean of the centroids of the two triangles weighted by their areas. *)
Theorem C8_quad_area_and_center
    (g : GridBlock double) (b : StenciledBlock double) (face : Z) :
  verts_per_face g = 4 ->
  0 <= face < n_faces_withghost g ->
  BITS_RAISED (face_mask b face) (GEOELM_NEXI g) = false ->
  let v := face_vertex g face in
  let area1 := SphTriArea (v 0) (v 1) (v 2) in
  let area2 := SphTriArea (v 2) (v 3) (v 0) in
  let cm1 := SphTriCenter (v 0) (v 1) (v 2) in
  let cm2 := SphTriCenter (v 2) (v 3) (v 0) in
  face_area (ComputeMoments g b) face = (area1 + area2)%D /\
  face_cmass (ComputeMoments g b) face
  = gv_over (gv_plus (gv_scale cm1 area1) (gv_scale cm2 area2)) (area1 + area2)%D.
Proof.
  intros Hq Hf Hn v area1 area2 cm1 cm2.
  destruct (ComputeMoments_existing_face g b face Hf Hn) as [-> ->].
  unfold sub_area1, sub_area2, sub_center1, sub_center2.
  unfold verts_per_face in Hq. destruct (shape g); [discriminate |].
  split; reflexivity.
Qed.

(** What [ComputeMoments] leaves in [edge_length]: the arc between the two
    vertices where [GEOELM_NEXI] is raised in the mask of the edge, and the
    previous content everywhere else. *)
Lemma ComputeMoments_at_edge
    (g : GridBlock double) (b : StenciledBlock double) (edge : Z) :
  0 <= edge < n_edges_withghost g ->
  edge_length (ComputeMoments g b) edge
  = if BITS_RAISED (edge_mask g edge) (GEOELM_NEXI g) then edge_arc g edge
    else edge_length b edge.
Proof.
  intros He. unfold ComputeMoments.
  set (b1 := for_lt 0 (n_faces_withghost g) (ComputeMoments_face g)
                    (enter call_ComputeMoments b)).
  assert (edge_length b1 = edge_length b) as Hb1.
  { unfold b1. rewrite for_lt_frame; [reflexivity |].
    intros i s. unfold ComputeMoments_face.
    destruct (BITS_RAISED _ _); [| destruct (shape g)]; reflexivity. }
  rewrite <- Hb1.
  assert (forall hi, 0 <= hi ->
            forall e, edge_length (for_lt 0 hi (ComputeMoments_edge g) b1) e
                      = if (0 <=? e) && (e <? hi) && BITS_RAISED (edge_mask g e) (GEOELM_NEXI g)
                        then edge_arc g e else edge_length b1 e) as Hloop.
  { intros hi Hhi.
    apply (for_lt_inv
      (fun i s => forall e,
         edge_length s e
         = if (0 <=? e) && (e <? i) && BITS_RAISED (edge_mask g e) (GEOELM_NEXI g)
           then edge_arc g e else edge_length b1 e)); [exact Hhi | |].
    - intros e. destruct (0 <=? e) eqn:H0, (e <? 0) eqn:H1; simpl; try reflexivity. lia.
    - intros i s Hi Hs e. unfold ComputeMoments_edge.
      destruct (Z.eq_dec e i) as [-> | Hne].
      + assert ((0 <=? i) && (i <? i + 1) = true) as -> by lia.
        destruct (BITS_RAISED (edge_mask g i) (GEOELM_NEXI g)) eqn:Hm; cbn.
        * now rewrite upd_same.
        * rewrite Hs, Hm. now rewrite andb_false_r.
      + assert ((e <? i + 1) = (e <? i)) as -> by lia.
        destruct (BITS_RAISED (edge_mask g i) (GEOELM_NEXI g)); cbn.
        * rewrite upd_other by exact Hne. apply Hs.
        * apply Hs. }
  rewrite (Hloop (n_edges_withghost g) ltac:(lia)).
  assert ((0 <=? edge) && (edge <? n_edges_withghost g) = true) as -> by lia.
  reflexivity.
Qed.

End MomentsResults.

Lemma C7_nonexistent_face_defaults_witness :
  face_area (ComputeMoments
               (with_vertices tri_exact (fv_local tri_exact) (block_vert_cart tri_exact))
               tri_storage) 9 = 0%R /\
  face_cmass (ComputeMoments
                (with_vertices tri_exact (fv_local tri_exact) (block_vert_cart tri_exact))
                tri_storage) 9 = gv_zeros.
Proof.
  apply (C7_nonexistent_face_defaults (ops := exact) tri_exact tri_storage 9).
  - cbn. lia.
  - reflexivity.
Defined.

Lemma C8_quad_area_and_center_witness :
  face_area (ComputeMoments quad_exact quad_storage) 0
  = (SphTriArea_excess (axes 0) (axes 1) (axes 2)
     + SphTriArea_excess (axes 2) (axes 3) (axes 0))%R /\
  face_cmass (ComputeMoments quad_exact quad_storage) 0
  = gv_over
      (gv_plus
         (gv_scale (SphTriCenter_mean (axes 0) (axes 1) (axes 2))
                   (SphTriArea_excess (axes 0) (axes 1) (axes 2)))
         (gv_scale (SphTriCenter_mean (axes 2) (axes 3) (axes 0))
                   (SphTriArea_excess (axes 2) (axes 3) (axes 0))))
      (SphTriArea_excess (axes 0) (axes 1) (axes 2)
       + SphTriArea_excess (axes 2) (axes 3) (axes 0))%R.
Proof.
  apply (C8_quad_area_and_center (ops := exact) quad_exact quad_storage 0).
  - reflexivity.
  - cbn. lia.
  - reflexivity.
Defined.

(** C2 (what the code does).  On the triangular block, edge 0 exists
    ([GEOELM_NEXI] is not raised in its mask) and edge 1 does not.
    [ComputeMoments] leaves the stale length 7 of the existing edge as it is
    and stores the arc between the vertices of the edge that does not exist. *)
Theorem C2_existing_edge_not_measured :
  BITS_RAISED (edge_mask tri_exact 0) (GEOELM_NEXI tri_exact) = false /\
  edge_length (ComputeMoments tri_exact tri_storage) 0 = 7%R /\
  BITS_RAISED (edge_mask tri_exact 1) (GEOELM_NEXI tri_exact) = true /\
  edge_length (ComputeMoments tri_exact tri_storage) 1
  = Ratan.acos (gv_dot (axes 1) (axes 2)).
Proof.
  split; [reflexivity |]. split.
  - rewrite ComputeMoments_at_edge by (cbn; lia). reflexivity.
  - split; [reflexivity |].
    rewrite ComputeMoments_at_edge by (cbn; lia). reflexivity.
Qed.

(** ** The spherical excess of an octant *)

Lemma excess_octant : SphTriArea_excess (axes 0) (axes 1) (axes 2) = (PI / 2)%R.
Proof.
  unfold SphTriArea_excess, gv_dot, gv_cross, axes. cbn.
  match goal with
  | |- (2 * atan ?x)%R = _ => assert (x = 1%R) as ->
  end.
  { rewrite Rabs_right by lra. field. }
  rewrite atan_1. field.
Qed.

(** ** [MarkStenciledArea] *)

Lemma RAISE_BITS_idem (x bits : Z) : RAISE_BITS (RAISE_BITS x bits) bits = RAISE_BITS x bits.
Proof. unfold RAISE_BITS. now rewrite <- Z.lor_assoc, Z.lor_diag. Qed.

Lemma LOWER_BITS_idem (x bits : Z) : LOWER_BITS (LOWER_BITS x bits) bits = LOWER_BITS x bits.
Proof. unfold LOWER_BITS. now rewrite <- Z.land_assoc, Z.land_diag. Qed.

Lemma BITS_RAISED_RAISE (x bits : Z) : BITS_RAISED (RAISE_BITS x bits) bits = true.
Proof.
  unfold BITS_RAISED, RAISE_BITS. apply Z.eqb_eq, Z.bits_inj'. intros n Hn.
  rewrite Z.land_spec, Z.lor_spec. now destruct (Z.testbit x n), (Z.testbit bits n).
Qed.

Lemma BITS_RAISED_LOWER (x bits : Z) :
  bits <> 0 -> BITS_RAISED (LOWER_BITS x bits) bits = false.
Proof.
  intros Hnz. unfold BITS_RAISED, LOWER_BITS.
  assert (Z.land (Z.land x (Z.lnot bits)) bits = 0) as ->.
  { apply Z.bits_inj'. intros n Hn.
    rewrite !Z.land_spec, Z.lnot_spec, Z.bits_0 by exact Hn.
    now destruct (Z.testbit x n), (Z.testbit bits n). }
  apply Z.eqb_neq. congruence.
Qed.

Section Marking.
Context {double : Type} {kern : Kernels double}.
Variable g : GridBlock double.

(** A loop whose passes apply an idempotent [op] to the masks of the faces
    they hit applies [op] once to the mask of every face hit by some pass. *)
Lemma iterate_mask_op (op : Z -> Z) (body : Z -> StenciledBlock double -> StenciledBlock double)
    (hit : Z -> Z -> bool) :
  (forall x, op (op x) = op x) ->
  (forall i b f,
     face_mask (body i b) f = if hit i f then op (face_mask b f) else face_mask b f) ->
  forall n lo b f,
    face_mask (iterate n lo body b) f
    = if any_from n lo (fun i => hit i f) then op (face_mask b f) else face_mask b f.
Proof.
  intros Hidem Hbody. induction n as [|n IH]; intros lo b f; [reflexivity |].
  cbn [iterate any_from]. rewrite IH, Hbody.
  destruct (hit lo f), (any_from n (lo + 1) (fun i => hit i f)); cbn;
    rewrite ?Hidem; reflexivity.
Qed.

Lemma raise_STEN_mask (face : Z) (b : StenciledBlock double) (f : Z) :
  face_mask (raise_STEN g face b) f
  = if face =? f then RAISE_BITS (face_mask b f) (GEOELM_STEN g) else face_mask b f.
Proof.
  unfold raise_STEN, upd. cbn. rewrite (Z.eqb_sym f face).
  destruct (Z.eqb_spec face f) as [-> |]; reflexivity.
Qed.

Lemma lower_STEN_mask (face : Z) (b : StenciledBlock double) (f : Z) :
  face_mask (lower_STEN g face b) f
  = if face =? f then LOWER_BITS (face_mask b f) (GEOELM_STEN g) else face_mask b f.
Proof.
  unfold lower_STEN, upd. cbn. rewrite (Z.eqb_sym f face).
  destruct (Z.eqb_spec face f) as [-> |]; reflexivity.
Qed.

(** The same for the doubly nested loops of [MarkStenciledArea]. *)
Lemma nested_mask_op (op : Z -> Z) (touch : Z -> StenciledBlock double -> StenciledBlock double)
    (ilo ihi jlo : Z) (jhi : Z -> Z) (idx : Z -> Z -> Z) :
  (forall x, op (op x) = op x) ->
  (forall face b f,
     face_mask (touch face b) f
     = if face =? f then op (face_mask b f) else face_mask b f) ->
  forall b f,
    face_mask
      (for_le ilo ihi (fun i b => for_le jlo (jhi i) (fun j b => touch (idx i j) b) b) b) f
    = if any_le ilo ihi (fun i => any_le jlo (jhi i) (fun j => idx i j =? f))
      then op (face_mask b f) else face_mask b f.
Proof.
  intros Hidem Htouch b f. unfold for_le, any_le.
  apply (iterate_mask_op op
           (fun i b => iterate (Z.to_nat (jhi i - jlo + 1)) jlo
                               (fun j b => touch (idx i j) b) b)
           (fun i f => any_from (Z.to_nat (jhi i - jlo + 1)) jlo (fun j => idx i j =? f))
           Hidem).
  intros i b' f'.
  apply (iterate_mask_op op (fun j b => touch (idx i j) b) (fun j f => idx i j =? f) Hidem).
  intros j b'' f''. apply Htouch.
Qed.

Lemma mark_interior_mask (b : StenciledBlock double) (f : Z) :
  face_mask (mark_interior g b) f
  = if in_marked_region g f then RAISE_BITS (face_mask b f) (GEOELM_STEN g)
    else face_mask b f.
Proof.
  apply (nested_mask_op (fun x => RAISE_BITS x (GEOELM_STEN g)) (raise_STEN g)).
  - intros x. apply RAISE_BITS_idem.
  - apply raise_STEN_mask.
Qed.

Lemma clip_SE_mask (b : StenciledBlock double) (f : Z) :
  face_mask (clip_SE g b) f
  = if in_SE_wedge g f then LOWER_BITS (face_mask b f) (GEOELM_STEN g) else face_mask b f.
Proof.
  apply (nested_mask_op (fun x => LOWER_BITS x (GEOELM_STEN g)) (lower_STEN g)).
  - intros x. apply LOWER_BITS_idem.
  - apply lower_STEN_mask.
Qed.

Lemma clip_N_mask (b : StenciledBlock double) (f : Z) :
  face_mask (clip_N g b) f
  = if in_N_wedge g f then LOWER_BITS (face_mask b f) (GEOELM_STEN g) else face_mask b f.
Proof.
  apply (nested_mask_op (fun x => LOWER_BITS x (GEOELM_STEN g)) (lower_STEN g)).
  - intros x. apply LOWER_BITS_idem.
  - apply lower_STEN_mask.
Qed.

(** C9.  Write [marked] for the masks after the marking pass of
    [MarkStenciledArea] (the interior and one layer of faces: [GEOELM_STEN]
    raised on the faces the pass visits) and [final] for the masks
    [MarkStenciledArea] returns; a face is un-marked when [GEOELM_STEN] is
    raised in [marked] and not in [final].  On a quadrilateral block [final]
    is [marked] and no face is un-marked.  On a triangular block [final] is
    [marked] with [GEOELM_STEN] lowered on the faces of the two wedges (SE
    corner and N corner), and the faces un-marked are the marked faces of
    those two wedges. *)
Theorem C9_corner_clipping (b : StenciledBlock double) :
  GEOELM_STEN g <> 0 ->
  let marked := face_mask (mark_interior g b) in
  let final := face_mask (MarkStenciledArea g b) in
  let unmarked := fun f =>
    BITS_RAISED (marked f) (GEOELM_STEN g) = true /\
    BITS_RAISED (final f) (GEOELM_STEN g) = false in
  (forall f,
     marked f = (if in_marked_region g f then RAISE_BITS (face_mask b f) (GEOELM_STEN g)
                 else face_mask b f)) /\
  (verts_per_face g = 4 -> forall f, final f = marked f /\ ~ unmarked f) /\
  (verts_per_face g = 3 ->
   forall f,
     final f = (if in_SE_wedge g f || in_N_wedge g f
                then LOWER_BITS (marked f) (GEOELM_STEN g) else marked f) /\
     (unmarked f <->
      BITS_RAISED (marked f) (GEOELM_STEN g) = true /\
      (in_SE_wedge g f = true \/ in_N_wedge g f = true))).
Proof.
  intros Hnz marked final unmarked.
  assert (forall f, face_mask (mark_interior g (enter call_MarkStenciledArea b)) f = marked f)
    as Henter.
  { intros f. unfold marked. now rewrite !mark_interior_mask. }
  split; [intros f; apply mark_interior_mask |]. split.
  - intros Hq f.
    assert (final f = marked f) as Hfin.
    { unfold final, MarkStenciledArea. rewrite Hq. cbn [Z.eqb Pos.eqb]. apply Henter. }
    split; [exact Hfin |]. unfold unmarked. rewrite Hfin. intros [H1 H2]. congruence.
  - intros Ht f.
    assert (final f = (if in_SE_wedge g f || in_N_wedge g f
                       then LOWER_BITS (marked f) (GEOELM_STEN g) else marked f)) as Hfin.
    { unfold final, MarkStenciledArea. rewrite Ht. cbn [Z.eqb Pos.eqb].
      rewrite clip_N_mask, clip_SE_mask, Henter.
      destruct (in_SE_wedge g f), (in_N_wedge g f); cbn [orb];
        rewrite ?LOWER_BITS_idem; reflexivity. }
    split; [exact Hfin |]. unfold unmarked. rewrite Hfin.
    destruct (in_SE_wedge g f), (in_N_wedge g f); cbn [orb];
      rewrite ?BITS_RAISED_LOWER by exact Hnz; intuition congruence.
Qed.

End Marking.

Lemma C9_corner_clipping_witness :
  face_mask (MarkStenciledArea tri_exact tri_storage) 8
  = (if in_SE_wedge tri_exact 8 || in_N_wedge tri_exact 8
     then LOWER_BITS (face_mask (mark_interior tri_exact tri_storage) 8)
                     (GEOELM_STEN tri_exact)
     else face_mask (mark_interior tri_exact tri_storage) 8).
Proof.
  apply (C9_corner_clipping tri_exact tri_storage).
  - cbn. lia.
  - reflexivity.
Defined.

(** ** [BuildAllStencils] *)

Section Stencils.
Context {double : Type} {kern : Kernels double}.
Variable g : GridBlock double.
Variable fresh_int : Z.

Lemma zl_write_hit (pface stencil k v : Z) (b : StenciledBlock double) (s : Z) :
  s = stencil ->
  stencil_zonelist (zl_write pface stencil k v b) pface s
  = option_map (fun l : list Z => <[Z.to_nat k := v]> l) (stencil_zonelist b pface s).
Proof. intros ->. unfold zl_write. cbn. rewrite upd2_same. reflexivity. Qed.

Lemma zl_write_miss (pface stencil k v : Z) (b : StenciledBlock double) (p s : Z) :
  p <> pface \/ s <> stencil ->
  stencil_zonelist (zl_write pface stencil k v b) p s = stencil_zonelist b p s.
Proof. intros Hne. unfold zl_write. cbn. now rewrite upd2_other. Qed.

Lemma zl_write_frame (pface stencil k v : Z) (b : StenciledBlock double) :
  face_mask (zl_write pface stencil k v b) = face_mask b /\
  zones_per_stencil (zl_write pface stencil k v b) = zones_per_stencil b.
Proof. split; reflexivity. Qed.

Lemma directional_stencil_other (pface stencil : Z) (b : StenciledBlock double) (p s : Z) :
  p <> pface ->
  stencil_zonelist (directional_stencil g pface stencil b) p s = stencil_zonelist b p s.
Proof.
  intros Hne. unfold directional_stencil, zl_write_pair.
  now rewrite !zl_write_miss by (left; exact Hne).
Qed.

Lemma stencils_of_face_other (pface : Z) (b : StenciledBlock double) (p s : Z) :
  p <> pface ->
  stencil_zonelist (stencils_of_face g pface b) p s = stencil_zonelist b p s.
Proof.
  intros Hne. unfold stencils_of_face.
  rewrite (for_le_frame (fun b => stencil_zonelist b p s))
    by (intros; now apply directional_stencil_other).
  unfold central_stencil. rewrite !zl_write_miss by (left; exact Hne).
  apply (for_lt_frame (fun b => stencil_zonelist b p s)).
  intros i b'. now rewrite !zl_write_miss by (left; exact Hne).
Qed.

Lemma stencils_of_face_frame (pface : Z) (b : StenciledBlock double) :
  face_mask (stencils_of_face g pface b) = face_mask b /\
  zones_per_stencil (stencils_of_face g pface b) = zones_per_stencil b.
Proof.
  unfold stencils_of_face. split.
  - rewrite (for_le_frame face_mask) by reflexivity.
    unfold central_stencil. cbn. now rewrite (for_lt_frame face_mask) by reflexivity.
  - rewrite (for_le_frame zones_per_stencil) by reflexivity.
    unfold central_stencil. cbn. now rewrite (for_lt_frame zones_per_stencil) by reflexivity.
Qed.

(** Pass through the writes that precede a lookup, one at a time. *)
Ltac zl_lookup :=
  repeat first
    [ rewrite zl_write_miss by (right; lia)
    | rewrite zl_write_hit by lia ].

(** Unroll the loops whose number of passes is a closed term. *)
Ltac unroll :=
  unfold for_le, for_lt;
  repeat match goal with
         | |- context [iterate (Z.to_nat ?e)] =>
             let v := eval vm_compute in (Z.to_nat e) in
             change (Z.to_nat e) with v
         end;
  cbn [iterate].

(** The passes of one principal face fill freshly allocated arrays with the
    zone lists of the face. *)
Lemma stencils_of_face_lists (pface : Z) (b : StenciledBlock double) :
  stencil_zonelist b pface 0
  = Some (replicate (Z.to_nat (2 * (verts_per_face g + 2))) fresh_int) ->
  (forall s, 1 <= s < n_stencils g ->
     stencil_zonelist b pface s = Some (replicate (Z.to_nat (2 * 4)) fresh_int)) ->
  forall s, 0 <= s < n_stencils g ->
    stencil_zonelist (stencils_of_face g pface b) pface s = Some (zones_of g pface s).
Proof.
  unfold n_stencils, zones_of, central_zones, directional_zones, flank1, flank2,
    position_across, across, stencils_of_face, central_stencil, directional_stencil,
    zl_write_pair, verts_per_face.
  destruct (shape g); intros H0 Hs s Hr.
  - assert (s = 0 \/ s = 1 \/ s = 2 \/ s = 3 \/ s = 4 \/ s = 5 \/ s = 6)
      as [-> | [-> | [-> | [-> | [-> | [-> | ->]]]]]] by lia;
      unroll; zl_lookup; rewrite ?H0, ?Hs by lia; vm_compute; reflexivity.
  - assert (s = 0 \/ s = 1 \/ s = 2 \/ s = 3 \/ s = 4 \/ s = 5 \/ s = 6 \/ s = 7 \/ s = 8)
      as [-> | [-> | [-> | [-> | [-> | [-> | [-> | [-> | ->]]]]]]]] by lia;
      unroll; zl_lookup; rewrite ?H0, ?Hs by lia; vm_compute; reflexivity.
Qed.

(** The zone counts after the first loop of [BuildAllStencils]. *)
Lemma zones_per_stencil_loop (b : StenciledBlock double) :
  let b' :=
    for_lt 1 (n_stencils g)
      (fun stencil b => set_zones_per_stencil (upd (zones_per_stencil b) stencil 4) b)
      (set_zones_per_stencil (upd (zones_per_stencil b) 0 (verts_per_face g + 2)) b) in
  face_mask b' = face_mask b /\
  zones_per_stencil b' 0 = verts_per_face g + 2 /\
  (forall s, 1 <= s < n_stencils g -> zones_per_stencil b' s = 4).
Proof.
  assert (1 <= n_stencils g) as Hn
    by (unfold n_stencils, verts_per_face; destruct (shape g); lia).
  apply (for_lt_inv
    (fun i s =>
       face_mask s = face_mask b /\
       zones_per_stencil s 0 = verts_per_face g + 2 /\
       (forall k, 1 <= k < i -> zones_per_stencil s k = 4))); [exact Hn | |].
  - unfold set_zones_per_stencil. cbn [zones_per_stencil face_mask].
    rewrite upd_same. repeat split. intros k Hk. lia.
  - intros i s Hi (Hm & H0 & Hk). unfold set_zones_per_stencil.
    cbn [zones_per_stencil face_mask]. repeat split.
    + exact Hm.
    + rewrite upd_other by lia. exact H0.
    + intros k Hk'. destruct (Z.eq_dec k i) as [-> | Hne].
      * apply upd_same.
      * rewrite upd_other by exact Hne. apply Hk. lia.
Qed.

(** The arrays allocated for one face. *)
Lemma alloc_face_loop (pface : Z) (b : StenciledBlock double) :
  let b' :=
    for_lt 0 (n_stencils g)
      (fun stencil b => zl_alloc fresh_int pface stencil (2 * zones_per_stencil b stencil) b)
      b in
  face_mask b' = face_mask b /\
  zones_per_stencil b' = zones_per_stencil b /\
  (forall s, 0 <= s < n_stencils g ->
     stencil_zonelist b' pface s
     = Some (replicate (Z.to_nat (2 * zones_per_stencil b s)) fresh_int)) /\
  (forall p s, p <> pface -> stencil_zonelist b' p s = stencil_zonelist b p s).
Proof.
  assert (0 <= n_stencils g) as Hn
    by (unfold n_stencils, verts_per_face; destruct (shape g); lia).
  apply (for_lt_inv
    (fun i s =>
       face_mask s = face_mask b /\
       zones_per_stencil s = zones_per_stencil b /\
       (forall k, 0 <= k < i ->
          stencil_zonelist s pface k
          = Some (replicate (Z.to_nat (2 * zones_per_stencil b k)) fresh_int)) /\
       (forall p k, p <> pface -> stencil_zonelist s p k = stencil_zonelist b p k)));
    [exact Hn | |].
  - split; [reflexivity |]. split; [reflexivity |]. split; intros; lia || reflexivity.
  - intros i s Hi (Hm & Hz & Hk & Ho). unfold zl_alloc, set_stencil_zonelist.
    cbn [zones_per_stencil face_mask stencil_zonelist]. repeat split.
    + exact Hm.
    + exact Hz.
    + intros k Hk'. destruct (Z.eq_dec k i) as [-> | Hne].
      * rewrite upd2_same, Hz. reflexivity.
      * rewrite upd2_other by (right; exact Hne). apply Hk. lia.
    + intros p k Hp. rewrite upd2_other by (left; exact Hp). now apply Ho.
Qed.

(** The arrays allocated by the second loop of [BuildAllStencils]. *)
Lemma alloc_loop (b : StenciledBlock double) :
  let b' :=
    for_lt 0 (n_faces_withghost g)
      (fun pface b =>
         if BITS_RAISED (face_mask b pface) (GEOELM_STEN g) then
           for_lt 0 (n_stencils g)
             (fun stencil b =>
                zl_alloc fresh_int pface stencil (2 * zones_per_stencil b stencil) b) b
         else b) b in
  face_mask b' = face_mask b /\
  zones_per_stencil b' = zones_per_stencil b /\
  (forall p s, 0 <= p < n_faces_withghost g -> eligible g b p -> 0 <= s < n_stencils g ->
     stencil_zonelist b' p s
     = Some (replicate (Z.to_nat (2 * zones_per_stencil b s)) fresh_int)).
Proof.
  intros b'. subst b'.
  destruct (Z_lt_le_dec (n_faces_withghost g) 0) as [Hneg | Hpos].
  { rewrite !(for_lt_empty _ 0 (n_faces_withghost g)) by lia.
    split; [reflexivity |]. split; [reflexivity |]. intros p s Hp. lia. }
  apply (for_lt_inv
    (fun i s =>
       face_mask s = face_mask b /\
       zones_per_stencil s = zones_per_stencil b /\
       (forall p k, 0 <= p < i -> eligible g b p -> 0 <= k < n_stencils g ->
          stencil_zonelist s p k
          = Some (replicate (Z.to_nat (2 * zones_per_stencil b k)) fresh_int))));
    [exact Hpos | |].
  - split; [reflexivity |]. split; [reflexivity |]. repeat split; intros; lia || reflexivity.
  - intros i s Hi (Hm & Hz & Hk).
    destruct (BITS_RAISED (face_mask s i) (GEOELM_STEN g)) eqn:He.
    + destruct (alloc_face_loop i s) as (Hm' & Hz' & Hk' & Ho').
      repeat split.
      * now rewrite Hm'.
      * now rewrite Hz'.
      * intros p k Hp Hel Hkr. destruct (Z.eq_dec p i) as [-> | Hne].
        -- rewrite Hk' by exact Hkr. now rewrite Hz.
        -- rewrite Ho' by exact Hne. apply Hk; [lia | exact Hel | exact Hkr].
    + repeat split; try assumption.
      intros p k Hp Hel Hkr. destruct (Z.eq_dec p i) as [-> | Hne].
      * unfold eligible in Hel. rewrite <- Hm in Hel. congruence.
      * apply Hk; [lia | exact Hel | exact Hkr].
Qed.

(** The zone lists written by the last loop of [BuildAllStencils]. *)
Lemma zone_loop (b : StenciledBlock double) :
  zones_per_stencil b 0 = verts_per_face g + 2 ->
  (forall s, 1 <= s < n_stencils g -> zones_per_stencil b s = 4) ->
  (forall p s, 0 <= p < n_faces_withghost g -> eligible g b p -> 0 <= s < n_stencils g ->
     stencil_zonelist b p s
     = Some (replicate (Z.to_nat (2 * zones_per_stencil b s)) fresh_int)) ->
  let b' :=
    for_lt 0 (n_faces_withghost g)
      (fun pface b =>
         if BITS_RAISED (face_mask b pface) (GEOELM_STEN g) then stencils_of_face g pface b
         else b) b in
  face_mask b' = face_mask b /\
  zones_per_stencil b' = zones_per_stencil b /\
  (forall p s, 0 <= p < n_faces_withghost g -> eligible g b p -> 0 <= s < n_stencils g ->
     stencil_zonelist b' p s = Some (zones_of g p s)).
Proof.
  intros Hz0 Hz4 Halloc b'. subst b'.
  destruct (Z_lt_le_dec (n_faces_withghost g) 0) as [Hneg | Hpos].
  { rewrite !(for_lt_empty _ 0 (n_faces_withghost g)) by lia.
    split; [reflexivity |]. split; [reflexivity |]. intros p s Hp. lia. }
  enough (face_mask (for_lt 0 (n_faces_withghost g)
                       (fun pface b =>
                          if BITS_RAISED (face_mask b pface) (GEOELM_STEN g)
                          then stencils_of_face g pface b else b) b) = face_mask b /\
          zones_per_stencil (for_lt 0 (n_faces_withghost g)
                       (fun pface b =>
                          if BITS_RAISED (face_mask b pface) (GEOELM_STEN g)
                          then stencils_of_face g pface b else b) b) = zones_per_stencil b /\
          (forall p k, 0 <= p < n_faces_withghost g -> eligible g b p ->
             0 <= k < n_stencils g ->
             stencil_zonelist (for_lt 0 (n_faces_withghost g)
                       (fun pface b =>
                          if BITS_RAISED (face_mask b pface) (GEOELM_STEN g)
                          then stencils_of_face g pface b else b) b) p k
             = Some (zones_of g p k)) /\
          (forall p k, n_faces_withghost g <= p ->
             stencil_zonelist (for_lt 0 (n_faces_withghost g)
                       (fun pface b =>
                          if BITS_RAISED (face_mask b pface) (GEOELM_STEN g)
                          then stencils_of_face g pface b else b) b) p k
             = stencil_zonelist b p k)) as (H1 & H2 & H3 & _)
    by (split; [exact H1 | split; [exact H2 | exact H3]]).
  apply (for_lt_inv
    (fun i s =>
       face_mask s = face_mask b /\
       zones_per_stencil s = zones_per_stencil b /\
       (forall p k, 0 <= p < i -> eligible g b p -> 0 <= k < n_stencils g ->
          stencil_zonelist s p k = Some (zones_of g p k)) /\
       (forall p k, i <= p -> stencil_zonelist s p k = stencil_zonelist b p k)));
    [exact Hpos | |].
  - split; [reflexivity |]. split; [reflexivity |]. repeat split; intros; lia || reflexivity.
  - intros i s Hi (Hm & Hz & Hdone & Hrest).
    destruct (BITS_RAISED (face_mask s i) (GEOELM_STEN g)) eqn:He.
    + destruct (stencils_of_face_frame i s) as [Hm' Hz'].
      repeat split.
      * now rewrite Hm'.
      * now rewrite Hz'.
      * intros p k Hp Hel Hkr. destruct (Z.eq_dec p i) as [-> | Hne].
        -- assert (eligible g b i) as Hi' by (unfold eligible; now rewrite <- Hm).
           apply stencils_of_face_lists.
           ++ rewrite Hrest by lia. rewrite Halloc by (assumption || lia).
              now rewrite Hz0.
           ++ intros s' Hs'. rewrite Hrest by lia. rewrite Halloc by (assumption || lia).
              now rewrite Hz4 by exact Hs'.
           ++ exact Hkr.
        -- rewrite stencils_of_face_other by exact Hne.
           apply Hdone; [lia | exact Hel | exact Hkr].
      * intros p k Hp. rewrite stencils_of_face_other by lia. apply Hrest. lia.
    + repeat split; try assumption.
      * intros p k Hp Hel Hkr. destruct (Z.eq_dec p i) as [-> | Hne].
        -- unfold eligible in Hel. rewrite <- Hm in Hel. congruence.
        -- apply Hdone; [lia | exact Hel | exact Hkr].
      * intros p k Hp. apply Hrest. lia.
Qed.

(** What [BuildAllStencils] leaves: the masks as they were, the zone
    counts, and the zone lists of the faces of the stenciled area. *)
Lemma BuildAllStencils_result (b : StenciledBlock double) :
  let b' := BuildAllStencils g fresh_int b in
  face_mask b' = face_mask b /\
  zones_per_stencil b' 0 = verts_per_face g + 2 /\
  (forall s, 1 <= s < n_stencils g -> zones_per_stencil b' s = 4) /\
  (forall p s, 0 <= p < n_faces_withghost g -> eligible g b p -> 0 <= s < n_stencils g ->
     stencil_zonelist b' p s = Some (zones_of g p s)).
Proof.
  intros b'. subst b'. unfold BuildAllStencils.
  destruct (zones_per_stencil_loop (enter call_BuildAllStencils b)) as (Hm1 & Hz0 & Hz4).
  set (b2 := for_lt 1 (n_stencils g) _ _) in *.
  set (b3 := set_stencil_zonelist (fun _ _ => None) b2).
  destruct (alloc_loop b3) as (Hm4 & Hz & Halloc).
  set (b4 := for_lt 0 (n_faces_withghost g) _ b3) in *.
  assert (face_mask b4 = face_mask b) as Hmb by (rewrite Hm4; exact Hm1).
  assert (forall p, eligible g b p -> eligible g b4 p) as Hel4
    by (intros p Hp; unfold eligible; now rewrite Hmb).
  assert (forall p, eligible g b p -> eligible g b3 p) as Hel3
    by (intros p Hp; unfold eligible; cbn; now rewrite Hm1).
  destruct (zone_loop b4) as (Hm5 & Hz5 & Hzones).
  - now rewrite Hz.
  - intros s Hs. rewrite Hz. now apply Hz4.
  - intros p s Hp Hel Hs. rewrite Hz. apply Halloc; try assumption.
    unfold eligible in *. now rewrite <- Hm4.
  - repeat split.
    + rewrite Hm5. exact Hmb.
    + rewrite Hz5, Hz. exact Hz0.
    + intros s Hs. rewrite Hz5, Hz. now apply Hz4.
    + intros p s Hp Hel Hs. apply Hzones; auto.
Qed.

End Stencils.

Section StencilResults.
Context {double : Type} {kern : Kernels double}.
Variable g : GridBlock double.
Variable fresh_int : Z.

Lemma zones_of_central (pface : Z) : zones_of g pface 0 = central_zones g pface.
Proof. reflexivity. Qed.

Lemma zones_of_down (pface s : Z) :
  1 <= s <= verts_per_face g ->
  zones_of g pface s = directional_zones g pface (s - 1) (-1).
Proof.
  intros Hs. unfold zones_of.
  destruct (Z.eqb_spec s 0); [lia |]. destruct (Z.leb_spec s (verts_per_face g)); [| lia].
  reflexivity.
Qed.

Lemma zones_of_up (pface s : Z) :
  1 <= s <= verts_per_face g ->
  zones_of g pface (s + verts_per_face g) = directional_zones g pface (s - 1) 1.
Proof.
  intros Hs. unfold zones_of.
  destruct (Z.eqb_spec (s + verts_per_face g) 0); [lia |].
  destruct (Z.leb_spec (s + verts_per_face g) (verts_per_face g)); [lia |].
  now assert (s + verts_per_face g - verts_per_face g - 1 = s - 1) as -> by lia.
Qed.

(** C5.  For a face of the block that is in the stenciled area, the central
    stencil (index 0) built by [BuildAllStencils] has [verts_per_face + 2]
    zones: zone [ic], for [ic] below [verts_per_face], is the neighbour across
    side [ic] at plane 0, and the last two zones are the principal face at
    plane -1 and the principal face at plane +1, in that order. *)
Theorem C5_central_stencil (b : StenciledBlock double) (pface : Z) :
  0 <= pface < n_faces_withghost g ->
  eligible g b pface ->
  let b' := BuildAllStencils g fresh_int b in
  zones_per_stencil b' 0 = verts_per_face g + 2 /\
  exists l : list Z,
    stencil_zonelist b' pface 0 = Some l /\
    Z.of_nat (length l) = 2 * (verts_per_face g + 2) /\
    (forall ic, 0 <= ic < verts_per_face g ->
       zone l (Z.to_nat ic) = Some (ff_local g pface ic, 0)) /\
    zone l (Z.to_nat (verts_per_face g)) = Some (pface, -1) /\
    zone l (Z.to_nat (verts_per_face g + 1)) = Some (pface, 1).
Proof.
  intros Hp Hel b'.
  destruct (BuildAllStencils_result g fresh_int b) as (_ & Hz0 & _ & Hl).
  split; [exact Hz0 |].
  exists (central_zones g pface). split.
  - unfold b'. rewrite Hl; [reflexivity | exact Hp | exact Hel |].
    unfold n_stencils, verts_per_face. destruct (shape g); lia.
  - unfold central_zones, verts_per_face. destruct (shape g).
    + repeat split.
      intros ic Hic.
      assert (ic = 0 \/ ic = 1 \/ ic = 2) as [-> | [-> | ->]] by lia; reflexivity.
    + repeat split.
      intros ic Hic.
      assert (ic = 0 \/ ic = 1 \/ ic = 2 \/ ic = 3) as [-> | [-> | [-> | ->]]] by lia;
        reflexivity.
Qed.

(** C1 (as amended).  For a face of the block that is in the stenciled area
    and a directional pair (down stencil [s] in 1..[verts_per_face], up
    stencil [s + verts_per_face]), both zone lists have 4 zones, the first 3
    zones (face and plane) are the same in the two lists, and the last zone of
    both is the face across side [s - 1], the face the list starts with, at
    plane -1 in the down list and at plane +1 in the up list. *)
Theorem C1_directional_pair (b : StenciledBlock double) (pface s : Z) :
  0 <= pface < n_faces_withghost g ->
  eligible g b pface ->
  1 <= s <= verts_per_face g ->
  let b' := BuildAllStencils g fresh_int b in
  zones_per_stencil b' s = 4 /\
  zones_per_stencil b' (s + verts_per_face g) = 4 /\
  exists down up : list Z,
    stencil_zonelist b' pface s = Some down /\
    stencil_zonelist b' pface (s + verts_per_face g) = Some up /\
    length down = 8%nat /\ length up = 8%nat /\
    take 6 down = take 6 up /\
    zone down 0 = Some (across g pface (s - 1), 0) /\
    zone down 3 = Some (across g pface (s - 1), -1) /\
    zone up 3 = Some (across g pface (s - 1), 1).
Proof.
  intros Hp Hel Hs b'.
  destruct (BuildAllStencils_result g fresh_int b) as (_ & _ & Hz4 & Hl).
  assert (verts_per_face g = 3 \/ verts_per_face g = 4) as Hv
    by (unfold verts_per_face; destruct (shape g); auto).
  split; [apply Hz4; unfold n_stencils; lia |].
  split; [apply Hz4; unfold n_stencils; lia |].
  exists (directional_zones g pface (s - 1) (-1)), (directional_zones g pface (s - 1) 1).
  unfold b'. rewrite !Hl by (assumption || unfold n_stencils; lia).
  rewrite zones_of_down, zones_of_up by exact Hs.
  repeat split.
Qed.

(** C3 (as amended).  For a face of the block that is in the stenciled area
    and a side [s] (counted from 0), write [N] for the face across the side
    and [p] for the position of the principal face in the neighbour list of
    [N].  In both directional stencils of the side, zones 1 and 2 are the
    neighbours of [N] at the offsets [(p + 1) % verts_per_face] and
    [(p + 4 - square_fill) % verts_per_face], at plane 0.  On a quadrilateral
    block with [square_fill] 1 the second offset is the one of the
    specification. *)
Theorem C3_flanking_zones (b : StenciledBlock double) (pface s : Z) :
  0 <= pface < n_faces_withghost g ->
  eligible g b pface ->
  0 <= s < verts_per_face g ->
  let b' := BuildAllStencils g fresh_int b in
  let N := ff_local g pface s in
  let p := InList (verts_per_face g) (ff_local g N) pface in
  let first := ff_local g N (c_rem (p + 1) (verts_per_face g)) in
  let second := ff_local g N (c_rem (p + 4 - square_fill g) (verts_per_face g)) in
  (exists down up : list Z,
     stencil_zonelist b' pface (s + 1) = Some down /\
     stencil_zonelist b' pface (s + 1 + verts_per_face g) = Some up /\
     zone down 1 = Some (first, 0) /\ zone down 2 = Some (second, 0) /\
     zone up 1 = Some (first, 0) /\ zone up 2 = Some (second, 0)) /\
  (verts_per_face g = 4 -> square_fill g = 1 -> second = flank2_as_specified g pface s).
Proof.
  intros Hp Hel Hs b' N p first second.
  destruct (BuildAllStencils_result g fresh_int b) as (_ & _ & _ & Hl).
  split.
  - exists (directional_zones g pface s (-1)), (directional_zones g pface s 1).
    unfold b'. rewrite !Hl by (assumption || unfold n_stencils; lia).
    rewrite zones_of_down, zones_of_up by lia.
    assert (s + 1 - 1 = s) as -> by lia.
    repeat split.
  - intros Hq Hsf. unfold second, flank2_as_specified, position_across, across, p, N.
    rewrite Hq, Hsf. cbn. reflexivity.
Qed.

End StencilResults.

Lemma C5_central_stencil_witness :
  zones_per_stencil (BuildAllStencils tri_exact 0 tri_storage) 0 = 5 /\
  exists l : list Z,
    stencil_zonelist (BuildAllStencils tri_exact 0 tri_storage) 0 0 = Some l /\
    Z.of_nat (length l) = 10 /\
    (forall ic, 0 <= ic < 3 -> zone l (Z.to_nat ic) = Some (ff_local tri_exact 0 ic, 0)) /\
    zone l 3 = Some (0, -1) /\
    zone l 4 = Some (0, 1).
Proof.
  apply (C5_central_stencil tri_exact 0 tri_storage 0).
  - cbn. lia.
  - reflexivity.
Defined.

Lemma C1_directional_pair_witness :
  zones_per_stencil (BuildAllStencils tri_exact 0 tri_storage) 2 = 4 /\
  zones_per_stencil (BuildAllStencils tri_exact 0 tri_storage) 5 = 4 /\
  exists down up : list Z,
    stencil_zonelist (BuildAllStencils tri_exact 0 tri_storage) 0 2 = Some down /\
    stencil_zonelist (BuildAllStencils tri_exact 0 tri_storage) 0 5 = Some up /\
    length down = 8%nat /\ length up = 8%nat /\
    take 6 down = take 6 up /\
    zone down 0 = Some (2, 0) /\
    zone down 3 = Some (2, -1) /\
    zone up 3 = Some (2, 1).
Proof.
  apply (C1_directional_pair tri_exact 0 tri_storage 0 2).
  - cbn. lia.
  - reflexivity.
  - cbn. lia.
Defined.

(** C1 (counterexample).  Face 0 of the triangular block is in the stenciled
    area and the face across its side 0 is face 1.  The last zone of the down
    stencil 1 and of the up stencil 4 is face 1, not the principal face 0. *)
Lemma C1_last_zone_is_the_neighbour :
  eligible tri_exact tri_storage 0 /\
  stencil_zonelist (BuildAllStencils tri_exact 0 tri_storage) 0 1
  = Some [1; 0; 4; 0; 5; 0; 1; -1] /\
  stencil_zonelist (BuildAllStencils tri_exact 0 tri_storage) 0 4
  = Some [1; 0; 4; 0; 5; 0; 1; 1] /\
  zone [1; 0; 4; 0; 5; 0; 1; -1] 3 <> Some (0, -1) /\
  zone [1; 0; 4; 0; 5; 0; 1; 1] 3 <> Some (0, 1).
Proof.
  split; [reflexivity |].
  split; [vm_compute; reflexivity |].
  split; [vm_compute; reflexivity |].
  split; vm_compute; discriminate.
Qed.

Lemma C3_flanking_zones_witness :
  exists down up : list Z,
    stencil_zonelist (BuildAllStencils tri_exact 0 tri_storage) 0 (0 + 1) = Some down /\
    stencil_zonelist (BuildAllStencils tri_exact 0 tri_storage) 0 (0 + 1 + 3) = Some up /\
    zone down 1 = Some (4, 0) /\ zone down 2 = Some (5, 0) /\
    zone up 1 = Some (4, 0) /\ zone up 2 = Some (5, 0).
Proof.
  apply (C3_flanking_zones tri_exact 0 tri_storage 0 0).
  - cbn. lia.
  - reflexivity.
  - cbn. lia.
Defined.

(** C3 (counterexample).  On the triangular block ([square_fill] is 2), the
    face across side 0 of face 0 is face 1, whose neighbours are 0, 4 and 5,
    so that [p] is 0.  Zone 2 of stencil 1 is face 5, the neighbour at offset
    [(p + 4 - 2) % 3 = 2]; the offset of the specification,
    [(p + 3 - 0) mod 3 = 0], is the one of the principal face itself. *)
Lemma C3_second_flank_on_triangles :
  eligible tri_exact tri_storage 0 /\
  stencil_zonelist (BuildAllStencils tri_exact 0 tri_storage) 0 1
  = Some [1; 0; 4; 0; 5; 0; 1; -1] /\
  zone [1; 0; 4; 0; 5; 0; 1; -1] 2 = Some (5, 0) /\
  position_across tri_exact 0 0 = 0 /\
  flank2_as_specified tri_exact 0 0 = 0 /\
  zone [1; 0; 4; 0; 5; 0; 1; -1] 2 <> Some (flank2_as_specified tri_exact 0 0, 0).
Proof.
  split; [reflexivity |].
  split; [vm_compute; reflexivity |].
  split; [reflexivity |].
  split; [reflexivity |].
  split; [reflexivity |].
  vm_compute. discriminate.
Qed.

(** ** [ComputeOneMatrix] *)

Section Matrices.
Context {double : Type} {ops : DoubleOps double} {kern : Kernels double}.
Variable g : GridBlock double.

(** The row of the geometry matrix for zone [row] of a stencil *)
Lemma geom_row_coef (b : StenciledBlock double) (pface stencil row : Z)
    (a : MatrixXd double) (r c : Z) :
  0 <= c < 3 ->
  m_coef (geom_row g b pface stencil row a) r c
  = if r =? row then
      (rp_factor g (zl_read b pface stencil (2 * row + 1))
       * gv_at (face_cmass b (zl_read b pface stencil (2 * row))) c
       - gv_at (face_cmass b pface) c)%D
    else m_coef a r c.
Proof.
  intros Hc. unfold geom_row, for_lt.
  change (Z.to_nat (3 - 0)) with 3%nat. cbn [iterate].
  unfold m_set, upd2. cbn [m_coef].
  destruct (Z.eqb_spec r row) as [-> | Hne]; cbn [andb].
  - assert (c = 0 \/ c = 1 \/ c = 2) as [-> | [-> | ->]] by lia; reflexivity.
  - reflexivity.
Qed.

Lemma geom_row_dims (b : StenciledBlock double) (pface stencil row : Z)
    (a : MatrixXd double) :
  m_rows (geom_row g b pface stencil row a) = m_rows a /\
  m_cols (geom_row g b pface stencil row a) = m_cols a.
Proof. split; reflexivity. Qed.

(** The geometry matrix has one row per zone and every coefficient of it
    is assigned. *)
Lemma geom_matr_A_coef (b : StenciledBlock double) (pface stencil row col : Z) :
  0 <= row < zones_per_stencil b stencil ->
  0 <= col < 3 ->
  m_rows (geom_matr_A g b pface stencil) = zones_per_stencil b stencil /\
  m_cols (geom_matr_A g b pface stencil) = 3 /\
  m_coef (geom_matr_A g b pface stencil) row col
  = (rp_factor g (zl_read b pface stencil (2 * row + 1))
     * gv_at (face_cmass b (zl_read b pface stencil (2 * row))) col
     - gv_at (face_cmass b pface) col)%D.
Proof.
  intros Hr Hc. unfold geom_matr_A.
  assert (0 <= zones_per_stencil b stencil) as Hz by lia.
  pose proof (for_lt_inv
    (fun i a =>
       m_rows a = zones_per_stencil b stencil /\ m_cols a = 3 /\
       forall r, 0 <= r < i ->
         m_coef a r col
         = (rp_factor g (zl_read b pface stencil (2 * r + 1))
            * gv_at (face_cmass b (zl_read b pface stencil (2 * r))) col
            - gv_at (face_cmass b pface) col)%D)
    (geom_row g b pface stencil) 0 (zones_per_stencil b stencil)
    (m_resize (zones_per_stencil b stencil) 3) Hz) as Hinv.
  destruct Hinv as (H1 & H2 & H3).
  - split; [reflexivity |]. split; [reflexivity |]. intros r Hr'. lia.
  - intros i a Hi (Ha1 & Ha2 & Ha3).
    split; [exact Ha1 |]. split; [exact Ha2 |].
    intros r Hr'. rewrite geom_row_coef by exact Hc.
    destruct (Z.eqb_spec r i) as [-> | Hne]; [reflexivity |].
    apply Ha3. lia.
  - split; [exact H1 |]. split; [exact H2 |]. apply H3. exact Hr.
Qed.

(** [ComputeOneMatrix] reads the zone list and the centres of mass of the
    block it is given and stores the transposed geometry matrix. *)
Lemma ComputeOneMatrix_At (b : StenciledBlock double) (pface stencil : Z) :
  geom_matr_At (ComputeOneMatrix g pface stencil b) pface stencil
  = m_transpose (geom_matr_A g b pface stencil).
Proof. unfold ComputeOneMatrix. cbn. now rewrite upd2_same. Qed.

End Matrices.

(** C6 (as amended).  In [ComputeOneMatrix], the scale factor is [1 + r] for
    plane -1, [1 / (1 + r)] for plane +1 and 1 for plane 0, where [r] is
    [drp_ratio]; for every zone row of a stencil and each of the 3 axes, the
    coefficient of the geometry matrix is
    [scale * zone.center_of_mass - principal.center_of_mass], and it is the
    coefficient stored, transposed, in [geom_matr_At].  In exact arithmetic
    the factors of the planes -1 and +1 multiply to 1 for every [r > 0]. *)
Theorem C6_radial_scaling
    {double : Type} {ops : DoubleOps double} {kern : Kernels double}
    (g : GridBlock double) (b : StenciledBlock double) (pface stencil row col : Z)
    (gR : GridBlock R) :
  0 <= row < zones_per_stencil b stencil ->
  0 <= col < 3 ->
  (0 < drp_ratio gR)%R ->
  let face := zl_read b pface stencil (2 * row) in
  let plane := zl_read b pface stencil (2 * row + 1) in
  let entry :=
    (rp_factor g plane * gv_at (face_cmass b face) col - gv_at (face_cmass b pface) col)%D in
  rp_factor g (-1) = (d_one + drp_ratio g)%D /\
  rp_factor g 1 = (d_one / (d_one + drp_ratio g))%D /\
  rp_factor g 0 = d_one /\
  m_coef (geom_matr_A g b pface stencil) row col = entry /\
  m_coef (geom_matr_At (ComputeOneMatrix g pface stencil b) pface stencil) col row = entry /\
  (rp_factor gR (-1) * rp_factor gR 1)%R = 1%R.
Proof.
  intros Hr Hc Hpos face plane entry.
  destruct (geom_matr_A_coef g b pface stencil row col Hr Hc) as (_ & _ & HA).
  repeat split; try reflexivity.
  - exact HA.
  - rewrite ComputeOneMatrix_At. exact HA.
  - unfold rp_factor. cbn. field. lra.
Qed.

Lemma C6_radial_scaling_witness :
  m_coef (geom_matr_A tri_exact (BuildAllStencils tri_exact 0 tri_storage) 0 0) 4 2
  = (rp_factor tri_exact 1 * gv_at (face_cmass tri_storage 0) 2
     - gv_at (face_cmass tri_storage 0) 2)%R /\
  (rp_factor tri_exact (-1) * rp_factor tri_exact 1)%R = 1%R.
Proof.
  destruct (C6_radial_scaling tri_exact (BuildAllStencils tri_exact 0 tri_storage)
              0 0 4 2 tri_exact) as (_ & _ & _ & HA & _ & Hp).
  - vm_compute. split; [discriminate | reflexivity].
  - lia.
  - cbn. lra.
  - split; [exact HA | exact Hp].
Defined.

(** C6 (counterexample).  In binary64, with [drp_ratio] 17/32, the factors of
    the planes -1 and +1 are 1.53125 and the rounded quotient 1 / 1.53125;
    their product is the greatest binary64 number below 1. *)
Lemma C6_product_in_binary64 :
  PrimFloat.ltb 0 (drp_ratio tri_binary64) = true /\
  rp_factor tri_binary64 (-1) = 1.53125%float /\
  PrimFloat.eqb (rp_factor tri_binary64 (-1) * rp_factor tri_binary64 1)%float 1 = false /\
  (rp_factor tri_binary64 (-1) * rp_factor tri_binary64 1)%float
  = PrimFloat.next_down 1.
Proof. repeat split; vm_compute; reflexivity. Qed.

(** ** The order of the phases *)

Section Phases.
Context {double : Type} {ops : DoubleOps double} {kern : Kernels double}.
Variable g : GridBlock double.
Variable fresh_int : Z.

Lemma MarkStenciledArea_calls (b : StenciledBlock double) :
  calls (MarkStenciledArea g b) = calls b ++ [call_MarkStenciledArea].
Proof.
  assert (forall b : StenciledBlock double, calls (mark_interior g b) = calls b) as Hm.
  { intros b'. unfold mark_interior.
    apply (for_le_frame calls). intros i s. now apply (for_le_frame calls). }
  assert (forall b : StenciledBlock double, calls (clip_SE g b) = calls b) as Hse.
  { intros b'. unfold clip_SE.
    apply (for_le_frame calls). intros i s. now apply (for_le_frame calls). }
  assert (forall b : StenciledBlock double, calls (clip_N g b) = calls b) as Hn.
  { intros b'. unfold clip_N.
    apply (for_le_frame calls). intros i s. now apply (for_le_frame calls). }
  unfold MarkStenciledArea.
  destruct (verts_per_face g =? 3); rewrite ?Hn, ?Hse, Hm; reflexivity.
Qed.

Lemma stencils_of_face_calls (pface : Z) (b : StenciledBlock double) :
  calls (stencils_of_face g pface b) = calls b.
Proof.
  unfold stencils_of_face. rewrite (for_le_frame calls) by reflexivity.
  unfold central_stencil. cbn. now rewrite (for_lt_frame calls) by reflexivity.
Qed.

Lemma BuildAllStencils_calls (b : StenciledBlock double) :
  calls (BuildAllStencils g fresh_int b) = calls b ++ [call_BuildAllStencils].
Proof.
  unfold BuildAllStencils.
  rewrite (for_lt_frame calls).
  2:{ intros i s. destruct (BITS_RAISED _ _); [apply stencils_of_face_calls | reflexivity]. }
  rewrite (for_lt_frame calls).
  2:{ intros i s. destruct (BITS_RAISED _ _); [| reflexivity].
      now apply (for_lt_frame calls). }
  cbn. now rewrite (for_lt_frame calls) by reflexivity.
Qed.

Lemma ComputeMoments_calls (b : StenciledBlock double) :
  calls (ComputeMoments g b) = calls b ++ [call_ComputeMoments].
Proof.
  unfold ComputeMoments.
  rewrite (for_lt_frame calls).
  2:{ intros i s. unfold ComputeMoments_edge. now destruct (BITS_RAISED _ _). }
  rewrite (for_lt_frame calls); [reflexivity |].
  intros i s. unfold ComputeMoments_face.
  destruct (BITS_RAISED _ _); [| destruct (shape g)]; reflexivity.
Qed.

(** A loop whose passes only append matrix builds to the history only
    appends matrix builds. *)
Lemma iterate_matrix_calls (body : Z -> StenciledBlock double -> StenciledBlock double) :
  (forall i b, exists ms, calls (body i b) = calls b ++ ms /\ forallb is_matrix_call ms = true) ->
  forall n lo b,
    exists ms, calls (iterate n lo body b) = calls b ++ ms /\ forallb is_matrix_call ms = true.
Proof.
  intros Hbody. induction n as [|n IH]; intros lo b.
  - exists []. split; [now rewrite app_nil_r | reflexivity].
  - cbn [iterate]. destruct (Hbody lo b) as (ms1 & H1 & F1).
    destruct (IH (lo + 1) (body lo b)) as (ms2 & H2 & F2).
    exists (ms1 ++ ms2). split.
    + rewrite H2, H1. now rewrite app_assoc.
    + rewrite forallb_app, F1, F2. reflexivity.
Qed.

Lemma matrix_loop_calls (b : StenciledBlock double) :
  exists ms,
    calls (for_lt 0 (n_faces_withghost g)
             (fun pface b =>
                if BITS_RAISED (face_mask b pface) (GEOELM_STEN g) then
                  for_lt 0 (n_stencils g)
                    (fun stencil b => ComputeOneMatrix g pface stencil b) b
                else b) b)
    = calls b ++ ms /\ forallb is_matrix_call ms = true.
Proof.
  apply iterate_matrix_calls. intros i s.
  destruct (BITS_RAISED _ _).
  - apply iterate_matrix_calls. intros j s'.
    exists [call_ComputeOneMatrix i j]. split; reflexivity.
  - exists []. split; [now rewrite app_nil_r | reflexivity].
Qed.

(** The history of the construction of a block followed by the association
    of its mesh. *)
Lemma construction_calls (b : StenciledBlock double) :
  exists ms,
    calls (AssociateMesh g fresh_int (StenciledBlock_ctor g b))
    = calls b
      ++ [call_MarkStenciledArea; call_GridBlock_AssociateMesh;
          call_BuildAllStencils; call_ComputeMoments]
      ++ ms /\
    forallb is_matrix_call ms = true.
Proof.
  unfold AssociateMesh.
  match goal with
  | |- context [for_lt 0 (n_faces_withghost g) ?body ?s] =>
      destruct (matrix_loop_calls s) as (ms & Hms & Fms)
  end.
  exists ms. split; [| exact Fms].
  rewrite Hms, ComputeMoments_calls, BuildAllStencils_calls.
  unfold StenciledBlock_ctor, SetDimensions. cbn [calls set_face_mask enter set_geom_matr_LU
    set_geom_matr_At set_stencil_zonelist].
  rewrite MarkStenciledArea_calls.
  rewrite <- !app_assoc. reflexivity.
Qed.

(** C4 (as amended).  The construction of a block followed by the
    association of its mesh runs the phases in the order region marking (in
    the constructor, through [SetDimensions]), then, in [AssociateMesh], the
    association of the base class, the stencil build, the moments, and last
    the matrix builds: the calls appended to the history are exactly these
    four, in this order, followed by calls of [ComputeOneMatrix] only. *)
Theorem C4_order_of_phases (b : StenciledBlock double) :
  exists ms,
    let appended :=
      [call_MarkStenciledArea; call_GridBlock_AssociateMesh;
       call_BuildAllStencils; call_ComputeMoments] ++ ms in
    calls (AssociateMesh g fresh_int (StenciledBlock_ctor g b)) = calls b ++ appended /\
    forallb is_matrix_call ms = true /\
    called_before call_MarkStenciledArea call_BuildAllStencils appended = true /\
    called_before call_BuildAllStencils call_ComputeMoments appended = true /\
    forall p s,
      called_before call_ComputeMoments (call_ComputeOneMatrix p s) appended = true.
Proof.
  destruct (construction_calls b) as (ms & Hms & Fms).
  exists ms. cbn zeta. split; [exact Hms |]. split; [exact Fms |].
  repeat split.
  intros p s. unfold called_before. cbn.
  destruct (first_call (call_ComputeOneMatrix p s) ms); reflexivity.
Qed.

End Phases.

(** C4 (counterexample).  For the triangular block built from storage with
    an empty history, [ComputeMoments] is entered fourth, after
    [MarkStenciledArea] (first) and [BuildAllStencils] (third): the moments do
    not come before the region marking and the stencil build. *)
Lemma C4_moments_after_stencil_build :
  calls tri_storage = [] /\
  take 4 (calls (AssociateMesh tri_exact 0 (StenciledBlock_ctor tri_exact tri_storage)))
  = [call_MarkStenciledArea; call_GridBlock_AssociateMesh;
     call_BuildAllStencils; call_ComputeMoments] /\
  called_before call_ComputeMoments call_MarkStenciledArea
    (calls (AssociateMesh tri_exact 0 (StenciledBlock_ctor tri_exact tri_storage))) = false /\
  called_before call_ComputeMoments call_BuildAllStencils
    (calls (AssociateMesh tri_exact 0 (StenciledBlock_ctor tri_exact tri_storage))) = false.
Proof.
  destruct (construction_calls tri_exact 0 tri_storage) as (ms & Hms & _).
  rewrite Hms. repeat split.
Qed.

(** ** The whole of [AssociateMesh] *)

Section Pipeline.
Context {double : Type} {ops : DoubleOps double} {kern : Kernels double}.
Variable g : GridBlock double.
Variable fresh_int : Z.

Lemma ComputeMoments_frame (b : StenciledBlock double) :
  face_mask (ComputeMoments g b) = face_mask b /\
  zones_per_stencil (ComputeMoments g b) = zones_per_stencil b /\
  stencil_zonelist (ComputeMoments g b) = stencil_zonelist b.
Proof.
  assert (forall i (s : StenciledBlock double),
            face_mask (ComputeMoments_edge g i s) = face_mask s /\
            zones_per_stencil (ComputeMoments_edge g i s) = zones_per_stencil s /\
            stencil_zonelist (ComputeMoments_edge g i s) = stencil_zonelist s) as He.
  { intros i s. unfold ComputeMoments_edge. now destruct (BITS_RAISED _ _). }
  assert (forall i (s : StenciledBlock double),
            face_mask (ComputeMoments_face g i s) = face_mask s /\
            zones_per_stencil (ComputeMoments_face g i s) = zones_per_stencil s /\
            stencil_zonelist (ComputeMoments_face g i s) = stencil_zonelist s) as Hf.
  { intros i s. unfold ComputeMoments_face.
    destruct (BITS_RAISED _ _); [| destruct (shape g)]; repeat split. }
  unfold ComputeMoments. repeat split.
  - rewrite (for_lt_frame face_mask) by (intros; apply He).
    now rewrite (for_lt_frame face_mask) by (intros; apply Hf).
  - rewrite (for_lt_frame zones_per_stencil) by (intros; apply He).
    now rewrite (for_lt_frame zones_per_stencil) by (intros; apply Hf).
  - rewrite (for_lt_frame stencil_zonelist) by (intros; apply He).
    now rewrite (for_lt_frame stencil_zonelist) by (intros; apply Hf).
Qed.

(** The geometry matrix is a function of the zone counts, the zone lists and
    the centres of mass. *)
Lemma geom_matr_A_ext (b b' : StenciledBlock double) (pface stencil : Z) :
  zones_per_stencil b = zones_per_stencil b' ->
  stencil_zonelist b = stencil_zonelist b' ->
  face_cmass b = face_cmass b' ->
  geom_matr_A g b pface stencil = geom_matr_A g b' pface stencil.
Proof.
  intros Hz Hl Hc. unfold geom_matr_A, geom_row, zl_read. now rewrite Hz, Hl, Hc.
Qed.

Lemma ComputeOneMatrix_At_other (b : StenciledBlock double) (pface stencil p s : Z) :
  p <> pface \/ s <> stencil ->
  geom_matr_At (ComputeOneMatrix g pface stencil b) p s = geom_matr_At b p s.
Proof. intros Hne. unfold ComputeOneMatrix. cbn. now rewrite upd2_other. Qed.

Lemma matrices_of_face (pface : Z) (b : StenciledBlock double) :
  let b' :=
    for_lt 0 (n_stencils g) (fun stencil b => ComputeOneMatrix g pface stencil b) b in
  same_geometry b b' /\
  (forall s, 0 <= s < n_stencils g ->
     geom_matr_At b' pface s = m_transpose (geom_matr_A g b pface s)) /\
  (forall p s, p <> pface -> geom_matr_At b' p s = geom_matr_At b p s).
Proof.
  assert (0 <= n_stencils g) as Hn
    by (unfold n_stencils, verts_per_face; destruct (shape g); lia).
  apply (for_lt_inv
    (fun i s =>
       same_geometry b s /\
       (forall k, 0 <= k < i ->
          geom_matr_At s pface k = m_transpose (geom_matr_A g b pface k)) /\
       (forall p k, p <> pface -> geom_matr_At s p k = geom_matr_At b p k)));
    [exact Hn | |].
  - split; [repeat split |]. split; [intros k Hk; lia | reflexivity].
  - intros i s Hi ((Hm & Hz & Hl & Hc) & Hdone & Hother).
    split; [repeat split; assumption |]. split.
    + intros k Hk. destruct (Z.eq_dec k i) as [-> | Hne].
      * rewrite ComputeOneMatrix_At. f_equal. now apply geom_matr_A_ext.
      * rewrite ComputeOneMatrix_At_other by (right; exact Hne). apply Hdone. lia.
    + intros p k Hp. rewrite ComputeOneMatrix_At_other by (left; exact Hp).
      now apply Hother.
Qed.

Lemma matrices_of_block (b : StenciledBlock double) :
  let b' :=
    for_lt 0 (n_faces_withghost g)
      (fun pface b =>
         if BITS_RAISED (face_mask b pface) (GEOELM_STEN g) then
           for_lt 0 (n_stencils g) (fun stencil b => ComputeOneMatrix g pface stencil b) b
         else b) b in
  same_geometry b b' /\
  (forall p s, 0 <= p < n_faces_withghost g -> eligible g b p -> 0 <= s < n_stencils g ->
     geom_matr_At b' p s = m_transpose (geom_matr_A g b p s)).
Proof.
  intros b'. subst b'.
  destruct (Z_lt_le_dec (n_faces_withghost g) 0) as [Hneg | Hpos].
  { rewrite !(for_lt_empty _ 0 (n_faces_withghost g)) by lia.
    split; [repeat split |]. intros p s Hp. lia. }
  enough (same_geometry b
            (for_lt 0 (n_faces_withghost g)
               (fun pface b =>
                  if BITS_RAISED (face_mask b pface) (GEOELM_STEN g) then
                    for_lt 0 (n_stencils g)
                      (fun stencil b => ComputeOneMatrix g pface stencil b) b
                  else b) b) /\
          (forall p s, 0 <= p < n_faces_withghost g -> eligible g b p ->
             0 <= s < n_stencils g ->
             geom_matr_At
               (for_lt 0 (n_faces_withghost g)
                  (fun pface b =>
                     if BITS_RAISED (face_mask b pface) (GEOELM_STEN g) then
                       for_lt 0 (n_stencils g)
                         (fun stencil b => ComputeOneMatrix g pface stencil b) b
                     else b) b) p s
             = m_transpose (geom_matr_A g b p s)) /\
          (forall p s, n_faces_withghost g <= p ->
             geom_matr_At
               (for_lt 0 (n_faces_withghost g)
                  (fun pface b =>
                     if BITS_RAISED (face_mask b pface) (GEOELM_STEN g) then
                       for_lt 0 (n_stencils g)
                         (fun stencil b => ComputeOneMatrix g pface stencil b) b
                     else b) b) p s
             = geom_matr_At b p s)) as (H1 & H2 & _)
    by (split; [exact H1 | exact H2]).
  apply (for_lt_inv
    (fun i s =>
       same_geometry b s /\
       (forall p k, 0 <= p < i -> eligible g b p -> 0 <= k < n_stencils g ->
          geom_matr_At s p k = m_transpose (geom_matr_A g b p k)) /\
       (forall p k, i <= p -> geom_matr_At s p k = geom_matr_At b p k)));
    [exact Hpos | |].
  - split; [repeat split |]. split; [intros p k Hp; lia | reflexivity].
  - intros i s Hi ((Hm & Hz & Hl & Hc) & Hdone & Hrest).
    destruct (BITS_RAISED (face_mask s i) (GEOELM_STEN g)) eqn:He.
    + destruct (matrices_of_face i s) as ((Hm' & Hz' & Hl' & Hc') & Hface & Hother).
      split; [repeat split; congruence |]. split.
      * intros p k Hp Hel Hk. destruct (Z.eq_dec p i) as [-> | Hne].
        -- rewrite Hface by exact Hk. f_equal. now apply geom_matr_A_ext.
        -- rewrite Hother by exact Hne. apply Hdone; [lia | exact Hel | exact Hk].
      * intros p k Hp. rewrite Hother by lia. apply Hrest. lia.
    + split; [repeat split; assumption |]. split.
      * intros p k Hp Hel Hk. destruct (Z.eq_dec p i) as [-> | Hne].
        -- unfold eligible in Hel. rewrite <- Hm in Hel. congruence.
        -- apply Hdone; [lia | exact Hel | exact Hk].
      * intros p k Hp. apply Hrest. lia.
Qed.

(** After [AssociateMesh], every face of the stenciled area has its zone
    lists, the centre of mass of every existing face is the one
    [ComputeMoments] computes, and the matrix stored for each stencil of a
    face of the stenciled area is built from these zone lists and centres of
    mass: the matrix builds come after the stencil build and the moments. *)
Lemma AssociateMesh_matrices (b : StenciledBlock double) (pface stencil row col : Z) :
  let b' := AssociateMesh g fresh_int b in
  0 <= pface < n_faces_withghost g ->
  eligible g b' pface ->
  0 <= stencil < n_stencils g ->
  0 <= row < zones_per_stencil b' stencil ->
  0 <= col < 3 ->
  stencil_zonelist b' pface stencil = Some (zones_of g pface stencil) /\
  (forall face, 0 <= face < n_faces_withghost g ->
     BITS_RAISED (face_mask b' face) (GEOELM_NEXI g) = false ->
     face_cmass b' face
     = gv_over (gv_plus (gv_scale (sub_center1 g face) (sub_area1 g face))
                        (gv_scale (sub_center2 g face) (sub_area2 g face)))
               (sub_area1 g face + sub_area2 g face)%D) /\
  m_coef (geom_matr_At b' pface stencil) col row
  = (rp_factor g (zl_read b' pface stencil (2 * row + 1))
     * gv_at (face_cmass b' (zl_read b' pface stencil (2 * row))) col
     - gv_at (face_cmass b' pface) col)%D.
Proof.
  intros b' Hp Hel Hs Hr Hc. unfold b' in *. unfold AssociateMesh in *.
  set (b0 := set_face_mask (GridBlock_AssociateMesh g (face_mask b))
                           (enter call_GridBlock_AssociateMesh b)) in *.
  set (b1 := BuildAllStencils g fresh_int b0) in *.
  set (b2 := ComputeMoments g b1) in *.
  destruct (matrices_of_block b2) as ((Hm3 & Hz3 & Hl3 & Hc3) & HAt).
  set (b3 := for_lt 0 (n_faces_withghost g) _ b2) in *.
  destruct (ComputeMoments_frame b1) as (Hm2 & Hz2 & Hl2). fold b2 in Hm2, Hz2, Hl2.
  destruct (BuildAllStencils_result g fresh_int b0) as (Hm1 & _ & _ & Hzones).
  fold b1 in Hm1, Hzones.
  assert (eligible g b2 pface) as Hel2 by (unfold eligible in *; now rewrite <- Hm3).
  assert (eligible g b0 pface) as Hel0
    by (unfold eligible in *; now rewrite <- Hm1, <- Hm2).
  split; [| split].
  - rewrite Hl3, Hl2. now apply Hzones.
  - intros face Hf Hex. rewrite Hc3. unfold b2.
    apply ComputeMoments_existing_face; [exact Hf |].
    now rewrite <- Hm2, <- Hm3.
  - rewrite HAt by assumption. cbn [m_transpose m_coef].
    rewrite (geom_matr_A_ext b2 b3) by congruence.
    apply geom_matr_A_coef; assumption.
Qed.

End Pipeline.

(** ** Runs on the triangular block *)

(** The zone lists [BuildAllStencils] leaves for face 0, the only face of
    the storage on which [GEOELM_STEN] is raised, and the zone counts. *)
Example tri_zone_lists :
  map (stencil_zonelist (BuildAllStencils tri_exact 99 tri_storage) 0) [0; 1; 2; 3; 4; 5; 6; 7]
  = [Some [1; 0; 2; 0; 3; 0; 0; -1; 0; 1];
     Some [1; 0; 4; 0; 5; 0; 1; -1];
     Some [2; 0; 7; 0; 6; 0; 2; -1];
     Some [3; 0; 8; 0; 9; 0; 3; -1];
     Some [1; 0; 4; 0; 5; 0; 1; 1];
     Some [2; 0; 7; 0; 6; 0; 2; 1];
     Some [3; 0; 8; 0; 9; 0; 3; 1];
     None] /\
  stencil_zonelist (BuildAllStencils tri_exact 99 tri_storage) 1 0 = None /\
  map (zones_per_stencil (BuildAllStencils tri_exact 99 tri_storage)) [0; 1; 2; 3; 4; 5; 6]
  = [5; 4; 4; 4; 4; 4; 4].
Proof. repeat split; vm_compute; reflexivity. Qed.

(** The faces on which [MarkStenciledArea] leaves [GEOELM_STEN] raised: the
    marking pass visits the faces 0 to 11, the SE wedge is made of the faces
    4, 6 and 7 and the N wedge of the faces 8, 10 and 11. *)
Example tri_stenciled_area :
  filter (fun f => BITS_RAISED (face_mask (MarkStenciledArea tri_exact tri_storage) f) 16)
         [0; 1; 2; 3; 4; 5; 6; 7; 8; 9; 10; 11; 12]
  = [0; 1; 2; 3; 5; 9] /\
  filter (in_marked_region tri_exact) [0; 1; 2; 3; 4; 5; 6; 7; 8; 9; 10; 11; 12]
  = [0; 1; 2; 3; 4; 5; 6; 7; 8; 9; 10; 11] /\
  filter (in_SE_wedge tri_exact) [0; 1; 2; 3; 4; 5; 6; 7; 8; 9; 10; 11; 12] = [4; 6; 7] /\
  filter (in_N_wedge tri_exact) [0; 1; 2; 3; 4; 5; 6; 7; 8; 9; 10; 11; 12] = [8; 10; 11].
Proof. repeat split; vm_compute; reflexivity. Qed.

(** The history of a construction followed by an association starts with
    the four phases and goes on with the 42 matrix builds of the six faces of
    the stenciled area. *)
Example tri_history :
  take 6 (calls (AssociateMesh tri_exact 99 (StenciledBlock_ctor tri_exact tri_storage)))
  = [call_MarkStenciledArea; call_GridBlock_AssociateMesh; call_BuildAllStencils;
     call_ComputeMoments; call_ComputeOneMatrix 0 0; call_ComputeOneMatrix 0 1] /\
  length (calls (AssociateMesh tri_exact 99 (StenciledBlock_ctor tri_exact tri_storage)))
  = 46%nat.
Proof. split; vm_compute; reflexivity. Qed.

(* ===================================================================== *)
(** * Further properties                                                 *)
(* ===================================================================== *)

(** ** More on [MarkStenciledArea] *)

Lemma LOWER_RAISE (x bits : Z) : LOWER_BITS (RAISE_BITS x bits) bits = LOWER_BITS x bits.
Proof.
  unfold LOWER_BITS, RAISE_BITS. apply Z.bits_inj'. intros n Hn.
  rewrite !Z.land_spec, Z.lor_spec, Z.lnot_spec by exact Hn.
  now destruct (Z.testbit x n), (Z.testbit bits n).
Qed.

(** Raising or lowering [bits] leaves the bits of a disjoint mask alone. *)
Lemma RAISE_BITS_disjoint (x bits other : Z) :
  Z.land other bits = 0 -> Z.land (RAISE_BITS x bits) other = Z.land x other.
Proof.
  intros Hd. unfold RAISE_BITS. apply Z.bits_inj'. intros n Hn.
  assert (Z.testbit (Z.land other bits) n = false) as Hb by (rewrite Hd; apply Z.bits_0).
  rewrite Z.land_spec in Hb. rewrite !Z.land_spec, Z.lor_spec.
  destruct (Z.testbit x n), (Z.testbit bits n), (Z.testbit other n); cbn in *; congruence.
Qed.

Lemma LOWER_BITS_disjoint (x bits other : Z) :
  Z.land other bits = 0 -> Z.land (LOWER_BITS x bits) other = Z.land x other.
Proof.
  intros Hd. unfold LOWER_BITS. apply Z.bits_inj'. intros n Hn.
  assert (Z.testbit (Z.land other bits) n = false) as Hb by (rewrite Hd; apply Z.bits_0).
  rewrite Z.land_spec in Hb. rewrite !Z.land_spec, Z.lnot_spec by exact Hn.
  destruct (Z.testbit x n), (Z.testbit bits n), (Z.testbit other n); cbn in *; congruence.
Qed.

Section MarkingMore.
Context {double : Type} {kern : Kernels double}.
Variable g : GridBlock double.

(** The mask [MarkStenciledArea] leaves on a face, in full. *)
Lemma MarkStenciledArea_mask (b : StenciledBlock double) (f : Z) :
  face_mask (MarkStenciledArea g b) f
  = let m := if in_marked_region g f then RAISE_BITS (face_mask b f) (GEOELM_STEN g)
             else face_mask b f in
    if in_clipped_wedges g f then LOWER_BITS m (GEOELM_STEN g) else m.
Proof.
  unfold MarkStenciledArea, in_clipped_wedges. cbn zeta.
  destruct (verts_per_face g =? 3); cbn [andb].
  - rewrite clip_N_mask, clip_SE_mask, mark_interior_mask. cbn [face_mask enter].
    destruct (in_SE_wedge g f), (in_N_wedge g f); cbn [orb];
      rewrite ?LOWER_BITS_idem; reflexivity.
  - now rewrite mark_interior_mask.
Qed.

(** X1.  Whether a face is in the stenciled area after [MarkStenciledArea]:
    never if it is in one of the two wedges of a triangular block, always if
    the marking pass visits it and it is in no wedge, and as before the call
    if no loop visits it (a mark already on such a face stays). *)
Theorem X1_stenciled_area_decided (b : StenciledBlock double) (f : Z) :
  GEOELM_STEN g <> 0 ->
  BITS_RAISED (face_mask (MarkStenciledArea g b) f) (GEOELM_STEN g)
  = if in_clipped_wedges g f then false
    else if in_marked_region g f then true
    else BITS_RAISED (face_mask b f) (GEOELM_STEN g).
Proof.
  intros Hnz. rewrite MarkStenciledArea_mask. cbn zeta.
  destruct (in_clipped_wedges g f), (in_marked_region g f);
    rewrite ?BITS_RAISED_LOWER by exact Hnz; rewrite ?BITS_RAISED_RAISE; reflexivity.
Qed.

(** X2.  [MarkStenciledArea] changes no flag other than [GEOELM_STEN]: the
    bits of a mask disjoint from [GEOELM_STEN] ([GEOELM_NEXI], say) are on
    every face what they were, so a face exists after the call exactly when
    it did before. *)
Theorem X2_marking_keeps_other_flags (b : StenciledBlock double) (f other : Z) :
  Z.land other (GEOELM_STEN g) = 0 ->
  Z.land (face_mask (MarkStenciledArea g b) f) other = Z.land (face_mask b f) other /\
  BITS_RAISED (face_mask (MarkStenciledArea g b) f) other
  = BITS_RAISED (face_mask b f) other.
Proof.
  intros Hd.
  assert (Z.land (face_mask (MarkStenciledArea g b) f) other = Z.land (face_mask b f) other)
    as Heq.
  { rewrite MarkStenciledArea_mask. cbn zeta.
    destruct (in_clipped_wedges g f), (in_marked_region g f);
      rewrite ?LOWER_BITS_disjoint, ?RAISE_BITS_disjoint by exact Hd; reflexivity. }
  split; [exact Heq |]. unfold BITS_RAISED. now rewrite Heq.
Qed.

(** X3.  Marking is idempotent: a second [MarkStenciledArea] leaves every
    mask as the first one left it, whatever the masks were before. *)
Theorem X3_marking_idempotent (b : StenciledBlock double) (f : Z) :
  face_mask (MarkStenciledArea g (MarkStenciledArea g b)) f
  = face_mask (MarkStenciledArea g b) f.
Proof.
  rewrite (MarkStenciledArea_mask (MarkStenciledArea g b)), MarkStenciledArea_mask.
  cbn zeta.
  destruct (in_clipped_wedges g f), (in_marked_region g f);
    rewrite ?LOWER_RAISE, ?LOWER_BITS_idem, ?RAISE_BITS_idem; reflexivity.
Qed.

End MarkingMore.

Lemma X1_stenciled_area_decided_witness :
  BITS_RAISED (face_mask (MarkStenciledArea tri_exact tri_storage) 8) (GEOELM_STEN tri_exact)
  = false /\
  BITS_RAISED (face_mask (MarkStenciledArea tri_exact tri_storage) 5) (GEOELM_STEN tri_exact)
  = true.
Proof.
  split.
  - rewrite (X1_stenciled_area_decided tri_exact tri_storage 8); [reflexivity |].
    cbn. lia.
  - rewrite (X1_stenciled_area_decided tri_exact tri_storage 5); [reflexivity |].
    cbn. lia.
Defined.

Lemma X2_marking_keeps_other_flags_witness :
  BITS_RAISED (face_mask (MarkStenciledArea tri_exact tri_storage) 9) (GEOELM_NEXI tri_exact)
  = BITS_RAISED (face_mask tri_storage 9) (GEOELM_NEXI tri_exact).
Proof.
  apply (X2_marking_keeps_other_flags tri_exact tri_storage 9 (GEOELM_NEXI tri_exact)).
  reflexivity.
Defined.

(** ** More on [BuildAllStencils] *)

(** A loop keeps what each of its passes keeps. *)
Lemma for_lt_keeps {S : Type} (P : S -> Prop) (body : Z -> S -> S) (lo hi : Z) (s : S) :
  (forall i s', lo <= i < hi -> P s' -> P (body i s')) ->
  P s -> P (for_lt lo hi body s).
Proof.
  intros Hbody Hs. unfold for_lt.
  apply (iterate_inv (fun _ s' => P s') body (Z.to_nat (hi - lo)) lo s Hs).
  intros i s' Hi. apply Hbody. lia.
Qed.

Lemma for_le_keeps {S : Type} (P : S -> Prop) (body : Z -> S -> S) (lo hi : Z) (s : S) :
  (forall i s', lo <= i <= hi -> P s' -> P (body i s')) ->
  P s -> P (for_le lo hi body s).
Proof.
  intros Hbody Hs. unfold for_le.
  apply (iterate_inv (fun _ s' => P s') body (Z.to_nat (hi - lo + 1)) lo s Hs).
  intros i s' Hi. apply Hbody. lia.
Qed.

Section StencilsMore.
Context {double : Type} {kern : Kernels double}.
Variable g : GridBlock double.
Variable fresh_int : Z.

(** Writing through a pointer never allocates. *)
Lemma zl_write_None (pface stencil k v : Z) (b : StenciledBlock double) (p s : Z) :
  stencil_zonelist b p s = None ->
  stencil_zonelist (zl_write pface stencil k v b) p s = None.
Proof.
  intros Hn. unfold zl_write, upd2. cbn.
  destruct (Z.eqb_spec p pface) as [-> |], (Z.eqb_spec s stencil) as [-> |]; cbn;
    try exact Hn.
  now rewrite Hn.
Qed.

Lemma stencils_of_face_None (pface : Z) (b : StenciledBlock double) (p s : Z) :
  stencil_zonelist b p s = None ->
  stencil_zonelist (stencils_of_face g pface b) p s = None.
Proof.
  intros Hn. unfold stencils_of_face.
  apply (for_le_keeps (fun b => stencil_zonelist b p s = None)).
  { intros i b' _ Hb'. unfold directional_stencil, zl_write_pair.
    now repeat apply zl_write_None. }
  unfold central_stencil. repeat apply zl_write_None.
  apply (for_lt_keeps (fun b => stencil_zonelist b p s = None)); [| exact Hn].
  intros i b' _ Hb'. now repeat apply zl_write_None.
Qed.

Lemma stencil_slot_true (mask : Z -> Z) (p s : Z) :
  stencil_slot g mask p s = true <->
  0 <= p < n_faces_withghost g /\ BITS_RAISED (mask p) (GEOELM_STEN g) = true /\
  0 <= s < n_stencils g.
Proof.
  unfold stencil_slot. rewrite !andb_true_iff, !Z.leb_le, !Z.ltb_lt. tauto.
Qed.

(** Outside the slots of the stenciled area the table of zone lists that
    [BuildAllStencils] creates stays empty. *)
Lemma BuildAllStencils_None (b : StenciledBlock double) (p s : Z) :
  stencil_slot g (face_mask b) p s = false ->
  stencil_zonelist (BuildAllStencils g fresh_int b) p s = None.
Proof.
  intros Hslot. unfold BuildAllStencils.
  destruct (zones_per_stencil_loop g (enter call_BuildAllStencils b)) as (Hm1 & _ & _).
  set (b2 := for_lt 1 (n_stencils g) _ _) in *.
  set (b3 := set_stencil_zonelist (fun _ _ => None) b2).
  assert (face_mask b3 = face_mask b) as Hm3 by exact Hm1.
  enough (forall b' : StenciledBlock double,
            face_mask b' = face_mask b /\ stencil_zonelist b' p s = None ->
            face_mask
              (for_lt 0 (n_faces_withghost g)
                 (fun pface b =>
                    if BITS_RAISED (face_mask b pface) (GEOELM_STEN g)
                    then stencils_of_face g pface b else b) b') = face_mask b /\
            stencil_zonelist
              (for_lt 0 (n_faces_withghost g)
                 (fun pface b =>
                    if BITS_RAISED (face_mask b pface) (GEOELM_STEN g)
                    then stencils_of_face g pface b else b) b') p s = None) as Hzones.
  { apply Hzones.
    apply (for_lt_keeps
             (fun b' => face_mask b' = face_mask b /\ stencil_zonelist b' p s = None));
      [| split; [exact Hm3 | reflexivity]].
    intros i b' Hi [Hm' Hn'].
    destruct (BITS_RAISED (face_mask b' i) (GEOELM_STEN g)) eqn:He; [| now split].
    apply (for_lt_keeps
             (fun b'' => face_mask b'' = face_mask b /\ stencil_zonelist b'' p s = None));
      [| now split].
    intros j b'' Hj [Hm'' Hn'']. split; [exact Hm'' |].
    unfold zl_alloc. cbn. rewrite upd2_other; [exact Hn'' |].
    destruct (Z.eq_dec p i) as [-> |]; [| now left].
    destruct (Z.eq_dec s j) as [-> |]; [| now right].
    exfalso. rewrite Hm' in He.
    assert (stencil_slot g (face_mask b) i j = true) as Ht
      by (apply stencil_slot_true; repeat split; try lia; exact He).
    congruence. }
  intros b' Hb'.
  apply (for_lt_keeps
           (fun b'' => face_mask b'' = face_mask b /\ stencil_zonelist b'' p s = None));
    [| exact Hb'].
  intros i b'' Hi [Hm'' Hn''].
  destruct (BITS_RAISED (face_mask b'' i) (GEOELM_STEN g)); [| now split].
  split.
  - now rewrite (proj1 (stencils_of_face_frame g i b'')).
  - now apply stencils_of_face_None.
Qed.

(** The table of zone lists after [BuildAllStencils], slot by slot. *)
Lemma BuildAllStencils_zonelists (b : StenciledBlock double) (p s : Z) :
  stencil_zonelist (BuildAllStencils g fresh_int b) p s
  = if stencil_slot g (face_mask b) p s then Some (zones_of g p s) else None.
Proof.
  destruct (stencil_slot g (face_mask b) p s) eqn:Hslot.
  - apply stencil_slot_true in Hslot. destruct Hslot as (Hp & He & Hs).
    now apply (BuildAllStencils_result g fresh_int b).
  - now apply BuildAllStencils_None.
Qed.

(** X4.  [BuildAllStencils] allocates no zone list for a face outside the
    block, for a face outside the stenciled area, or for a stencil index
    outside [0 .. n_stencils - 1]: the table is created anew and such a slot
    is given no array, whatever the slot held before. *)
Theorem X4_no_zone_list_outside_the_area (b : StenciledBlock double) (p s : Z) :
  stencil_slot g (face_mask b) p s = false ->
  stencil_zonelist (BuildAllStencils g fresh_int b) p s = None.
Proof. apply BuildAllStencils_None. Qed.

End StencilsMore.

Lemma X4_no_zone_list_outside_the_area_witness :
  stencil_zonelist (BuildAllStencils tri_exact 99 tri_storage) 1 0 = None.
Proof.
  apply (X4_no_zone_list_outside_the_area tri_exact 99 tri_storage 1 0).
  reflexivity.
Defined.

Section StencilsShape.
Context {double : Type} {kern : Kernels double}.
Variable g : GridBlock double.

(** X5.  [BuildAllStencils] rebuilds the zone lists from scratch: they are a
    function of the masks and of the neighbour table alone.  Two blocks with
    the same masks get the same table of zone lists and the same zone counts,
    whatever their zone lists were before and whatever the allocator left in
    the fresh arrays (every cell of every array is assigned). *)
Theorem X5_zone_lists_rebuilt_from_scratch
    (b b' : StenciledBlock double) (fresh fresh' : Z) :
  face_mask b = face_mask b' ->
  stencil_zonelist (BuildAllStencils g fresh b)
  = stencil_zonelist (BuildAllStencils g fresh' b') /\
  forall s, 0 <= s < n_stencils g ->
    zones_per_stencil (BuildAllStencils g fresh b) s
    = zones_per_stencil (BuildAllStencils g fresh' b') s.
Proof.
  intros Hm. split.
  - apply functional_extensionality. intros p.
    apply functional_extensionality. intros s.
    now rewrite !BuildAllStencils_zonelists, Hm.
  - intros s Hs.
    destruct (BuildAllStencils_result g fresh b) as (_ & H0 & H4 & _).
    destruct (BuildAllStencils_result g fresh' b') as (_ & H0' & H4' & _).
    destruct (Z.eq_dec s 0) as [-> |]; [congruence |].
    rewrite H4, H4' by lia. reflexivity.
Qed.

Lemma zone_in_range (l : list Z) (k : nat) (face plane : Z) :
  zone l k = Some (face, plane) -> (2 * k < length l)%nat.
Proof.
  unfold zone. destruct (l !! (2 * k)%nat) eqn:E; [| discriminate].
  intros _. now apply lookup_lt_Some in E.
Qed.

(** Go through the zones of an explicit list. *)
Ltac each_zone Hz k :=
  let Hk := fresh "Hk" in
  pose proof (zone_in_range _ _ _ _ Hz) as Hk; cbn [length] in Hk;
  do 6 (destruct k as [| k];
        [ cbn in Hz; injection Hz as ? ?; lia
        | try (exfalso; lia) ]).

Lemma zones_of_planes (pface s : Z) (k : nat) (face plane : Z) :
  0 <= s < n_stencils g ->
  zone (zones_of g pface s) k = Some (face, plane) ->
  plane = -1 \/ plane = 0 \/ plane = 1.
Proof.
  unfold n_stencils. intros Hs.
  assert (verts_per_face g = 3 \/ verts_per_face g = 4) as Hv
    by (unfold verts_per_face; destruct (shape g); auto).
  destruct (Z.eq_dec s 0) as [-> | Hs0].
  - rewrite zones_of_central. unfold central_zones, verts_per_face.
    destruct (shape g);
      [change (Z.to_nat 3) with 3%nat | change (Z.to_nat 4) with 4%nat];
      cbn [neighbour_zones app]; intros Hz; each_zone Hz k.
  - destruct (Z_le_gt_dec s (verts_per_face g)) as [Hle | Hgt].
    + rewrite zones_of_down by lia. unfold directional_zones.
      intros Hz; each_zone Hz k.
    + assert (s = (s - verts_per_face g) + verts_per_face g) as -> by lia.
      rewrite zones_of_up by lia. unfold directional_zones.
      intros Hz; each_zone Hz k.
Qed.

Lemma zones_of_length (pface s : Z) :
  0 <= s < n_stencils g ->
  Z.of_nat (length (zones_of g pface s)) = 2 * (if s =? 0 then verts_per_face g + 2 else 4).
Proof.
  unfold n_stencils. intros Hs.
  assert (verts_per_face g = 3 \/ verts_per_face g = 4) as Hv
    by (unfold verts_per_face; destruct (shape g); auto).
  destruct (Z.eqb_spec s 0) as [-> | Hs0].
  - rewrite zones_of_central. unfold central_zones, verts_per_face.
    destruct (shape g); reflexivity.
  - destruct (Z_le_gt_dec s (verts_per_face g)) as [Hle | Hgt].
    + rewrite zones_of_down by lia. reflexivity.
    + assert (s = (s - verts_per_face g) + verts_per_face g) as -> by lia.
      rewrite zones_of_up by lia. reflexivity.
Qed.

(** X6.  Every zone list [BuildAllStencils] builds holds as many zones as
    [zones_per_stencil] says (twice as many integers), and the plane of
    every zone is -1, 0 or +1: no stencil reaches further than the shell
    below or the shell above. *)
Theorem X6_zone_counts_and_planes (fresh_int : Z) (b : StenciledBlock double) (p s : Z) :
  stencil_slot g (face_mask b) p s = true ->
  exists l : list Z,
    stencil_zonelist (BuildAllStencils g fresh_int b) p s = Some l /\
    Z.of_nat (length l) = 2 * zones_per_stencil (BuildAllStencils g fresh_int b) s /\
    forall (k : nat) (face plane : Z),
      zone l k = Some (face, plane) -> plane = -1 \/ plane = 0 \/ plane = 1.
Proof.
  intros Hslot. exists (zones_of g p s).
  rewrite BuildAllStencils_zonelists, Hslot.
  apply stencil_slot_true in Hslot. destruct Hslot as (Hp & He & Hs).
  split; [reflexivity |]. split.
  - rewrite zones_of_length by exact Hs.
    destruct (BuildAllStencils_result g fresh_int b) as (_ & H0 & H4 & _).
    destruct (Z.eqb_spec s 0) as [-> |]; [now rewrite H0 |].
    rewrite H4 by lia. reflexivity.
  - intros k face plane. now apply zones_of_planes.
Qed.

End StencilsShape.

Lemma X5_zone_lists_rebuilt_from_scratch_witness :
  stencil_zonelist (BuildAllStencils tri_exact 99 tri_storage)
  = stencil_zonelist
      (BuildAllStencils tri_exact 0 (BuildAllStencils tri_exact 99 tri_storage)).
Proof.
  apply (X5_zone_lists_rebuilt_from_scratch tri_exact tri_storage
           (BuildAllStencils tri_exact 99 tri_storage) 99 0).
  vm_compute. reflexivity.
Defined.

Lemma X6_zone_counts_and_planes_witness :
  exists l : list Z,
    stencil_zonelist (BuildAllStencils tri_exact 99 tri_storage) 0 5 = Some l /\
    Z.of_nat (length l) = 2 * zones_per_stencil (BuildAllStencils tri_exact 99 tri_storage) 5 /\
    forall (k : nat) (face plane : Z),
      zone l k = Some (face, plane) -> plane = -1 \/ plane = 0 \/ plane = 1.
Proof.
  apply (X6_zone_counts_and_planes tri_exact 99 tri_storage 0 5).
  reflexivity.
Defined.

(** ** The neighbour offsets of the directional stencils *)

Lemma InList_from_spec (l : Z -> Z) (val : Z) :
  forall (n : nat) (i : Z),
    0 <= i ->
    let r := InList_from n i l val in
    (r = -1 /\ forall j, i <= j < i + Z.of_nat n -> l j <> val) \/
    (i <= r < i + Z.of_nat n /\ l r = val /\ forall j, i <= j < r -> l j <> val).
Proof.
  induction n as [| n IH]; intros i Hi; cbn [InList_from].
  - left. split; [reflexivity |]. intros j Hj. lia.
  - destruct (Z.eqb_spec (l i) val) as [Heq | Hne].
    + right. split; [lia |]. split; [exact Heq |]. intros j Hj. lia.
    + destruct (IH (i + 1) ltac:(lia)) as [[Hr Hall] | (Hr & Hv & Hall)].
      * left. split; [exact Hr |]. intros j Hj.
        destruct (Z.eq_dec j i) as [-> |]; [exact Hne | apply Hall; lia].
      * right. split; [lia |]. split; [exact Hv |]. intros j Hj.
        destruct (Z.eq_dec j i) as [-> |]; [exact Hne | apply Hall; lia].
Qed.

Section Offsets.
Context {double : Type}.
Variable g : GridBlock double.

Lemma verts_per_face_cases : verts_per_face g = 3 \/ verts_per_face g = 4.
Proof. unfold verts_per_face. destruct (shape g); auto. Qed.

Lemma position_across_spec (pface s : Z) :
  let N := ff_local g pface s in
  let p := position_across g pface s in
  (p = -1 /\ forall j, 0 <= j < verts_per_face g -> ff_local g N j <> pface) \/
  (0 <= p < verts_per_face g /\ ff_local g N p = pface).
Proof.
  intros N p. unfold p, position_across, across, InList.
  pose proof verts_per_face_cases as Hv.
  destruct (InList_from_spec (ff_local g (ff_local g pface s)) pface
              (Z.to_nat (verts_per_face g)) 0 ltac:(lia)) as [[Hr Hall] | (Hr & Hval & _)].
  - left. split; [exact Hr |]. intros j Hj. apply Hall. lia.
  - right. split; [lia | exact Hval].
Qed.

(** X7.  The two offsets at which a directional stencil reads the neighbour
    list of the face across a side are within the list, [0 ..
    verts_per_face - 1], also when the principal face is not found in that
    list and the search returns -1 (the code does not test for it), as long
    as [square_fill] is at most 3. *)
Theorem X7_flank_offsets_within_the_list (pface s : Z) :
  square_fill g <= 3 ->
  let p := position_across g pface s in
  -1 <= p < verts_per_face g /\
  0 <= c_rem (p + 1) (verts_per_face g) < verts_per_face g /\
  0 <= c_rem (p + 4 - square_fill g) (verts_per_face g) < verts_per_face g.
Proof.
  intros Hsf p. pose proof verts_per_face_cases as Hv.
  assert (-1 <= p < verts_per_face g) as Hp.
  { destruct (position_across_spec pface s) as [[Hr _] | [Hr _]]; fold p in Hr; lia. }
  split; [exact Hp |]. unfold c_rem.
  split; apply Z.rem_bound_pos; lia.
Qed.

(** X8.  When the neighbour table is symmetric at the side (the principal
    face is among the neighbours of the face [N] across it) and
    [square_fill] is [5 - verts_per_face] (2 for triangles, 1 for
    quadrilaterals), the search finds the principal face, and the two offsets
    the directional stencil reads are two different positions of the list of
    [N], neither of them the position of the principal face. *)
Theorem X8_flanks_are_the_other_neighbours (pface s : Z) :
  square_fill g = 5 - verts_per_face g ->
  (exists j, 0 <= j < verts_per_face g /\ ff_local g (ff_local g pface s) j = pface) ->
  let N := ff_local g pface s in
  let p := position_across g pface s in
  let o1 := c_rem (p + 1) (verts_per_face g) in
  let o2 := c_rem (p + 4 - square_fill g) (verts_per_face g) in
  0 <= p < verts_per_face g /\ ff_local g N p = pface /\
  o1 <> p /\ o2 <> p /\ o1 <> o2.
Proof.
  intros Hsf (j & Hj & Hjv) N p o1 o2.
  destruct (position_across_spec pface s) as [[_ Hall] | [Hr Hval]].
  { exfalso. now apply (Hall j Hj). }
  fold p in Hr. fold N p in Hval.
  split; [exact Hr |]. split; [exact Hval |].
  unfold o1, o2, c_rem. rewrite Hsf.
  destruct verts_per_face_cases as [Hv | Hv]; rewrite Hv in *.
  - assert (p = 0 \/ p = 1 \/ p = 2) as [-> | [-> | ->]] by lia;
      cbn; repeat split; discriminate.
  - assert (p = 0 \/ p = 1 \/ p = 2 \/ p = 3) as [-> | [-> | [-> | ->]]] by lia;
      cbn; repeat split; discriminate.
Qed.

End Offsets.

Lemma X7_flank_offsets_within_the_list_witness :
  -1 <= position_across tri_exact 5 0 < 3 /\
  0 <= c_rem (position_across tri_exact 5 0 + 1) 3 < 3 /\
  0 <= c_rem (position_across tri_exact 5 0 + 4 - 2) 3 < 3.
Proof.
  apply (X7_flank_offsets_within_the_list tri_exact 5 0).
  cbn. lia.
Defined.

Lemma X8_flanks_are_the_other_neighbours_witness :
  0 <= position_across tri_exact 0 1 < 3 /\
  ff_local tri_exact (ff_local tri_exact 0 1) (position_across tri_exact 0 1) = 0 /\
  c_rem (position_across tri_exact 0 1 + 1) 3 <> position_across tri_exact 0 1 /\
  c_rem (position_across tri_exact 0 1 + 4 - 2) 3 <> position_across tri_exact 0 1 /\
  c_rem (position_across tri_exact 0 1 + 1) 3 <> c_rem (position_across tri_exact 0 1 + 4 - 2) 3.
Proof.
  apply (X8_flanks_are_the_other_neighbours tri_exact 0 1).
  - reflexivity.
  - exists 1. split; [cbn; lia | reflexivity].
Defined.

(** ** More on [ComputeMoments] *)

Section MomentsMore.
Context {double : Type} {ops : DoubleOps double} {kern : Kernels double}.
Variable g : GridBlock double.

(** The areas and centres of mass after [ComputeMoments], face by face. *)
Lemma ComputeMoments_faces_total (b : StenciledBlock double) (f : Z) :
  face_area (ComputeMoments g b) f
  = (if (0 <=? f) && (f <? n_faces_withghost g)
     then face_area (ComputeMoments_face g f b) f else face_area b f) /\
  face_cmass (ComputeMoments g b) f
  = (if (0 <=? f) && (f <? n_faces_withghost g)
     then face_cmass (ComputeMoments_face g f b) f else face_cmass b f).
Proof.
  destruct ((0 <=? f) && (f <? n_faces_withghost g)) eqn:Hr.
  - apply ComputeMoments_at_face. lia.
  - unfold ComputeMoments.
    set (b0 := enter call_ComputeMoments b).
    set (b1 := for_lt 0 (n_faces_withghost g) (ComputeMoments_face g) b0).
    assert (face_area (for_lt 0 (n_edges_withghost g) (ComputeMoments_edge g) b1)
            = face_area b1) as ->
      by (apply for_lt_frame; intros; apply ComputeMoments_edge_faces).
    assert (face_cmass (for_lt 0 (n_edges_withghost g) (ComputeMoments_edge g) b1)
            = face_cmass b1) as ->
      by (apply for_lt_frame; intros; apply ComputeMoments_edge_faces).
    destruct (Z_lt_le_dec (n_faces_withghost g) 0) as [Hneg | Hpos].
    + unfold b1. rewrite for_lt_empty by lia. split; reflexivity.
    + destruct (ComputeMoments_face_loop g b0 (n_faces_withghost g) Hpos) as (_ & _ & Hout).
      apply Hout. lia.
Qed.

(** The edge lengths after [ComputeMoments], edge by edge. *)
Lemma ComputeMoments_edges_total (b : StenciledBlock double) (e : Z) :
  edge_length (ComputeMoments g b) e
  = if (0 <=? e) && (e <? n_edges_withghost g)
       && BITS_RAISED (edge_mask g e) (GEOELM_NEXI g)
    then edge_arc g e else edge_length b e.
Proof.
  destruct ((0 <=? e) && (e <? n_edges_withghost g)) eqn:Hr; cbn [andb].
  - apply ComputeMoments_at_edge. lia.
  - unfold ComputeMoments.
    set (b1 := for_lt 0 (n_faces_withghost g) (ComputeMoments_face g)
                      (enter call_ComputeMoments b)).
    assert (edge_length b1 = edge_length b) as <-.
    { unfold b1. rewrite for_lt_frame; [reflexivity |].
      intros i s. unfold ComputeMoments_face.
      destruct (BITS_RAISED _ _); [| destruct (shape g)]; reflexivity. }
    apply (for_lt_keeps (fun s => edge_length s e = edge_length b1 e)); [| reflexivity].
    intros i s Hi Hs. unfold ComputeMoments_edge.
    destruct (BITS_RAISED _ _); [| exact Hs]. cbn.
    rewrite upd_other by lia. exact Hs.
Qed.

(** X9.  [ComputeMoments] writes within the block only: the entries of
    [face_area] and [face_cmass] outside [0 .. n_faces_withghost - 1] and the
    entries of [edge_length] outside [0 .. n_edges_withghost - 1] are left as
    they were, and so are the masks, the zone counts and the zone lists. *)
Theorem X9_moments_stay_within_the_block (b : StenciledBlock double) (f e : Z) :
  f < 0 \/ n_faces_withghost g <= f ->
  e < 0 \/ n_edges_withghost g <= e ->
  face_area (ComputeMoments g b) f = face_area b f /\
  face_cmass (ComputeMoments g b) f = face_cmass b f /\
  edge_length (ComputeMoments g b) e = edge_length b e /\
  face_mask (ComputeMoments g b) = face_mask b /\
  zones_per_stencil (ComputeMoments g b) = zones_per_stencil b /\
  stencil_zonelist (ComputeMoments g b) = stencil_zonelist b.
Proof.
  intros Hf He.
  destruct (ComputeMoments_faces_total b f) as [Ha Hc].
  pose proof (ComputeMoments_edges_total b e) as Hl.
  assert ((0 <=? f) && (f <? n_faces_withghost g) = false) as Hrf by lia.
  assert ((0 <=? e) && (e <? n_edges_withghost g) = false) as Hre by lia.
  rewrite Hrf in Ha, Hc. rewrite Hre in Hl. cbn [andb] in Hl.
  destruct (ComputeMoments_frame g b) as (Hm & Hz & Hzl).
  repeat split; assumption.
Qed.

(** X10.  [ComputeMoments] is idempotent: computed a second time, every
    area, centre of mass and edge length is what the first computation left
    (the moments depend on the masks and on the vertices only). *)
Theorem X10_moments_idempotent (b : StenciledBlock double) (f e : Z) :
  face_area (ComputeMoments g (ComputeMoments g b)) f = face_area (ComputeMoments g b) f /\
  face_cmass (ComputeMoments g (ComputeMoments g b)) f = face_cmass (ComputeMoments g b) f /\
  edge_length (ComputeMoments g (ComputeMoments g b)) e = edge_length (ComputeMoments g b) e.
Proof.
  destruct (ComputeMoments_faces_total (ComputeMoments g b) f) as [Ha2 Hc2].
  destruct (ComputeMoments_faces_total b f) as [Ha1 Hc1].
  destruct (ComputeMoments_frame g b) as (Hm & _ & _).
  destruct (ComputeMoments_face_self g f (ComputeMoments g b) b Hm) as [Hsa Hsc].
  split; [| split].
  - rewrite Ha2. destruct ((0 <=? f) && (f <? n_faces_withghost g)); [| reflexivity].
    now rewrite Hsa, Ha1.
  - rewrite Hc2. destruct ((0 <=? f) && (f <? n_faces_withghost g)); [| reflexivity].
    now rewrite Hsc, Hc1.
  - rewrite (ComputeMoments_edges_total (ComputeMoments g b) e).
    rewrite (ComputeMoments_edges_total b e).
    destruct ((0 <=? e) && (e <? n_edges_withghost g)
              && BITS_RAISED (edge_mask g e) (GEOELM_NEXI g)); reflexivity.
Qed.

End MomentsMore.

(** X11.  On a triangular block, in exact arithmetic, the area stored for an
    existing face is the area of its spherical triangle, and when that area
    is not zero the centre of mass stored is the centroid of the triangle:
    the second, empty triangle of the computation changes nothing. *)
Theorem X11_triangle_moments_exact
    (kern : Kernels R) (g : GridBlock R) (b : StenciledBlock R) (face : Z) :
  verts_per_face g = 3 ->
  0 <= face < n_faces_withghost g ->
  BITS_RAISED (face_mask b face) (GEOELM_NEXI g) = false ->
  let v := face_vertex g face in
  face_area (ComputeMoments g b) face = SphTriArea (v 0) (v 1) (v 2) /\
  (SphTriArea (v 0) (v 1) (v 2) <> 0%R ->
   face_cmass (ComputeMoments g b) face = SphTriCenter (v 0) (v 1) (v 2)).
Proof.
  intros Ht Hf Hn v.
  destruct (ComputeMoments_existing_face g b face Hf Hn) as [-> ->].
  unfold sub_area1, sub_area2, sub_center1, sub_center2. fold v.
  unfold verts_per_face in Ht. destruct (shape g); [| discriminate].
  cbn [d_add d_zero exact]. split; [ring |].
  intros Hnz. destruct (SphTriCenter (v 0) (v 1) (v 2)) as [x y z].
  unfold gv_over, gv_plus, gv_scale, gv_zeros. cbn.
  f_equal; field; lra.
Qed.

Lemma X9_moments_stay_within_the_block_witness :
  face_area (ComputeMoments tri_exact tri_storage) 10 = 7%R /\
  face_cmass (ComputeMoments tri_exact tri_storage) 10 = mkGeoVector 7%R 7%R 7%R /\
  edge_length (ComputeMoments tri_exact tri_storage) 2 = 7%R /\
  face_mask (ComputeMoments tri_exact tri_storage) = tri_mask /\
  zones_per_stencil (ComputeMoments tri_exact tri_storage) = (fun _ => 0) /\
  stencil_zonelist (ComputeMoments tri_exact tri_storage) = (fun _ _ => None).
Proof.
  apply (X9_moments_stay_within_the_block (ops := exact) tri_exact tri_storage 10 2).
  - right. cbn. lia.
  - right. cbn. lia.
Defined.

Lemma X11_triangle_moments_exact_witness :
  face_area (ComputeMoments tri_exact tri_storage) 0 = (PI / 2)%R /\
  face_cmass (ComputeMoments tri_exact tri_storage) 0
  = SphTriCenter_mean (axes 0) (axes 1) (axes 2).
Proof.
  destruct (X11_triangle_moments_exact exact_kernels tri_exact tri_storage 0) as [Ha Hc].
  - reflexivity.
  - cbn. lia.
  - reflexivity.
  - split.
    + rewrite Ha. apply excess_octant.
    + apply Hc.
      change (SphTriArea_excess (axes 0) (axes 1) (axes 2) <> 0%R).
      rewrite excess_octant. pose proof PI_RGT_0. lra.
Defined.

(** ** More on [ComputeOneMatrix] *)

Lemma iterate_ext {S : Type} (body body' : Z -> S -> S) :
  (forall i s, body i s = body' i s) ->
  forall n lo s, iterate n lo body s = iterate n lo body' s.
Proof.
  intros Hb. induction n as [| n IH]; intros lo s; [reflexivity |].
  cbn [iterate]. now rewrite Hb, IH.
Qed.

Section MatricesMore.
Context {double : Type} {ops : DoubleOps double} {kern : Kernels double}.
Variable g : GridBlock double.

Lemma geom_matr_A_dims (b : StenciledBlock double) (pface stencil : Z) :
  m_rows (geom_matr_A g b pface stencil) = zones_per_stencil b stencil /\
  m_cols (geom_matr_A g b pface stencil) = 3.
Proof.
  unfold geom_matr_A.
  apply (for_lt_keeps
           (fun a => m_rows a = zones_per_stencil b stencil /\ m_cols a = 3));
    [| split; reflexivity].
  intros i a _ Ha. exact Ha.
Qed.

Lemma ComputeOneMatrix_LU (b : StenciledBlock double) (pface stencil : Z) :
  geom_matr_LU (ComputeOneMatrix g pface stencil b) pface stencil
  = lu_compute (geom_matr_AtA g b pface stencil).
Proof.
  unfold ComputeOneMatrix, geom_matr_AtA. cbn. now rewrite !upd2_same.
Qed.

Lemma ComputeOneMatrix_LU_other (b : StenciledBlock double) (pface stencil p s : Z) :
  p <> pface \/ s <> stencil ->
  geom_matr_LU (ComputeOneMatrix g pface stencil b) p s = geom_matr_LU b p s.
Proof. intros Hne. unfold ComputeOneMatrix. cbn. now rewrite upd2_other. Qed.

Lemma ComputeOneMatrix_geometry (b : StenciledBlock double) (pface stencil : Z) :
  same_geometry b (ComputeOneMatrix g pface stencil b) /\
  face_area (ComputeOneMatrix g pface stencil b) = face_area b /\
  edge_length (ComputeOneMatrix g pface stencil b) = edge_length b.
Proof. repeat split. Qed.

Lemma ComputeOneMatrix_At_total (b : StenciledBlock double) (pface stencil x y : Z) :
  geom_matr_At (ComputeOneMatrix g pface stencil b) x y
  = if (x =? pface) && (y =? stencil) then m_transpose (geom_matr_A g b pface stencil)
    else geom_matr_At b x y.
Proof. reflexivity. Qed.

Lemma ComputeOneMatrix_LU_total (b : StenciledBlock double) (pface stencil x y : Z) :
  geom_matr_LU (ComputeOneMatrix g pface stencil b) x y
  = if (x =? pface) && (y =? stencil) then lu_compute (geom_matr_AtA g b pface stencil)
    else geom_matr_LU b x y.
Proof.
  unfold ComputeOneMatrix, geom_matr_AtA, upd2. cbn.
  destruct ((x =? pface) && (y =? stencil)); [| reflexivity].
  now rewrite !Z.eqb_refl.
Qed.

(** X14.  Two matrix builds for different slots commute: in either order
    they leave the same transposed matrices and the same factorisations, and
    neither changes the masks, the zone lists, the zone counts or the
    moments.  The passes of the loop of [AssociateMesh] are independent of one
    another. *)
Theorem X14_matrix_builds_commute (b : StenciledBlock double) (p s p' s' : Z) :
  p <> p' \/ s <> s' ->
  let b1 := ComputeOneMatrix g p s (ComputeOneMatrix g p' s' b) in
  let b2 := ComputeOneMatrix g p' s' (ComputeOneMatrix g p s b) in
  geom_matr_At b1 = geom_matr_At b2 /\
  geom_matr_LU b1 = geom_matr_LU b2 /\
  same_geometry b b1 /\ same_geometry b b2.
Proof.
  intros Hne b1 b2.
  assert (forall (c : StenciledBlock double) q t q' t',
            geom_matr_A g (ComputeOneMatrix g q' t' c) q t = geom_matr_A g c q t) as HA
    by (intros; now apply geom_matr_A_ext).
  assert (forall (c : StenciledBlock double) q t q' t',
            geom_matr_AtA g (ComputeOneMatrix g q' t' c) q t = geom_matr_AtA g c q t) as HAtA
    by (intros; unfold geom_matr_AtA; now rewrite HA).
  split; [| split; [| split; repeat split]].
  - apply functional_extensionality. intros x.
    apply functional_extensionality. intros y. unfold b1, b2.
    rewrite !ComputeOneMatrix_At_total, !HA.
    destruct (Z.eqb_spec x p), (Z.eqb_spec y s), (Z.eqb_spec x p'), (Z.eqb_spec y s');
      cbn [andb]; try reflexivity.
    exfalso. destruct Hne; congruence.
  - apply functional_extensionality. intros x.
    apply functional_extensionality. intros y. unfold b1, b2.
    rewrite !ComputeOneMatrix_LU_total, !HAtA.
    destruct (Z.eqb_spec x p), (Z.eqb_spec y s), (Z.eqb_spec x p'), (Z.eqb_spec y s');
      cbn [andb]; try reflexivity.
    exfalso. destruct Hne; congruence.
Qed.

End MatricesMore.

(** X12.  What [ComputeOneMatrix] factorises, in exact arithmetic: the slot
    of [geom_matr_LU] receives the factorisation of the normal-equations
    matrix [At * A], which is 3 x 3 whatever the number of zones, symmetric,
    and has no negative entry on its diagonal. *)
Theorem X12_normal_equations_exact
    (kern : Kernels R) (g : GridBlock R) (b : StenciledBlock R) (pface stencil i j : Z) :
  let AtA := geom_matr_AtA g b pface stencil in
  geom_matr_LU (ComputeOneMatrix g pface stencil b) pface stencil = lu_compute AtA /\
  m_rows AtA = 3 /\ m_cols AtA = 3 /\
  m_coef AtA i j = m_coef AtA j i /\
  (0 <= m_coef AtA i i)%R.
Proof.
  intros AtA. split; [apply ComputeOneMatrix_LU |].
  destruct (geom_matr_A_dims g b pface stencil) as [Hrows Hcols].
  unfold AtA, geom_matr_AtA, m_mul, m_transpose. cbn [m_rows m_cols m_coef].
  split; [exact Hcols |]. split; [exact Hcols |]. split.
  - unfold for_lt. apply iterate_ext. intros k acc. cbn [d_add d_mul exact]. ring.
  - apply (for_lt_keeps (fun acc : R => (0 <= acc)%R)).
    + intros k acc _ Hacc. cbn [d_add d_mul exact].
      pose proof (Rle_0_sqr (m_coef (geom_matr_A g b pface stencil) k i)) as Hsq.
      unfold Rsqr in Hsq. lra.
    + cbn. lra.
Qed.

(** What [ComputeOneMatrix] reads in the last two zones of a central
    stencil *)
Lemma central_self_zones {double : Type} {kern : Kernels double}
    (g : GridBlock double) (b : StenciledBlock double) (pface : Z) :
  stencil_zonelist b pface 0 = Some (central_zones g pface) ->
  zl_read b pface 0 (2 * verts_per_face g) = pface /\
  zl_read b pface 0 (2 * verts_per_face g + 1) = -1 /\
  zl_read b pface 0 (2 * (verts_per_face g + 1)) = pface /\
  zl_read b pface 0 (2 * (verts_per_face g + 1) + 1) = 1.
Proof.
  intros Hzl. unfold zl_read. rewrite Hzl. unfold central_zones, verts_per_face.
  destruct (shape g); repeat split; reflexivity.
Qed.

(** X13.  The two rows of the principal face in the central stencil are
    radial, in exact arithmetic: after [BuildAllStencils], rows
    [verts_per_face] and [verts_per_face + 1] of the geometry matrix of
    stencil 0 are [r * cm] and [- r / (1 + r) * cm], where [cm] is the centre
    of mass of the principal face and [r] is [drp_ratio], provided [1 + r] is
    not zero. *)
Theorem X13_central_self_rows_radial
    (kern : Kernels R) (g : GridBlock R) (fresh_int : Z) (b : StenciledBlock R)
    (pface col : Z) :
  0 <= pface < n_faces_withghost g ->
  eligible g b pface ->
  0 <= col < 3 ->
  (1 + drp_ratio g <> 0)%R ->
  let b' := BuildAllStencils g fresh_int b in
  let cm := gv_at (face_cmass b' pface) col in
  m_coef (geom_matr_A g b' pface 0) (verts_per_face g) col = (drp_ratio g * cm)%R /\
  m_coef (geom_matr_A g b' pface 0) (verts_per_face g + 1) col
  = (- (drp_ratio g / (1 + drp_ratio g)) * cm)%R.
Proof.
  intros Hp Hel Hc Hr b' cm.
  destruct (BuildAllStencils_result g fresh_int b) as (_ & Hz0 & _ & Hl).
  pose proof (verts_per_face_cases g) as Hv.
  assert (stencil_zonelist b' pface 0 = Some (central_zones g pface)) as Hzl.
  { unfold b'. rewrite Hl; [reflexivity | exact Hp | exact Hel |].
    unfold n_stencils. lia. }
  fold b' in Hz0.
  destruct (geom_matr_A_coef g b' pface 0 (verts_per_face g) col) as (_ & _ & ->);
    [lia | exact Hc |].
  destruct (geom_matr_A_coef g b' pface 0 (verts_per_face g + 1) col) as (_ & _ & ->);
    [lia | exact Hc |].
  destruct (central_self_zones g b' pface Hzl) as (-> & -> & -> & ->).
  fold cm.
  change (rp_factor g (-1)) with (1 + drp_ratio g)%R.
  change (rp_factor g 1) with (1 / (1 + drp_ratio g))%R.
  cbn [d_mul d_sub exact]. split; [ring | field; exact Hr].
Qed.

Lemma X13_central_self_rows_radial_witness :
  m_coef (geom_matr_A tri_exact (BuildAllStencils tri_exact 99 tri_storage) 0 0) 3 1
  = (drp_ratio tri_exact
     * gv_at (face_cmass (BuildAllStencils tri_exact 99 tri_storage) 0) 1)%R /\
  m_coef (geom_matr_A tri_exact (BuildAllStencils tri_exact 99 tri_storage) 0 0) (3 + 1) 1
  = (- (drp_ratio tri_exact / (1 + drp_ratio tri_exact))
     * gv_at (face_cmass (BuildAllStencils tri_exact 99 tri_storage) 0) 1)%R.
Proof.
  apply (X13_central_self_rows_radial exact_kernels tri_exact 99 tri_storage 0 1).
  - cbn. lia.
  - reflexivity.
  - lia.
  - cbn. lra.
Defined.

(** ** More on [AssociateMesh] *)

Section Untouched.
Context {double : Type} {ops : DoubleOps double} {kern : Kernels double}.
Variable g : GridBlock double.
Variable fresh_int : Z.

(** A field that no write to a zone list, no allocation and no zone count
    changes is the same after [BuildAllStencils]. *)
Lemma BuildAllStencils_keeps {A : Type} (field : StenciledBlock double -> A) :
  (forall c b, field (enter c b) = field b) ->
  (forall v b, field (set_zones_per_stencil v b) = field b) ->
  (forall v b, field (set_stencil_zonelist v b) = field b) ->
  forall b, field (BuildAllStencils g fresh_int b) = field b.
Proof.
  intros He Hz Hl b. unfold BuildAllStencils.
  assert (forall p s k v c, field (zl_write p s k v c) = field c) as Hw
    by (intros; unfold zl_write; apply Hl).
  assert (forall p c, field (stencils_of_face g p c) = field c) as Hs.
  { intros p c. unfold stencils_of_face.
    rewrite (for_le_frame field)
      by (intros; unfold directional_stencil, zl_write_pair; now rewrite !Hw).
    unfold central_stencil. rewrite !Hw.
    apply (for_lt_frame field). intros. now rewrite !Hw. }
  rewrite (for_lt_frame field)
    by (intros i s; destruct (BITS_RAISED _ _); [apply Hs | reflexivity]).
  rewrite (for_lt_frame field).
  2:{ intros i s. destruct (BITS_RAISED _ _); [| reflexivity].
      apply (for_lt_frame field). intros. unfold zl_alloc. apply Hl. }
  rewrite Hl.
  rewrite (for_lt_frame field) by (intros; apply Hz).
  now rewrite Hz, He.
Qed.

(** The zone counts after [BuildAllStencils], index by index. *)
Lemma BuildAllStencils_counts (b : StenciledBlock double) (s : Z) :
  zones_per_stencil (BuildAllStencils g fresh_int b) s
  = if s =? 0 then verts_per_face g + 2
    else if (1 <=? s) && (s <? n_stencils g) then 4
    else zones_per_stencil b s.
Proof.
  destruct (BuildAllStencils_result g fresh_int b) as (_ & H0 & H4 & _).
  destruct (Z.eqb_spec s 0) as [-> | Hs0]; [exact H0 |].
  destruct ((1 <=? s) && (s <? n_stencils g)) eqn:Hr; [apply H4; lia |].
  unfold BuildAllStencils.
  assert (forall p c, zones_per_stencil (stencils_of_face g p c) = zones_per_stencil c) as Hs
    by (intros; apply stencils_of_face_frame).
  rewrite (for_lt_frame zones_per_stencil)
    by (intros i c; destruct (BITS_RAISED _ _); [apply Hs | reflexivity]).
  rewrite (for_lt_frame zones_per_stencil).
  2:{ intros i c. destruct (BITS_RAISED _ _); [| reflexivity].
      now apply (for_lt_frame zones_per_stencil). }
  cbn [zones_per_stencil set_stencil_zonelist].
  apply (for_lt_keeps (fun c => zones_per_stencil c s = zones_per_stencil b s)).
  - intros i c Hi Hc. cbn. rewrite upd_other by lia. exact Hc.
  - cbn. now rewrite upd_other by exact Hs0.
Qed.

(** A field that neither the areas, the centres of mass nor the edge
    lengths changes is the same after [ComputeMoments]. *)
Lemma ComputeMoments_keeps {A : Type} (field : StenciledBlock double -> A) :
  (forall c b, field (enter c b) = field b) ->
  (forall v b, field (set_face_area v b) = field b) ->
  (forall v b, field (set_face_cmass v b) = field b) ->
  (forall v b, field (set_edge_length v b) = field b) ->
  forall b, field (ComputeMoments g b) = field b.
Proof.
  intros He Ha Hc Hl b. unfold ComputeMoments.
  rewrite (for_lt_frame field).
  2:{ intros i s. unfold ComputeMoments_edge. destruct (BITS_RAISED _ _); [apply Hl | reflexivity]. }
  rewrite (for_lt_frame field); [apply He |].
  intros i s. unfold ComputeMoments_face.
  destruct (BITS_RAISED _ _); [| destruct (shape g)]; cbn zeta; now rewrite Hc, Ha.
Qed.

(** The matrices after the loop of [AssociateMesh] over the faces, slot by
    slot. *)
Lemma matrices_total (b : StenciledBlock double) :
  let b' :=
    for_lt 0 (n_faces_withghost g)
      (fun pface b =>
         if BITS_RAISED (face_mask b pface) (GEOELM_STEN g) then
           for_lt 0 (n_stencils g) (fun stencil b => ComputeOneMatrix g pface stencil b) b
         else b) b in
  same_geometry b b' /\
  face_area b' = face_area b /\
  edge_length b' = edge_length b /\
  forall p s,
    geom_matr_At b' p s
    = (if stencil_slot g (face_mask b) p s then m_transpose (geom_matr_A g b p s)
       else geom_matr_At b p s) /\
    geom_matr_LU b' p s
    = (if stencil_slot g (face_mask b) p s then lu_compute (geom_matr_AtA g b p s)
       else geom_matr_LU b p s).
Proof.
  assert (0 <= n_stencils g) as Hn
    by (unfold n_stencils, verts_per_face; destruct (shape g); lia).
  assert (forall (i : Z) (c : StenciledBlock double),
            same_geometry b c ->
            let c' := for_lt 0 (n_stencils g)
                        (fun stencil b => ComputeOneMatrix g i stencil b) c in
            same_geometry b c' /\ face_area c' = face_area c /\
            edge_length c' = edge_length c /\
            forall p s,
              geom_matr_At c' p s
              = (if (p =? i) && (0 <=? s) && (s <? n_stencils g)
                 then m_transpose (geom_matr_A g b i s) else geom_matr_At c p s) /\
              geom_matr_LU c' p s
              = (if (p =? i) && (0 <=? s) && (s <? n_stencils g)
                 then lu_compute (geom_matr_AtA g b i s) else geom_matr_LU c p s)) as Hinner.
  { intros i c Hgeo.
    apply (for_lt_inv
      (fun j c' =>
         same_geometry b c' /\ face_area c' = face_area c /\
         edge_length c' = edge_length c /\
         forall p s,
           geom_matr_At c' p s
           = (if (p =? i) && (0 <=? s) && (s <? j)
              then m_transpose (geom_matr_A g b i s) else geom_matr_At c p s) /\
           geom_matr_LU c' p s
           = (if (p =? i) && (0 <=? s) && (s <? j)
              then lu_compute (geom_matr_AtA g b i s) else geom_matr_LU c p s)));
      [exact Hn | |].
    - split; [exact Hgeo |]. split; [reflexivity |]. split; [reflexivity |].
      intros p s. assert ((p =? i) && (0 <=? s) && (s <? 0) = false) as -> by lia.
      split; reflexivity.
    - intros j c' Hj (Hg' & Ha' & He' & Hm').
      assert (geom_matr_A g c' i j = geom_matr_A g b i j) as HA
        by (destruct Hg' as (_ & Hz & Hl & Hc); now apply geom_matr_A_ext).
      split; [exact Hg' |]. split; [exact Ha' |]. split; [exact He' |].
      intros p s. rewrite ComputeOneMatrix_At_total, ComputeOneMatrix_LU_total.
      unfold geom_matr_AtA. rewrite HA. fold (geom_matr_AtA g b i j).
      destruct (Hm' p s) as [-> ->].
      destruct (Z.eqb_spec p i) as [-> |], (Z.eqb_spec s j) as [-> |]; cbn [andb].
      + assert ((0 <=? j) && (j <? j + 1) = true) as -> by lia. split; reflexivity.
      + assert ((s <? j + 1) = (s <? j)) as -> by lia. split; reflexivity.
      + split; reflexivity.
      + split; reflexivity. }
  intros b'. subst b'.
  destruct (Z_lt_le_dec (n_faces_withghost g) 0) as [Hneg | Hpos].
  { rewrite !(for_lt_empty _ 0 (n_faces_withghost g)) by lia.
    split; [repeat split |]. split; [reflexivity |]. split; [reflexivity |].
    intros p s. assert (stencil_slot g (face_mask b) p s = false) as ->
      by (unfold stencil_slot; lia).
    split; reflexivity. }
  enough (let b' :=
            for_lt 0 (n_faces_withghost g)
              (fun pface b =>
                 if BITS_RAISED (face_mask b pface) (GEOELM_STEN g) then
                   for_lt 0 (n_stencils g)
                     (fun stencil b => ComputeOneMatrix g pface stencil b) b
                 else b) b in
          same_geometry b b' /\ face_area b' = face_area b /\
          edge_length b' = edge_length b /\
          forall p s,
            geom_matr_At b' p s
            = (if (0 <=? p) && (p <? n_faces_withghost g)
                  && BITS_RAISED (face_mask b p) (GEOELM_STEN g)
                  && (0 <=? s) && (s <? n_stencils g)
               then m_transpose (geom_matr_A g b p s) else geom_matr_At b p s) /\
            geom_matr_LU b' p s
            = (if (0 <=? p) && (p <? n_faces_withghost g)
                  && BITS_RAISED (face_mask b p) (GEOELM_STEN g)
                  && (0 <=? s) && (s <? n_stencils g)
               then lu_compute (geom_matr_AtA g b p s) else geom_matr_LU b p s)) as H
    by exact H.
  apply (for_lt_inv
    (fun i c =>
       same_geometry b c /\ face_area c = face_area b /\
       edge_length c = edge_length b /\
       forall p s,
         geom_matr_At c p s
         = (if (0 <=? p) && (p <? i)
               && BITS_RAISED (face_mask b p) (GEOELM_STEN g)
               && (0 <=? s) && (s <? n_stencils g)
            then m_transpose (geom_matr_A g b p s) else geom_matr_At b p s) /\
         geom_matr_LU c p s
         = (if (0 <=? p) && (p <? i)
               && BITS_RAISED (face_mask b p) (GEOELM_STEN g)
               && (0 <=? s) && (s <? n_stencils g)
            then lu_compute (geom_matr_AtA g b p s) else geom_matr_LU b p s)));
    [exact Hpos | |].
  - split; [repeat split |]. split; [reflexivity |]. split; [reflexivity |].
    intros p s. assert ((0 <=? p) && (p <? 0) = false) as -> by lia.
    split; reflexivity.
  - intros i c Hi (Hg & Ha & He & Hm).
    assert (face_mask c = face_mask b) as Hmask by apply Hg.
    rewrite Hmask.
    destruct (BITS_RAISED (face_mask b i) (GEOELM_STEN g)) eqn:Hst.
    + destruct (Hinner i c Hg) as (Hg' & Ha' & He' & Hm').
      split; [exact Hg' |]. split; [congruence |]. split; [congruence |].
      intros p s. destruct (Hm' p s) as [-> ->]. destruct (Hm p s) as [-> ->].
      destruct (Z.eqb_spec p i) as [-> |]; cbn [andb].
      * rewrite Hst.
        assert ((0 <=? i) && (i <? i + 1) = true) as -> by lia.
        assert ((0 <=? i) && (i <? i) = false) as -> by lia.
        cbn [andb]. split; reflexivity.
      * assert ((p <? i + 1) = (p <? i)) as -> by lia. split; reflexivity.
    + split; [exact Hg |]. split; [exact Ha |]. split; [exact He |].
      intros p s. destruct (Hm p s) as [-> ->].
      destruct (Z.eqb_spec p i) as [-> |].
      * rewrite Hst.
        assert ((0 <=? i) && (i <? i + 1) = true) as -> by lia.
        assert ((0 <=? i) && (i <? i) = false) as -> by lia.
        cbn [andb]. split; reflexivity.
      * assert ((p <? i + 1) = (p <? i)) as -> by lia. split; reflexivity.
Qed.

End Untouched.

Section Reassociation.
Context {double : Type} {ops : DoubleOps double} {kern : Kernels double}.
Variable g : GridBlock double.
Variable fresh_int : Z.

(** Everything [AssociateMesh] leaves in the block, entry by entry: the
    masks of the base class, the zone counts and zone lists of the stenciled
    area, the moments of the faces and edges of the block, and the matrices
    of the slots of the stenciled area; every other entry is as it was. *)
Lemma AssociateMesh_fields (b : StenciledBlock double) :
  let m := GridBlock_AssociateMesh g (face_mask b) in
  let b' := AssociateMesh g fresh_int b in
  face_mask b' = m /\
  (forall s,
     zones_per_stencil b' s
     = if s =? 0 then verts_per_face g + 2
       else if (1 <=? s) && (s <? n_stencils g) then 4
       else zones_per_stencil b s) /\
  (forall p s,
     stencil_zonelist b' p s
     = if stencil_slot g m p s then Some (zones_of g p s) else None) /\
  (forall f,
     face_area b' f
     = (if (0 <=? f) && (f <? n_faces_withghost g)
        then face_area (ComputeMoments_face g f b') f else face_area b f) /\
     face_cmass b' f
     = (if (0 <=? f) && (f <? n_faces_withghost g)
        then face_cmass (ComputeMoments_face g f b') f else face_cmass b f)) /\
  (forall e,
     edge_length b' e
     = if (0 <=? e) && (e <? n_edges_withghost g)
          && BITS_RAISED (edge_mask g e) (GEOELM_NEXI g)
       then edge_arc g e else edge_length b e) /\
  (forall p s,
     geom_matr_At b' p s
     = (if stencil_slot g m p s then m_transpose (geom_matr_A g b' p s)
        else geom_matr_At b p s) /\
     geom_matr_LU b' p s
     = (if stencil_slot g m p s then lu_compute (geom_matr_AtA g b' p s)
        else geom_matr_LU b p s)).
Proof.
  intros m b'. unfold b', AssociateMesh.
  set (b0 := set_face_mask (GridBlock_AssociateMesh g (face_mask b))
                           (enter call_GridBlock_AssociateMesh b)).
  set (b1 := BuildAllStencils g fresh_int b0).
  set (b2 := ComputeMoments g b1).
  destruct (matrices_total g b2) as ((Hm3 & Hz3 & Hl3 & Hc3) & Ha3 & He3 & HM).
  set (b3 := for_lt 0 (n_faces_withghost g) _ b2) in *.
  destruct (ComputeMoments_frame g b1) as (Hm2 & Hz2 & Hl2). fold b2 in Hm2, Hz2, Hl2.
  assert (face_mask b1 = m) as Hm1 by apply (BuildAllStencils_result g fresh_int b0).
  assert (face_mask b3 = m) as Hmask by congruence.
  assert (face_mask b2 = m) as Hmask2 by congruence.
  split; [exact Hmask |]. split; [| split; [| split; [| split]]].
  - intros s. rewrite Hz3, Hz2. unfold b1. now rewrite BuildAllStencils_counts.
  - intros p s. rewrite Hl3, Hl2. unfold b1. now rewrite BuildAllStencils_zonelists.
  - intros f. rewrite Ha3, Hc3.
    destruct (ComputeMoments_faces_total g b1 f) as [Ha Hc]. fold b2 in Ha, Hc.
    rewrite Ha, Hc.
    destruct ((0 <=? f) && (f <? n_faces_withghost g)).
    + apply ComputeMoments_face_self. congruence.
    + unfold b1. split.
      * now rewrite (BuildAllStencils_keeps g fresh_int face_area).
      * now rewrite (BuildAllStencils_keeps g fresh_int face_cmass).
  - intros e. rewrite He3. unfold b2. rewrite ComputeMoments_edges_total.
    unfold b1. now rewrite (BuildAllStencils_keeps g fresh_int edge_length).
  - intros p s. destruct (HM p s) as [-> ->]. rewrite Hmask2.
    assert (geom_matr_A g b2 p s = geom_matr_A g b3 p s) as HA
      by (apply geom_matr_A_ext; congruence).
    unfold geom_matr_AtA. rewrite HA.
    destruct (stencil_slot g m p s); [split; reflexivity |].
    unfold b2, b1. split.
    + rewrite (ComputeMoments_keeps g (fun c => geom_matr_At c p s)) by reflexivity.
      now rewrite (BuildAllStencils_keeps g fresh_int (fun c => geom_matr_At c p s)).
    + rewrite (ComputeMoments_keeps g (fun c => geom_matr_LU c p s)) by reflexivity.
      now rewrite (BuildAllStencils_keeps g fresh_int (fun c => geom_matr_LU c p s)).
Qed.

(** X16.  Associating the same mesh twice gives what associating it once
    gives: when the association of the base class leaves the masks it has
    produced as they are, a second [AssociateMesh] leaves the same masks,
    zone counts, zone lists, areas, centres of mass, edge lengths, transposed
    matrices and factorisations as the first. *)
Theorem X16_association_idempotent (b : StenciledBlock double) :
  GridBlock_AssociateMesh g (GridBlock_AssociateMesh g (face_mask b))
  = GridBlock_AssociateMesh g (face_mask b) ->
  let b1 := AssociateMesh g fresh_int b in
  let b2 := AssociateMesh g fresh_int b1 in
  face_mask b2 = face_mask b1 /\
  zones_per_stencil b2 = zones_per_stencil b1 /\
  stencil_zonelist b2 = stencil_zonelist b1 /\
  face_area b2 = face_area b1 /\
  face_cmass b2 = face_cmass b1 /\
  edge_length b2 = edge_length b1 /\
  geom_matr_At b2 = geom_matr_At b1 /\
  geom_matr_LU b2 = geom_matr_LU b1.
Proof.
  intros Hidem b1 b2.
  destruct (AssociateMesh_fields b) as (Hm1 & Hz1 & Hl1 & Hf1 & He1 & HM1).
  destruct (AssociateMesh_fields b1) as (Hm2 & Hz2 & Hl2 & Hf2 & He2 & HM2).
  fold b1 in Hm1, Hz1, Hl1, Hf1, He1, HM1. fold b1 b2 in Hm2, Hz2, Hl2, Hf2, He2, HM2.
  cbn zeta in *.
  assert (GridBlock_AssociateMesh g (face_mask b1) = face_mask b1) as Hfix
    by (rewrite Hm1; exact Hidem).
  rewrite Hfix in *.
  assert (face_mask b2 = face_mask b1) as Hmask by exact Hm2.
  assert (zones_per_stencil b2 = zones_per_stencil b1) as Hzps.
  { apply functional_extensionality. intros s. rewrite Hz2, (Hz1 s).
    destruct (s =? 0); [reflexivity |].
    destruct ((1 <=? s) && (s <? n_stencils g)); reflexivity. }
  assert (stencil_zonelist b2 = stencil_zonelist b1) as Hzl.
  { apply functional_extensionality. intros p.
    apply functional_extensionality. intros s.
    rewrite Hl2, (Hl1 p s), <- Hm1. reflexivity. }
  assert (face_area b2 = face_area b1 /\ face_cmass b2 = face_cmass b1) as [Harea Hcm].
  { split; apply functional_extensionality; intros f;
      destruct (Hf2 f) as [Ha2 Hc2]; destruct (Hf1 f) as [Ha1 Hc1];
      destruct (ComputeMoments_face_self g f b2 b1 Hmask) as [Hsa Hsc].
    - rewrite Ha2. destruct ((0 <=? f) && (f <? n_faces_withghost g)); [| reflexivity].
      now rewrite Hsa, Ha1.
    - rewrite Hc2. destruct ((0 <=? f) && (f <? n_faces_withghost g)); [| reflexivity].
      now rewrite Hsc, Hc1. }
  assert (forall p s, geom_matr_A g b2 p s = geom_matr_A g b1 p s) as HA
    by (intros; now apply geom_matr_A_ext).
  repeat split; try assumption.
  - apply functional_extensionality. intros e. rewrite He2, (He1 e).
    destruct ((0 <=? e) && (e <? n_edges_withghost g)
              && BITS_RAISED (edge_mask g e) (GEOELM_NEXI g)); reflexivity.
  - apply functional_extensionality. intros p.
    apply functional_extensionality. intros s.
    destruct (HM2 p s) as [-> _]. destruct (HM1 p s) as [HAt1 _].
    rewrite HA. rewrite <- Hm1 in HAt1.
    destruct (stencil_slot g (face_mask b1) p s); [now rewrite HAt1 | reflexivity].
  - apply functional_extensionality. intros p.
    apply functional_extensionality. intros s.
    destruct (HM2 p s) as [_ ->]. destruct (HM1 p s) as [_ HLU1].
    unfold geom_matr_AtA in *. rewrite HA. rewrite <- Hm1 in HLU1.
    destruct (stencil_slot g (face_mask b1) p s); [now rewrite HLU1 | reflexivity].
Qed.

End Reassociation.

Lemma X16_association_idempotent_witness :
  stencil_zonelist (AssociateMesh tri_exact 99 (AssociateMesh tri_exact 99 tri_storage))
  = stencil_zonelist (AssociateMesh tri_exact 99 tri_storage) /\
  geom_matr_At (AssociateMesh tri_exact 99 (AssociateMesh tri_exact 99 tri_storage))
  = geom_matr_At (AssociateMesh tri_exact 99 tri_storage).
Proof.
  destruct (X16_association_idempotent (ops := exact) tri_exact 99 tri_storage)
    as (_ & _ & Hzl & _ & _ & _ & HAt & _).
  - reflexivity.
  - split; [exact Hzl | exact HAt].
Defined.

(** ** [FreeStorage] *)

Section Freeing.
Context {double : Type} {ops : DoubleOps double} {kern : Kernels double}.
Variable g : GridBlock double.

(** The slots whose zone list [FreeStorage] deletes are the slots of the
    stenciled area, as the masks are when it runs, each of them once. *)
Lemma FreeStorage_deletes_slots (b : StenciledBlock double) :
  NoDup (FreeStorage_deletes g b) /\
  forall p s, (p, s) ∈ FreeStorage_deletes g b <-> stencil_slot g (face_mask b) p s = true.
Proof.
  assert (0 <= n_stencils g) as Hn
    by (unfold n_stencils, verts_per_face; destruct (shape g); lia).
  unfold FreeStorage_deletes.
  destruct (Z_lt_le_dec (n_faces_withghost g) 0) as [Hneg | Hpos].
  { rewrite for_lt_empty by lia. split; [apply NoDup_nil; exact I |].
    intros p s. rewrite elem_of_nil, stencil_slot_true. lia. }
  enough (NoDup
            (for_lt 0 (n_faces_withghost g)
               (fun pface freed =>
                  if BITS_RAISED (face_mask b pface) (GEOELM_STEN g) then
                    for_lt 0 (n_stencils g)
                      (fun stencil freed => freed ++ [(pface, stencil)]) freed
                  else freed) []) /\
          forall p s,
            (p, s) ∈ for_lt 0 (n_faces_withghost g)
               (fun pface freed =>
                  if BITS_RAISED (face_mask b pface) (GEOELM_STEN g) then
                    for_lt 0 (n_stencils g)
                      (fun stencil freed => freed ++ [(pface, stencil)]) freed
                  else freed) [] <->
            (0 <= p < n_faces_withghost g /\
             BITS_RAISED (face_mask b p) (GEOELM_STEN g) = true /\
             0 <= s < n_stencils g)) as [Hnd Hin].
  { split; [exact Hnd |]. intros p s. rewrite Hin. symmetry. apply stencil_slot_true. }
  apply (for_lt_inv
    (fun i (freed : list (Z * Z)) =>
       NoDup freed /\
       forall p s,
         (p, s) ∈ freed <->
         (0 <= p < i /\ BITS_RAISED (face_mask b p) (GEOELM_STEN g) = true /\
          0 <= s < n_stencils g))); [exact Hpos | |].
  - split; [apply NoDup_nil; exact I |]. intros p s. rewrite elem_of_nil. lia.
  - intros i freed Hi [Hnd Hin].
    destruct (BITS_RAISED (face_mask b i) (GEOELM_STEN g)) eqn:Hst.
    + enough (NoDup (for_lt 0 (n_stencils g)
                       (fun stencil freed => freed ++ [(i, stencil)]) freed) /\
              forall p s,
                (p, s) ∈ for_lt 0 (n_stencils g)
                          (fun stencil freed => freed ++ [(i, stencil)]) freed <->
                ((p, s) ∈ freed \/ (p = i /\ 0 <= s < n_stencils g))) as [Hnd' Hin'].
      { split; [exact Hnd' |]. intros p s. rewrite Hin', Hin.
        split.
        - intros [(Hp & He & Hs) | [-> Hs]]; repeat split; try lia; assumption.
        - intros (Hp & He & Hs). destruct (Z.eq_dec p i) as [-> |]; [right | left];
            repeat split; try lia; assumption. }
      apply (for_lt_inv
        (fun j (freed' : list (Z * Z)) =>
           NoDup freed' /\
           forall p s, (p, s) ∈ freed' <-> ((p, s) ∈ freed \/ (p = i /\ 0 <= s < j))));
        [exact Hn | |].
      * split; [exact Hnd |]. intros p s. split; [now left | intros [H | [_ H]]; [exact H | lia]].
      * intros j freed' Hj [Hnd' Hin']. split.
        -- apply NoDup_app. split; [exact Hnd' |]. split; [| apply NoDup_singleton].
           intros [p s] Hps Hsingle. apply list_elem_of_singleton in Hsingle.
           injection Hsingle as -> ->.
           apply Hin' in Hps. destruct Hps as [Hps | [_ Hps]]; [| lia].
           apply Hin in Hps. lia.
        -- intros p s. rewrite elem_of_app, list_elem_of_singleton, Hin'.
           split.
           ++ intros [[H | [-> H]] | [= -> ->]]; [now left | right | right]; split; lia.
           ++ intros [H | [-> H]]; [now left; left |].
              destruct (Z.eq_dec s j) as [-> |]; [now right | left; right; split; lia].
    + split; [exact Hnd |]. intros p s. rewrite Hin. split.
      * intros (Hp & He & Hs). repeat split; try lia; assumption.
      * intros (Hp & He & Hs). destruct (Z.eq_dec p i) as [-> |]; [congruence |].
        repeat split; try lia; assumption.
Qed.

(** X17.  The destructor deletes what was allocated.  After [AssociateMesh]
    the zone lists [FreeStorage] deletes are exactly those the block holds,
    each of them once; on a block that was only constructed every pointer it
    deletes is null, so that the destructor works whether or not
    [AssociateMesh] was invoked. *)
Theorem X17_destructor_deletes_the_zone_lists (fresh_int : Z) (b : StenciledBlock double) :
  let built := AssociateMesh g fresh_int b in
  let fresh := StenciledBlock_ctor g b in
  NoDup (FreeStorage_deletes g built) /\
  (forall p s,
     (p, s) ∈ FreeStorage_deletes g built <-> is_Some (stencil_zonelist built p s)) /\
  (forall p s,
     (p, s) ∈ FreeStorage_deletes g fresh -> stencil_zonelist fresh p s = None).
Proof.
  intros built fresh.
  destruct (FreeStorage_deletes_slots built) as [Hnd Hin].
  destruct (AssociateMesh_fields g fresh_int b) as (Hm & _ & Hl & _).
  fold built in Hm, Hl. cbn zeta in Hm, Hl.
  split; [exact Hnd |]. split.
  - intros p s. rewrite Hin, Hl, Hm.
    destruct (stencil_slot g (GridBlock_AssociateMesh g (face_mask b)) p s).
    + split; [intros _; eexists; reflexivity | reflexivity].
    + split; [discriminate | intros [l Hl']; discriminate].
  - intros p s _. reflexivity.
Qed.

End Freeing.

(** ** [DrawStencil] *)

(** The addition of [int] is the addition of integers as long as the sum is
    a value of the type. *)
Lemma int_add_in_range (x y : Z) :
  INT_MIN <= x + y <= INT_MAX -> int_add x y = x + y.
Proof.
  unfold int_add, INT_MIN, INT_MAX. intros H.
  rewrite Z.mod_small by lia. lia.
Qed.

(** Whatever the operands, the sum is a value of the type. *)
Lemma int_add_range (x y : Z) : INT_MIN <= int_add x y <= INT_MAX.
Proof.
  unfold int_add, INT_MIN, INT_MAX.
  pose proof (Z.mod_pos_bound (x + y - -2147483648) 4294967296). lia.
Qed.

(** A loop that appends one value per pass collects the values in order. *)
Lemma for_lt_collect {A : Type} (f : Z -> A) (n : Z) :
  0 <= n ->
  for_lt 0 n (fun row acc => acc ++ [f row]) []
  = (fun r : nat => f (Z.of_nat r)) <$> seq 0 (Z.to_nat n).
Proof.
  intros Hn.
  apply (for_lt_inv
    (fun i (acc : list A) => acc = (fun r : nat => f (Z.of_nat r)) <$> seq 0 (Z.to_nat i)));
    [exact Hn | reflexivity |].
  intros i acc Hi ->.
  assert (Z.to_nat (i + 1) = S (Z.to_nat i)) as -> by lia.
  rewrite seq_S, fmap_app. cbn [fmap list_fmap plus].
  now rewrite Z2Nat.id by lia.
Qed.

Section Drawing.
Context {double : Type} {ops : DoubleOps double} {kern : Kernels double}.
Variable g : GridBlock double.
Variable fresh_int : Z.

(** The calls [DrawStencil] makes on a slot of the stenciled area, once the
    stencils are built, for any shell index: one call per zone of the list,
    in the order of the list, with the face of the zone, the [int] sum of
    [k] and the plane of the zone, and the two angles. *)
Lemma DrawStencil_calls (b : StenciledBlock double) (k p s : Z) (rot_z rot_x : double) :
  stencil_slot g (face_mask b) p s = true ->
  let built := BuildAllStencils g fresh_int b in
  let drawn := DrawStencil built k p s rot_z rot_x in
  Z.of_nat (length drawn) = zones_per_stencil built s /\
  forall (row : nat) (call : Z * Z * double * double),
    drawn !! row = Some call ->
    exists face plane,
      zone (zones_of g p s) row = Some (face, plane) /\
      (plane = -1 \/ plane = 0 \/ plane = 1) /\
      call = (int_add k plane, face, rot_z, rot_x).
Proof.
  intros Hslot built drawn.
  pose proof (BuildAllStencils_zonelists g fresh_int b p s) as Hl.
  rewrite Hslot in Hl. fold built in Hl.
  apply stencil_slot_true in Hslot. destruct Hslot as (Hp & He & Hs).
  pose proof (zones_of_length g p s Hs) as Hlen.
  assert (zones_per_stencil built s = if s =? 0 then verts_per_face g + 2 else 4) as Hz.
  { destruct (BuildAllStencils_result g fresh_int b) as (_ & H0 & H4 & _).
    destruct (Z.eqb_spec s 0) as [-> |]; [exact H0 | apply H4; lia]. }
  assert (0 <= zones_per_stencil built s) as Hz0.
  { rewrite Hz. unfold verts_per_face. destruct (s =? 0), (shape g); lia. }
  rewrite <- Hz in Hlen.
  unfold drawn, DrawStencil.
  rewrite (for_lt_collect
             (fun row => (int_add k (zl_read built p s (2 * row + 1)),
                          zl_read built p s (2 * row), rot_z, rot_x))) by exact Hz0.
  split; [rewrite length_fmap, length_seq; lia |].
  intros row call. rewrite list_lookup_fmap.
  destruct (seq 0 (Z.to_nat (zones_per_stencil built s)) !! row) as [r |] eqn:Hr;
    [| discriminate].
  apply lookup_seq in Hr. destruct Hr as [-> Hrow]. cbn [fmap option_fmap option_map plus].
  intros [= <-].
  unfold zl_read. rewrite Hl.
  assert (Z.to_nat (2 * Z.of_nat row + 1) = (2 * row + 1)%nat) as -> by lia.
  assert (Z.to_nat (2 * Z.of_nat row) = (2 * row)%nat) as -> by lia.
  destruct (lookup_lt_is_Some_2 (zones_of g p s) (2 * row)%nat) as [face Hface]; [lia |].
  destruct (lookup_lt_is_Some_2 (zones_of g p s) (2 * row + 1)%nat) as [plane Hplane]; [lia |].
  assert (zone (zones_of g p s) row = Some (face, plane)) as Hzone
    by (unfold zone; now rewrite Hface, Hplane).
  rewrite Hface, Hplane.
  change (default 0 (Some face)) with face. change (default 0 (Some plane)) with plane.
  exists face, plane. split; [exact Hzone |]. split; [| reflexivity].
  exact (zones_of_planes g p s row face plane Hs Hzone).
Qed.

(** X18.  [DrawStencil] on a slot of the stenciled area, once the stencils
    are built, for a shell index [k] that has a shell below and a shell above
    among the values of [int] ([INT_MIN < k < INT_MAX]): it draws one zone
    per row of the zone list, in the order of the list; the zone drawn for
    row [row] is the face of zone [row], in the shell [k] displaced by the
    plane of that zone, which is the shell below [k], [k] itself or the shell
    above, and the two angles are handed on unchanged. *)
Theorem X18_stencil_drawn_zone_by_zone (b : StenciledBlock double)
    (k p s : Z) (rot_z rot_x : double) :
  stencil_slot g (face_mask b) p s = true ->
  INT_MIN < k < INT_MAX ->
  let built := BuildAllStencils g fresh_int b in
  let drawn := DrawStencil built k p s rot_z rot_x in
  Z.of_nat (length drawn) = zones_per_stencil built s /\
  forall (row : nat) (k1 face : Z) (a c : double),
    drawn !! row = Some (k1, face, a, c) ->
    zone (zones_of g p s) row = Some (face, k1 - k) /\
    k - 1 <= k1 <= k + 1 /\ a = rot_z /\ c = rot_x.
Proof.
  intros Hslot Hk built drawn.
  destruct (DrawStencil_calls b k p s rot_z rot_x Hslot) as [Hlen Hcalls].
  split; [exact Hlen |].
  intros row k1 face a c Hrow.
  destruct (Hcalls row _ Hrow) as (face' & plane & Hzone & Hplane & [= -> -> -> ->]).
  rewrite int_add_in_range by lia.
  assert (k + plane - k = plane) as -> by lia.
  split; [exact Hzone |]. split; [lia |]. split; reflexivity.
Qed.

End Drawing.

Lemma X18_stencil_drawn_zone_by_zone_witness :
  let built := BuildAllStencils tri_exact 99 tri_storage in
  let drawn := DrawStencil built 7 0 1 0%R 1%R in
  Z.of_nat (length drawn) = zones_per_stencil built 1 /\
  forall (row : nat) (k1 face : Z) (a c : R),
    drawn !! row = Some (k1, face, a, c) ->
    zone (zones_of tri_exact 0 1) row = Some (face, k1 - 7) /\
    7 - 1 <= k1 <= 7 + 1 /\ a = 0%R /\ c = 1%R.
Proof.
  apply (X18_stencil_drawn_zone_by_zone tri_exact 99 tri_storage 7 0 1 0%R 1%R).
  - reflexivity.
  - unfold INT_MIN, INT_MAX. lia.
Defined.

(** At the last shell index of the type the hypothesis on [k] fails and so
    does the conclusion: the zone above of the stencil is drawn in the shell
    [INT_MIN]. *)
Example DrawStencil_at_INT_MAX :
  let built := BuildAllStencils tri_exact 99 tri_storage in
  exists face,
    DrawStencil built INT_MAX 0 4 0%R 1%R !! 3%nat = Some (INT_MIN, face, 0%R, 1%R).
Proof.
  intros built. exists 1.
  assert (stencil_zonelist built 0 4 = Some (zones_of tri_exact 0 4)) as Hl
    by (unfold built; rewrite BuildAllStencils_zonelists; reflexivity).
  assert (zones_per_stencil built 4 = 4) as Hz
    by (unfold built; rewrite BuildAllStencils_counts; reflexivity).
  unfold DrawStencil. rewrite Hz.
  rewrite (for_lt_collect
             (fun row => (int_add INT_MAX (zl_read built 0 4 (2 * row + 1)),
                          zl_read built 0 4 (2 * row), 0%R, 1%R))) by lia.
  unfold zl_read. rewrite Hl. reflexivity.
Qed.

(** ** The matrices [AssociateMesh] leaves *)

Section AssociatedMatrices.
Context {double : Type} {ops : DoubleOps double} {kern : Kernels double}.
Variable g : GridBlock double.
Variable fresh_int : Z.

(** X15.  The matrix [AssociateMesh] leaves for a slot of the stenciled
    area is built from the zone list and the centres of mass of the same
    association: the transposed matrix has 3 rows and one column per zone of
    the list, and the column of a zone holds the centre of mass of the face
    of the zone, scaled by the radial factor of its plane, less the centre of
    mass of the principal face. *)
Theorem X15_associated_matrix_of_a_slot (b : StenciledBlock double)
    (p s : Z) (row : nat) (col face plane : Z) :
  let b' := AssociateMesh g fresh_int b in
  stencil_slot g (face_mask b') p s = true ->
  zone (zones_of g p s) row = Some (face, plane) ->
  0 <= col < 3 ->
  stencil_zonelist b' p s = Some (zones_of g p s) /\
  Z.of_nat (length (zones_of g p s)) = 2 * zones_per_stencil b' s /\
  m_rows (geom_matr_At b' p s) = 3 /\
  m_cols (geom_matr_At b' p s) = zones_per_stencil b' s /\
  m_coef (geom_matr_At b' p s) col (Z.of_nat row)
  = (rp_factor g plane * gv_at (face_cmass b' face) col - gv_at (face_cmass b' p) col)%D.
Proof.
  intros b' Hslot Hzone Hcol.
  destruct (AssociateMesh_fields g fresh_int b) as (Hm & Hz & Hl & _ & _ & HAt).
  fold b' in Hm, Hz, Hl, HAt. cbn zeta in Hm, Hz, Hl, HAt.
  rewrite Hm in Hslot.
  specialize (Hl p s). rewrite Hslot in Hl.
  destruct (HAt p s) as [HA _]. rewrite Hslot in HA.
  apply stencil_slot_true in Hslot. destruct Hslot as (Hp & He & Hs).
  pose proof (zones_of_length g p s Hs) as Hlen.
  assert (zones_per_stencil b' s = if s =? 0 then verts_per_face g + 2 else 4) as Hzs.
  { rewrite Hz. destruct (Z.eqb_spec s 0); [reflexivity |].
    replace ((1 <=? s) && (s <? n_stencils g)) with true; [reflexivity |].
    symmetry. apply andb_true_iff. split; [apply Z.leb_le | apply Z.ltb_lt]; lia. }
  rewrite <- Hzs in Hlen.
  pose proof (zone_in_range _ _ _ _ Hzone) as Hrow.
  destruct (geom_matr_A_coef g b' p s (Z.of_nat row) col) as (Hr & Hc & Hcoef);
    [lia | exact Hcol |].
  split; [exact Hl |]. split; [exact Hlen |].
  rewrite HA. cbn [m_transpose m_rows m_cols m_coef].
  split; [exact Hc |]. split; [exact Hr |].
  rewrite Hcoef. unfold zl_read. rewrite Hl.
  assert (Z.to_nat (2 * Z.of_nat row + 1) = (2 * row + 1)%nat) as -> by lia.
  assert (Z.to_nat (2 * Z.of_nat row) = (2 * row)%nat) as -> by lia.
  unfold zone in Hzone.
  destruct (zones_of g p s !! (2 * row)%nat) as [face' |]; [| discriminate].
  destruct (zones_of g p s !! (2 * row + 1)%nat) as [plane' |]; [| discriminate].
  injection Hzone as -> ->. reflexivity.
Qed.

End AssociatedMatrices.

Lemma X15_associated_matrix_of_a_slot_witness :
  let b' := AssociateMesh tri_exact 99 tri_storage in
  m_cols (geom_matr_At b' 0 1) = zones_per_stencil b' 1 /\
  m_coef (geom_matr_At b' 0 1) 2 (Z.of_nat 3)
  = (rp_factor tri_exact (-1) * gv_at (face_cmass b' 1) 2 - gv_at (face_cmass b' 0) 2)%R.
Proof.
  intros b'.
  destruct (X15_associated_matrix_of_a_slot (ops := exact) tri_exact 99 tri_storage
              0 1 3%nat 2 1 (-1)) as (_ & _ & _ & Hc & Hcoef).
  - destruct (AssociateMesh_fields (ops := exact) tri_exact 99 tri_storage) as (Hm & _).
    cbn zeta in Hm. rewrite Hm. reflexivity.
  - reflexivity.
  - lia.
  - split; [exact Hc | exact Hcoef].
Defined.

(** ** Outside the stenciled area *)

Section OutsideTheArea.
Context {double : Type} {ops : DoubleOps double} {kern : Kernels double}.
Variable g : GridBlock double.
Variable fresh_int : Z.

(** X19.  A block that is constructed and then associated with a mesh has
    nothing for a slot outside the stenciled area (a face without
    [GEOELM_STEN], a face or a stencil index out of range): no zone list, and
    the matrix and the factorisation the constructor left there, which are
    empty.  Matrices exist for the stenciled area only. *)
Theorem X19_nothing_outside_the_stenciled_area (b : StenciledBlock double) (p s : Z) :
  let built := AssociateMesh g fresh_int (StenciledBlock_ctor g b) in
  stencil_slot g (face_mask built) p s = false ->
  stencil_zonelist built p s = None /\
  geom_matr_At built p s = m_resize 0 0 /\
  m_rows (geom_matr_At built p s) = 0 /\
  m_cols (geom_matr_At built p s) = 0 /\
  geom_matr_LU built p s = lu_empty.
Proof.
  intros built Hslot.
  destruct (AssociateMesh_fields g fresh_int (StenciledBlock_ctor g b))
    as (Hm & _ & Hl & _ & _ & HAt).
  fold built in Hm, Hl, HAt. cbn zeta in Hm, Hl, HAt.
  rewrite Hm in Hslot.
  specialize (Hl p s). destruct (HAt p s) as [HA HLU].
  rewrite Hslot in Hl, HA, HLU.
  rewrite Hl, HA, HLU. repeat split.
Qed.

End OutsideTheArea.

Lemma X19_nothing_outside_the_stenciled_area_witness :
  let built := AssociateMesh tri_exact 99 (StenciledBlock_ctor tri_exact tri_storage) in
  stencil_zonelist built 4 0 = None /\
  geom_matr_At built 4 0 = m_resize 0 0 /\
  m_rows (geom_matr_At built 4 0) = 0 /\
  m_cols (geom_matr_At built 4 0) = 0 /\
  geom_matr_LU built 4 0 = lu_empty.
Proof.
  intros built.
  apply (X19_nothing_outside_the_stenciled_area (ops := exact) tri_exact 99 tri_storage 4 0).
  destruct (AssociateMesh_fields (ops := exact) tri_exact 99
              (StenciledBlock_ctor tri_exact tri_storage)) as (Hm & _).
  cbn zeta in Hm. rewrite Hm. vm_compute. reflexivity.
Defined.

(** ** Two matrix builds of one association *)

(** The block as the loop of [AssociateMesh] over the slots finds it: the
    triangular block after its constructor, the association of the base
    class, the stencil build and the moments. *)
Lemma X14_matrix_builds_commute_witness :
  let constructed := StenciledBlock_ctor tri_exact tri_storage in
  let associated :=
    set_face_mask (GridBlock_AssociateMesh tri_exact (face_mask constructed))
                  (enter call_GridBlock_AssociateMesh constructed) in
  let start := ComputeMoments tri_exact (BuildAllStencils tri_exact 99 associated) in
  let b1 := ComputeOneMatrix tri_exact 0 0 (ComputeOneMatrix tri_exact 1 2 start) in
  let b2 := ComputeOneMatrix tri_exact 1 2 (ComputeOneMatrix tri_exact 0 0 start) in
  stencil_slot tri_exact (face_mask start) 0 0 = true /\
  stencil_slot tri_exact (face_mask start) 1 2 = true /\
  m_cols (geom_matr_At b1 0 0) = 5 /\
  m_cols (geom_matr_At b1 1 2) = 4 /\
  geom_matr_At b1 = geom_matr_At b2 /\
  geom_matr_LU b1 = geom_matr_LU b2.
Proof.
  intros constructed associated start b1 b2.
  assert (face_mask start = face_mask associated) as Hm.
  { unfold start. rewrite (proj1 (ComputeMoments_frame tri_exact _)).
    now destruct (BuildAllStencils_result tri_exact 99 associated) as (-> & _). }
  assert (forall s, zones_per_stencil start s
                    = if s =? 0 then 5
                      else if (1 <=? s) && (s <? 7) then 4
                      else zones_per_stencil associated s) as Hz.
  { intros s. unfold start.
    rewrite (proj1 (proj2 (ComputeMoments_frame tri_exact _))).
    apply (BuildAllStencils_counts tri_exact 99 associated s). }
  split; [rewrite Hm; reflexivity |]. split; [rewrite Hm; reflexivity |].
  split; [| split].
  - unfold b1. rewrite ComputeOneMatrix_At_total. cbn [Z.eqb andb m_transpose m_cols].
    rewrite (proj1 (geom_matr_A_dims tri_exact _ 0 0)).
    change (zones_per_stencil (ComputeOneMatrix tri_exact 1 2 start) 0)
      with (zones_per_stencil start 0).
    now rewrite Hz.
  - unfold b1. rewrite !ComputeOneMatrix_At_total.
    change ((1 =? 0) && (2 =? 0)) with false. change ((1 =? 1) && (2 =? 2)) with true.
    cbn [m_transpose m_cols].
    rewrite (proj1 (geom_matr_A_dims tri_exact _ 1 2)).
    now rewrite Hz.
  - destruct (X14_matrix_builds_commute (ops := exact) tri_exact start 0 0 1 2)
      as (HAt & HLU & _); [left; lia |].
    split; [exact HAt | exact HLU].
Defined.
